(** * ai-summarized-news: chunking, grouping and summary aggregation

    A shallow embedding of the text segmentation pipeline
    ([backend/src/types/chunking.ts], the content chunker worker and the
    chunk-group summarizer worker) together with the properties the
    specification states about it.

    JavaScript strings are sequences of UTF-16 code units; a code unit is a
    natural number ([N]) and a string a list of them.  JavaScript numbers
    that hold lengths, offsets and configuration knobs are integers ([Z]
    or [nat] where the code can only produce a non-negative value). *)

From Stdlib Require Import ZArith QArith Qround Lia List Ascii String.
From stdpp Require Import base option list sorting gmap pretty.

Local Open Scope Z_scope.

(** ** JavaScript strings *)

Definition char := N.
Definition jsstring := list char.

(** An ASCII literal as a JavaScript string. *)
Definition str (s : string) : jsstring :=
  N_of_ascii <$> list_ascii_of_string s.

Definition NL : char := 10%N.
Definition SP : char := 32%N.

(** [WhiteSpace] and [LineTerminator] code units: the set that both
    [String.prototype.trim] and the regular expression class [\s] use. *)
Definition is_ws (c : char) : bool :=
  ((9 <=? c) && (c <=? 13) || (c =? 32) || (c =? 160) || (c =? 5760)
   || (8192 <=? c) && (c <=? 8202) || (c =? 8232) || (c =? 8233)
   || (c =? 8239) || (c =? 8287) || (c =? 12288) || (c =? 65279))%N.

(** [k] clamped into [0 .. len] the way [slice] treats a relative index:
    a negative index counts from the end. *)
Definition rel_index (len k : Z) : Z :=
  if k <? 0 then Z.max (len + k) 0 else Z.min k len.

(** [String.prototype.slice] and [Array.prototype.slice]. *)
Definition slice {A} (l : list A) (start end_ : Z) : list A :=
  let len := Z.of_nat (length l) in
  let from := rel_index len start in
  let to := rel_index len end_ in
  take (Z.to_nat (to - from)) (drop (Z.to_nat from) l).

(** [s.slice(start)]: the end defaults to the length. *)
Definition slice_from {A} (l : list A) (start : Z) : list A :=
  slice l start (Z.of_nat (length l)).

Fixpoint trimStart (s : jsstring) : jsstring :=
  match s with
  | c :: s' => if is_ws c then trimStart s' else s
  | [] => []
  end.

Definition trimEnd (s : jsstring) : jsstring :=
  reverse (trimStart (reverse s)).

(** [String.prototype.trim]. *)
Definition trim (s : jsstring) : jsstring := trimEnd (trimStart s).

(** Does [p] occur at the head of [s]? *)
Fixpoint starts_with (p s : jsstring) : bool :=
  match p, s with
  | [], _ => true
  | a :: p', b :: s' => (a =? b)%N && starts_with p' s'
  | _ :: _, [] => false
  end.

(** Offset of the last occurrence of [p] in [s] at or after offset [pos]
    of the enclosing string, if any. *)
Fixpoint last_occurrence (p s : jsstring) (pos : Z) : option Z :=
  match s with
  | [] => if starts_with p [] then Some pos else None
  | _ :: s' =>
      match last_occurrence p s' (pos + 1) with
      | Some i => Some i
      | None => if starts_with p s then Some pos else None
      end
  end.

(** [String.prototype.lastIndexOf]: [-1] when there is no occurrence. *)
Definition lastIndexOf (s p : jsstring) : Z :=
  default (-1) (last_occurrence p s 0).

(** [Array.prototype.join]. *)
Fixpoint join (sep : jsstring) (parts : list jsstring) : jsstring :=
  match parts with
  | [] => []
  | [p] => p
  | p :: rest => p ++ sep ++ join sep rest
  end.

(** ** Configuration and records ([types/chunking.ts]) *)

Record ChunkingConfig := {
  maxTokensPerChunk : Z;
  minTokensPerChunk : Z;
  overlapTokens : Z;
  chunksPerGroup : Z;
  maxChunksPerGroup : Z;
  maxCharsPerChunk : Z;
  minCharsPerChunk : Z;
  overlapChars : Z
}.

Definition DEFAULT_CHUNKING_CONFIG : ChunkingConfig := {|
  maxTokensPerChunk := 1200;
  minTokensPerChunk := 300;
  overlapTokens := 100;
  chunksPerGroup := 2;
  maxChunksPerGroup := 3;
  maxCharsPerChunk := 4800;
  minCharsPerChunk := 1200;
  overlapChars := 400
|}.

Inductive ContentType := article | code | mixed.

Inductive group_status := pending | summarized | failed.

Record ContentChunk := {
  chunk_id : option Z;
  chunk_content_id : Z;
  chunk_index : nat;
  chunk_text : jsstring;
  token_count : Z;
  chunk_type : ContentType
}.

Record ChunkGroup := {
  group_content_id : Z;
  chunk_ids : list Z;
  group_index : Z;
  combined_text : jsstring;
  combined_tokens : Z;
  status : group_status
}.

(** [Math.ceil(text.length / 4)]: the quotient is taken in the rationals,
    as the division of two JavaScript numbers is, and then rounded up. *)
Definition estimateTokenCount (text : jsstring) : Z :=
  Qceiling (inject_Z (Z.of_nat (length text)) / inject_Z 4).

(** ** Regular expressions

    The four patterns of [findTextBoundaries] are sequences of literals,
    character classes, greedy and lazy repetitions of a class and one
    look-ahead, with one top-level alternation.  They are matched the way
    a backtracking engine does: the first successful path in priority
    order decides the match. *)

Inductive atom :=
| Lit (c : char)                  (* one given code unit *)
| Class (p : char → bool)         (* [...] *)
| Star (p : char → bool)          (* p*, greedy *)
| Plus (p : char → bool)          (* p+, greedy *)
| LazyStar (p : char → bool)      (* p*?, lazy *)
| Ahead (p : char → bool).        (* (?=p) *)

(** A pattern: alternatives, tried left to right, each a sequence. *)
Definition regex := list (list atom).

(** Greedy repetition: take one more character when possible, and fall
    back to the continuation [k] at the current position otherwise. *)
Fixpoint greedy (p : char → bool) (k : jsstring → option nat)
    (s : jsstring) : option nat :=
  match s with
  | c :: s' =>
      if p c then
        match greedy p k s' with
        | Some n => Some (S n)
        | None => k s
        end
      else k s
  | [] => k s
  end.

(** Lazy repetition: try the continuation first. *)
Fixpoint lazy_rep (p : char → bool) (k : jsstring → option nat)
    (s : jsstring) : option nat :=
  match k s with
  | Some n => Some n
  | None =>
      match s with
      | c :: s' => if p c then S <$> lazy_rep p k s' else None
      | [] => None
      end
  end.

(** Length of the match of the sequence [r] at the head of [s]. *)
Fixpoint match_seq (r : list atom) (s : jsstring) : option nat :=
  match r with
  | [] => Some 0%nat
  | a :: r' =>
      match a with
      | Lit c =>
          match s with
          | x :: s' => if (x =? c)%N then S <$> match_seq r' s' else None
          | [] => None
          end
      | Class p =>
          match s with
          | x :: s' => if p x then S <$> match_seq r' s' else None
          | [] => None
          end
      | Star p => greedy p (match_seq r') s
      | Plus p =>
          match s with
          | x :: s' => if p x then S <$> greedy p (match_seq r') s' else None
          | [] => None
          end
      | LazyStar p => lazy_rep p (match_seq r') s
      | Ahead p =>
          match s with
          | x :: _ => if p x then match_seq r' s else None
          | [] => None
          end
      end
  end.

Fixpoint regex_match (r : regex) (s : jsstring) : option nat :=
  match r with
  | [] => None
  | alt :: r' =>
      match match_seq alt s with
      | Some n => Some n
      | None => regex_match r' s
      end
  end.

(** The loop [while ((match = re.exec(text)) !== null)] of a global
    pattern: every match as [(match.index, match[0].length)], each search
    resuming at the end of the previous match.  [pos] is the offset of
    [s] in the text and [skip] the number of characters of [s] that the
    previous match still covers.  (None of the patterns below matches the
    empty string, see [regex_match_nonempty].) *)
Fixpoint exec_from (r : regex) (s : jsstring) (pos skip : nat)
    : list (nat * nat) :=
  match s with
  | [] => []
  | _ :: s' =>
      match skip with
      | S k => exec_from r s' (S pos) k
      | O =>
          match regex_match r s with
          | Some n => (pos, n) :: exec_from r s' (S pos) (pred n)
          | None => exec_from r s' (S pos) 0
          end
      end
  end.

Definition exec_all (r : regex) (text : jsstring) : list (nat * nat) :=
  exec_from r text 0 0.

Definition any_char (c : char) : bool := true.

(** [.] without the [s] flag: anything but a line terminator. *)
Definition is_dot (c : char) : bool :=
  negb ((c =? 10) || (c =? 13) || (c =? 8232) || (c =? 8233))%N.

Definition is_hash (c : char) : bool := (c =? 35)%N.

(** [[.!?]] *)
Definition is_terminal_punct (c : char) : bool :=
  ((c =? 46) || (c =? 33) || (c =? 63))%N.

(** [[A-Z]] *)
Definition is_upper (c : char) : bool := ((65 <=? c) && (c <=? 90))%N.

Definition lits (s : string) : list atom := Lit <$> str s.

(** [/\n\s*\n/g] *)
Definition paragraphRegex : regex := [[Lit NL; Star is_ws; Lit NL]].

(** [/\n#+\s+.+\n/g] *)
Definition sectionRegex : regex :=
  [[Lit NL; Plus is_hash; Plus is_ws; Plus is_dot; Lit NL]].

(** [/(```[\s\S]*?```|<pre>[\s\S]*?<\/pre>)/g] *)
Definition codeBlockRegex : regex :=
  [lits "```" ++ [LazyStar any_char] ++ lits "```";
   lits "<pre>" ++ [LazyStar any_char] ++ lits "</pre>"].

(** [/[.!?]\s+(?=[A-Z])/g] *)
Definition sentenceRegex : regex :=
  [[Class is_terminal_punct; Plus is_ws; Ahead is_upper]].

(** ** Boundary detection ([findTextBoundaries]) *)

Inductive boundary_type := paragraph | sentence | section | code_block.

Record TextBoundary := {
  index : nat;
  type : boundary_type;
  priority : Z
}.

(** Insertion of [b] before the first element that sorts after or with
    it: the step of a stable sort by ascending [index]. *)
Fixpoint insert_by_index (b : TextBoundary) (l : list TextBoundary)
    : list TextBoundary :=
  match l with
  | [] => [b]
  | x :: l' =>
      if (index b <=? index x)%nat then b :: l else x :: insert_by_index b l'
  end.

(** [boundaries.sort((a, b) => a.index - b.index)]: the sort is stable, so
    the result is the one ordering of the input by ascending [index] that
    keeps equal offsets in their order of insertion. *)
Definition sort_by_index (l : list TextBoundary) : list TextBoundary :=
  foldr insert_by_index [] l.

Definition findTextBoundaries (text : jsstring) : list TextBoundary :=
  let paragraphs :=
    (λ m, {| index := m.1 + m.2; type := paragraph; priority := 100 |})
      <$> exec_all paragraphRegex text in
  let sections :=
    (λ m, {| index := m.1 + m.2; type := section; priority := 90 |})
      <$> exec_all sectionRegex text in
  let codeBlocks :=
    exec_all codeBlockRegex text ≫=
      (λ m, [ {| index := m.1; type := code_block; priority := 85 |};
              {| index := m.1 + m.2; type := code_block; priority := 85 |} ]) in
  let sentences :=
    (λ m, {| index := m.1 + 1; type := sentence; priority := 50 |})
      <$> exec_all sentenceRegex text in
  sort_by_index (paragraphs ++ sections ++ codeBlocks ++ sentences).

(** ** The chunk packer (content chunker worker) *)

(** [getOverlapText(chunk, overlapTokens)].  The comparison with
    [overlapChars / 2] is one of JavaScript numbers, so the quotient is
    taken in the rationals. *)
Definition getOverlapText (chunk : jsstring) (overlapTokens : Z) : jsstring :=
  let overlapChars := overlapTokens * 4 in
  if Z.of_nat (length chunk) <=? overlapChars then chunk
  else
    let startIndex := Z.max 0 (Z.of_nat (length chunk) - overlapChars) in
    let overlapSection := slice_from chunk startIndex in
    let sentenceBoundary := lastIndexOf overlapSection (str ". ") in
    if negb (Qle_bool (inject_Z sentenceBoundary)
                      (inject_Z overlapChars / inject_Z 2))
    then slice_from chunk (startIndex + sentenceBoundary + 2)
    else overlapSection.

(** The variables of the loop of [chunkText]. *)
Record packer := {
  chunks : list jsstring;
  currentChunk : jsstring;
  currentTokens : Z;
  lastBoundary : nat
}.

(** One iteration of [for (const boundary of boundaries)]. *)
Definition pack_step (cfg : ChunkingConfig) (text : jsstring)
    (st : packer) (boundary : TextBoundary) : packer :=
  let segmentText :=
    slice text (Z.of_nat (lastBoundary st)) (Z.of_nat (index boundary)) in
  let segmentTokens := estimateTokenCount segmentText in
  if (maxTokensPerChunk cfg <? currentTokens st + segmentTokens)
     && (0 <? length (currentChunk st))%nat
  then
    if minTokensPerChunk cfg <=? currentTokens st then
      let chunks' := chunks st ++ [trim (currentChunk st)] in
      if 0 <? overlapTokens cfg then
        let overlapText :=
          getOverlapText (currentChunk st) (overlapTokens cfg) in
        let currentChunk' := overlapText ++ segmentText in
        {| chunks := chunks';
           currentChunk := currentChunk';
           currentTokens := estimateTokenCount currentChunk';
           lastBoundary := index boundary |}
      else
        {| chunks := chunks';
           currentChunk := segmentText;
           currentTokens := segmentTokens;
           lastBoundary := index boundary |}
    else
      {| chunks := chunks st;
         currentChunk := currentChunk st ++ segmentText;
         currentTokens := currentTokens st + segmentTokens;
         lastBoundary := index boundary |}
  else
    {| chunks := chunks st;
       currentChunk := currentChunk st ++ segmentText;
       currentTokens := currentTokens st + segmentTokens;
       lastBoundary := index boundary |}.

Definition pack_init : packer :=
  {| chunks := []; currentChunk := []; currentTokens := 0; lastBoundary := 0 |}.

(** The boundaries the loop walks: those found, then the one pushed at
    the end of the text. *)
Definition pack_boundaries (text : jsstring) : list TextBoundary :=
  findTextBoundaries text
    ++ [ {| index := length text; type := paragraph; priority := 100 |} ].

(** The chunks after the loop and the push of the trailing chunk (the
    body of [chunkText] up to the test for the fallback). *)
Definition packChunks (cfg : ChunkingConfig) (text : jsstring)
    : list jsstring :=
  let st := fold_left (pack_step cfg text) (pack_boundaries text) pack_init in
  if (0 <? length (trim (currentChunk st)))%nat
  then chunks st ++ [trim (currentChunk st)]
  else chunks st.

(** The loop of [fallbackChunking], from offset [i] on.  Nothing in the
    source bounds the number of iterations (the step
    [maxChars - overlapChars] may be zero or negative), so the loop takes
    fuel and [None] stands for a run that has not returned. *)
Fixpoint fallback_loop (fuel : nat) (cfg : ChunkingConfig) (text : jsstring)
    (i : Z) (acc : list jsstring) : option (list jsstring) :=
  if i <? Z.of_nat (length text) then
    match fuel with
    | O => None
    | S fuel' =>
        let chunk := slice text i (i + maxCharsPerChunk cfg) in
        let acc' :=
          if (0 <? length (trim chunk))%nat then acc ++ [trim chunk] else acc in
        fallback_loop fuel' cfg text
          (i + (maxCharsPerChunk cfg - overlapChars cfg)) acc'
    end
  else Some acc.

Definition fallbackChunking (fuel : nat) (cfg : ChunkingConfig)
    (text : jsstring) : option (list jsstring) :=
  fallback_loop fuel cfg text 0 [].

(** [chunkText(text, contentType)]. *)
Definition chunkText (fuel : nat) (cfg : ChunkingConfig) (text : jsstring)
    (contentType : ContentType) : option (list jsstring) :=
  let chunks := packChunks cfg text in
  if (length chunks =? 0)%nat && (0 <? length text)%nat
  then fallbackChunking fuel cfg text
  else Some chunks.

(** ** The group builder *)

(** The group pushed for the window that starts at [i].  The loop only
    runs its body when [chunks] has a first element, so the default of
    [crawled_content_id] is never used; [Math.floor(i / chunksPerGroup)]
    rounds a quotient of JavaScript numbers, taken here in the rationals. *)
Definition make_group (cfg : ChunkingConfig) (chunks : list ContentChunk)
    (i : Z) : ChunkGroup :=
  let groupChunks := slice chunks i (i + maxChunksPerGroup cfg) in
  {| group_content_id := default 0 (chunk_content_id <$> head chunks);
     chunk_ids := omap chunk_id groupChunks;
     group_index := Qfloor (inject_Z i / inject_Z (chunksPerGroup cfg));
     combined_text := join [NL; NL] (chunk_text <$> groupChunks);
     combined_tokens := foldl (λ total chunk, total + token_count chunk) 0 groupChunks;
     status := pending |}.

(** The loop of [createChunkGroups] from [i] on; it takes fuel as nothing
    in the source bounds it when [chunksPerGroup] is not positive. *)
Fixpoint group_loop (fuel : nat) (cfg : ChunkingConfig)
    (chunks : list ContentChunk) (i : Z) (groups : list ChunkGroup)
    : option (list ChunkGroup) :=
  if i <? Z.of_nat (length chunks) then
    match fuel with
    | O => None
    | S fuel' =>
        group_loop fuel' cfg chunks (i + chunksPerGroup cfg)
          (groups ++ [make_group cfg chunks i])
    end
  else Some groups.

Definition createChunkGroups (fuel : nat) (cfg : ChunkingConfig)
    (chunks : list ContentChunk) : option (list ChunkGroup) :=
  group_loop fuel cfg chunks 0 [].

(** ** Chunk persistence *)

Section SaveChunks.
(** The [INSERT ... ON CONFLICT ... RETURNING id] query on
    [content_chunks]: the id of the row, or [None] when the query is
    rejected (the chunk is then logged and left out). *)
Variable insert_chunk :
  Z → nat → jsstring → Z → ContentType → option Z.

Fixpoint save_loop (contentId : Z) (contentType : ContentType)
    (i : nat) (chunks : list jsstring) : list ContentChunk :=
  match chunks with
  | [] => []
  | chunkText :: rest =>
      let tokenCount := estimateTokenCount chunkText in
      match insert_chunk contentId i chunkText tokenCount contentType with
      | Some id =>
          {| chunk_id := Some id;
             chunk_content_id := contentId;
             chunk_index := i;
             chunk_text := chunkText;
             token_count := tokenCount;
             chunk_type := contentType |}
            :: save_loop contentId contentType (S i) rest
      | None => save_loop contentId contentType (S i) rest
      end
  end.

Definition saveChunks (contentId : Z) (chunks : list jsstring)
    (contentType : ContentType) : list ContentChunk :=
  save_loop contentId contentType 0 chunks.
End SaveChunks.

(** ** The summary aggregator (chunk-group summarizer worker) *)

Module Summarizer.

(** [SummarizedContent]; dates are timestamps. *)
Record SummarizedContent := {
  id : option Z;
  url : jsstring;
  title : jsstring;
  original_text : jsstring;
  summary : jsstring;
  key_points : list jsstring;
  code_snippets : list jsstring;
  content_type : jsstring;
  sentiment : jsstring;
  category : jsstring;
  crawled_at : Z;
  summarized_at : Z;
  crawled_content_id : option Z;
  chunk_group_id : option Z;
  is_partial_summary : bool
}.

(** [summary.is_partial_summary = v] *)
Definition set_is_partial (v : bool) (s : SummarizedContent)
    : SummarizedContent :=
  {| id := id s; url := url s; title := title s;
     original_text := original_text s; summary := summary s;
     key_points := key_points s; code_snippets := code_snippets s;
     content_type := content_type s; sentiment := sentiment s;
     category := category s; crawled_at := crawled_at s;
     summarized_at := summarized_at s;
     crawled_content_id := crawled_content_id s;
     chunk_group_id := chunk_group_id s;
     is_partial_summary := v |}.

(** The fields [processArticle] fills in on a fresh partial summary. *)
Definition fill_in (u : jsstring) (cid crawled : Z) (s : SummarizedContent)
    : SummarizedContent :=
  {| id := id s; url := u; title := title s;
     original_text := original_text s; summary := summary s;
     key_points := key_points s; code_snippets := code_snippets s;
     content_type := content_type s; sentiment := sentiment s;
     category := category s; crawled_at := crawled;
     summarized_at := summarized_at s;
     crawled_content_id := Some cid;
     chunk_group_id := chunk_group_id s;
     is_partial_summary := is_partial_summary s |}.

(** [ContentWithGroups] *)
Record ContentWithGroups := {
  cd_id : Z;
  cd_url : jsstring;
  cd_title : jsstring;
  cd_content_type : jsstring;
  cd_crawled_at : Z;
  cd_groups : list ChunkGroup
}.

(** The object parsed from the summarizer's answer; a field may be
    missing. *)
Record AiResponse := {
  ai_summary : option jsstring;
  ai_keyPoints : option (list jsstring);
  ai_category : option jsstring;
  ai_sentiment : option jsstring
}.

(** One request to the chat completion endpoint. *)
Record completion_request := {
  system_prompt : jsstring;
  user_prompt : jsstring;
  max_tokens : Z
}.

(** [x || d] on an optional string: a missing or empty string is falsy. *)
Definition or_string (x : option jsstring) (d : jsstring) : jsstring :=
  match x with
  | Some (c :: s) => c :: s
  | _ => d
  end.

(** [x || d] on an optional array: every array is truthy. *)
Definition or_array (x : option (list jsstring)) (d : list jsstring)
    : list jsstring :=
  default d x.

(** ** The staging buffer: Redis lists *)

(** [LPUSH key value]: a missing key is an empty list. *)
Definition lPush (key : string) (value : jsstring)
    (db : gmap string (list jsstring)) : gmap string (list jsstring) :=
  <[key := value :: default [] (db !! key)]> db.

(** [LRANGE key start stop]: both ends inclusive, a negative offset
    counts from the end of the list. *)
Definition lRange (key : string) (start stop : Z)
    (db : gmap string (list jsstring)) : list jsstring :=
  let l := default [] (db !! key) in
  let len := Z.of_nat (length l) in
  let from := if start <? 0 then Z.max (len + start) 0 else start in
  let to := if stop <? 0 then len + stop else Z.min stop (len - 1) in
  take (Z.to_nat (to - from + 1)) (drop (Z.to_nat from) l).

(** [DEL key] *)
Definition del (key : string) (db : gmap string (list jsstring))
    : gmap string (list jsstring) :=
  delete key db.

(** [`partial_summaries:${crawledContentId}`] *)
Definition queueKey (crawledContentId : Z) : string :=
  ("partial_summaries:" ++ pretty crawledContentId)%string.

Section Worker.
(** [JSON.stringify] of a summary, and [JSON.parse] followed by the
    conversion of the two date fields back to dates ([None]: the parse
    throws). *)
Variable JSON_stringify : SummarizedContent → jsstring.
Variable JSON_parse : jsstring → option SummarizedContent.

(** The chat completion endpoint: the content of the first choice, or
    [None] when the call throws or answers nothing. *)
Variable chat_completion : completion_request → option jsstring.

(** The answer cleaned of its code fences and parsed. *)
Variable parse_response : jsstring → option AiResponse.

(** [new Date()] *)
Variable now : Z.

(** [summarizeChunkGroup(group, title, contentType, groupIndex, totalGroups)]:
    the partial summary of a group, or [null]. *)
Variable summarizeChunkGroup :
  ChunkGroup → jsstring → jsstring → Z → nat → option SummarizedContent.

Definition storePartialSummary (crawledContentId : Z)
    (partialSummary : SummarizedContent)
    (db : gmap string (list jsstring)) : gmap string (list jsstring) :=
  lPush (queueKey crawledContentId) (JSON_stringify partialSummary) db.

Definition getPartialSummaries (crawledContentId : Z)
    (db : gmap string (list jsstring)) : option (list SummarizedContent) :=
  let summaryStrings := lRange (queueKey crawledContentId) 0 (-1) db in
  mapM JSON_parse (reverse summaryStrings).

Definition cleanupPartialSummaries (crawledContentId : Z)
    (db : gmap string (list jsstring)) : gmap string (list jsstring) :=
  del (queueKey crawledContentId) db.

(** [`Part ${i + 1}: ${s.summary}`] for each summary from position [i]. *)
Fixpoint part_lines (i : nat) (l : list SummarizedContent)
    : list jsstring :=
  match l with
  | [] => []
  | s :: l' =>
      (str "Part " ++ str (pretty (i + 1)%nat) ++ str ": " ++ summary s)
        :: part_lines (S i) l'
  end.

Definition final_system_prompt : jsstring :=
  str "You are an expert content summarizer. You must respond in Myanmar/Burmese language only. You are given multiple partial summaries of an article. Create a cohesive final summary that captures the overall essence of the entire article.".

Definition dquote : jsstring := [34%N].
Definition bullet : jsstring := [8226%N; 32%N].

Definition final_user_prompt (contentData : ContentWithGroups)
    (combinedSummary : jsstring) (combinedKeyPoints : list jsstring)
    : jsstring :=
  [NL] ++ str "Article: " ++ dquote ++ cd_title contentData ++ dquote ++ [NL]
  ++ str "Content Type: " ++ cd_content_type contentData ++ [NL; NL]
  ++ str "Partial Summaries:" ++ [NL] ++ combinedSummary ++ [NL; NL]
  ++ str "Combined Key Points:" ++ [NL]
  ++ join [NL] ((λ point, bullet ++ point) <$> combinedKeyPoints) ++ [NL; NL]
  ++ str "Please create a final cohesive summary in Myanmar/Burmese that captures the overall article:" ++ [NL]
  ++ str "1. Write a comprehensive 3-4 sentence summary in Burmese" ++ [NL]
  ++ str "2. Select and refine the most important 4-6 key points in Burmese" ++ [NL]
  ++ str "3. Determine the overall category and sentiment" ++ [NL; NL]
  ++ str "Format your response as JSON with Burmese text:" ++ [NL]
  ++ str "{" ++ [NL]
  ++ str "  " ++ dquote ++ str "summary" ++ dquote ++ str ": " ++ dquote
  ++ str "Your comprehensive Burmese summary here" ++ dquote ++ str "," ++ [NL]
  ++ str "  " ++ dquote ++ str "keyPoints" ++ dquote ++ str ": ["
  ++ dquote ++ str "Refined Burmese point 1" ++ dquote ++ str ", "
  ++ dquote ++ str "Refined Burmese point 2" ++ dquote ++ str ", "
  ++ dquote ++ str "Refined Burmese point 3" ++ dquote ++ str "]," ++ [NL]
  ++ str "  " ++ dquote ++ str "category" ++ dquote ++ str ": " ++ dquote
  ++ str "Overall Category Name in English" ++ dquote ++ str "," ++ [NL]
  ++ str "  " ++ dquote ++ str "sentiment" ++ dquote ++ str ": " ++ dquote
  ++ str "overall_sentiment" ++ dquote ++ [NL]
  ++ str "}" ++ [NL].

(** [createFinalSummary(partialSummaries, contentData)]: the summary
    returned ([None] for [null]) and the requests sent to the
    summarizer on the way. *)
Definition createFinalSummary (partialSummaries : list SummarizedContent)
    (contentData : ContentWithGroups)
    : option SummarizedContent * list completion_request :=
  match partialSummaries with
  | [summary] => (Some (set_is_partial false summary), [])
  | _ =>
      let combinedSummary := join [NL; NL] (part_lines 0 partialSummaries) in
      let combinedKeyPoints :=
        filter (λ point, (0 < length (trim point))%nat)
               (partialSummaries ≫= key_points) in
      let request :=
        {| system_prompt := final_system_prompt;
           user_prompt :=
             final_user_prompt contentData combinedSummary combinedKeyPoints;
           max_tokens := 1200 |} in
      match chat_completion request with
      | None => (None, [request])
      | Some responseContent =>
          let aiResponse :=
            match parse_response responseContent with
            | Some r => Some r
            | None =>
                (* const bestPartial = partialSummaries[0] *)
                bestPartial ← head partialSummaries;
                Some {| ai_summary := Some (summary bestPartial);
                        ai_keyPoints := Some (take 6 combinedKeyPoints);
                        ai_category := Some (category bestPartial);
                        ai_sentiment := Some (sentiment bestPartial) |}
            end in
          let read_first (field : SummarizedContent → jsstring)
                (x : option jsstring) : option jsstring :=
            match x with
            | Some (c :: s) => Some (c :: s)
            | _ => field <$> head partialSummaries
            end in
          (aiResponse ≫= λ r,
             sentiment' ← read_first sentiment (ai_sentiment r);
             category' ← read_first category (ai_category r);
             Some {| id := None;
                     url := cd_url contentData;
                     title := cd_title contentData;
                     original_text :=
                       take (Z.to_nat 15000)
                         (join [NL; NL] (original_text <$> partialSummaries));
                     summary :=
                       or_string (ai_summary r)
                                 (str "Final summary not available");
                     key_points :=
                       or_array (ai_keyPoints r) (take 6 combinedKeyPoints);
                     code_snippets := [];
                     content_type := cd_content_type contentData;
                     sentiment := sentiment';
                     category := category';
                     crawled_at := cd_crawled_at contentData;
                     summarized_at := now;
                     crawled_content_id := Some (cd_id contentData);
                     chunk_group_id := None;
                     is_partial_summary := false |},
           [request])
      end
  end.

(** The loop of [processArticle] over the groups of a document: the
    staging buffer and the status of each group afterwards. *)
Fixpoint summarize_groups (contentData : ContentWithGroups)
    (groups : list ChunkGroup) (db : gmap string (list jsstring))
    : gmap string (list jsstring) * list group_status :=
  match groups with
  | [] => (db, [])
  | group :: rest =>
      match summarizeChunkGroup group (cd_title contentData)
              (cd_content_type contentData) (group_index group)
              (length (cd_groups contentData)) with
      | Some partialSummary =>
          let partialSummary' :=
            fill_in (cd_url contentData) (cd_id contentData)
                    (cd_crawled_at contentData) partialSummary in
          let r := summarize_groups contentData rest
                     (storePartialSummary (cd_id contentData)
                        partialSummary' db) in
          (r.1, summarized :: r.2)
      | None =>
          let r := summarize_groups contentData rest db in
          (r.1, failed :: r.2)
      end
  end.
End Worker.
End Summarizer.

(** * Properties *)

(** ** Arithmetic of the JavaScript quotients *)

Lemma Qceiling_div4 (n : Z) :
  Qceiling (inject_Z n / inject_Z 4) = (n + 3) / 4.
Proof.
  unfold Qceiling, Qfloor, Qdiv, Qmult, Qinv, Qopp, inject_Z; simpl.
  rewrite !Z.mul_1_r. change (Z.pos (1 * 4)) with 4.
  assert (H := Z.div_mod (- n) 4 ltac:(lia)).
  assert (H' := Z.mod_pos_bound (- n) 4 ltac:(lia)).
  apply Z.div_unique with (r := n + 3 - 4 * - (- n / 4)); lia.
Qed.

Lemma Qfloor_div (a b : Z) :
  0 < b → Qfloor (inject_Z a / inject_Z b) = a / b.
Proof.
  intros Hb. destruct b as [|p|p]; try lia.
  unfold Qfloor, Qdiv, Qmult, Qinv, inject_Z; simpl.
  by rewrite Z.mul_1_r.
Qed.

Lemma Qhalf_lt (a b : Z) :
  negb (Qle_bool (inject_Z a) (inject_Z b / inject_Z 2)) = (b <? 2 * a).
Proof.
  unfold Qle_bool, Qdiv, Qmult, Qinv, inject_Z; simpl Qnum; simpl Qden.
  rewrite !Z.mul_1_r.
  by rewrite Z.ltb_antisym, (Z.mul_comm 2 a).
Qed.

Lemma estimateTokenCount_eq (s : jsstring) :
  estimateTokenCount s = (Z.of_nat (length s) + 3) / 4.
Proof. apply Qceiling_div4. Qed.

Lemma estimateTokenCount_bounds (s : jsstring) :
  4 * (estimateTokenCount s - 1) < Z.of_nat (length s) <= 4 * estimateTokenCount s.
Proof.
  rewrite estimateTokenCount_eq.
  assert (H := Z.div_mod (Z.of_nat (length s) + 3) 4 ltac:(lia)).
  assert (H' := Z.mod_pos_bound (Z.of_nat (length s) + 3) 4 ltac:(lia)).
  lia.
Qed.

Lemma estimateTokenCount_nonneg (s : jsstring) : 0 <= estimateTokenCount s.
Proof. pose proof (estimateTokenCount_bounds s). lia. Qed.

(** ** [slice] on offsets inside the string *)

Lemma rel_index_in (len k : Z) : 0 <= k <= len → rel_index len k = k.
Proof. unfold rel_index. intros H. destruct (Z.ltb_spec k 0); lia. Qed.

Lemma slice_in {A} (l : list A) (a b : nat) :
  (a <= b <= length l)%nat →
  slice l (Z.of_nat a) (Z.of_nat b) = take (b - a) (drop a l).
Proof.
  intros H. unfold slice. rewrite !rel_index_in by lia.
  rewrite Nat2Z.id. f_equal. lia.
Qed.

Lemma slice_from_in {A} (l : list A) (a : Z) :
  0 <= a <= Z.of_nat (length l) → slice_from l a = drop (Z.to_nat a) l.
Proof.
  intros H. unfold slice_from, slice. rewrite !rel_index_in by lia.
  apply take_ge. rewrite length_drop. lia.
Qed.

(** A window of non-negative width: [l.slice(i, i + w)] for [0 <= i]. *)
Lemma slice_window {A} (l : list A) (i w : Z) :
  0 <= i → 0 <= w →
  slice l i (i + w) = take (Z.to_nat w) (drop (Z.to_nat i) l).
Proof.
  intros Hi Hw. unfold slice, rel_index.
  destruct (Z.ltb_spec i 0), (Z.ltb_spec (i + w) 0); try lia.
  destruct (Z.le_gt_cases i (Z.of_nat (length l))).
  - rewrite (Z.min_l i) by lia.
    destruct (Z.le_gt_cases (i + w) (Z.of_nat (length l))).
    + rewrite Z.min_l by lia. f_equal. lia.
    + rewrite Z.min_r by lia.
      rewrite !take_ge; [done | rewrite length_drop; lia..].
  - rewrite !Z.min_r by lia.
    rewrite !drop_ge by lia. by rewrite !take_nil.
Qed.

(** ** Token estimation *)

Lemma save_loop_token_count insert_chunk contentId contentType i chunks c :
  c ∈ save_loop insert_chunk contentId contentType i chunks →
  chunk_text c ∈ chunks ∧ token_count c = estimateTokenCount (chunk_text c).
Proof.
  revert i. induction chunks as [|t rest IH]; simpl; intros i Hc.
  - by apply elem_of_nil in Hc.
  - destruct (insert_chunk _ _ _ _ _).
    + apply elem_of_cons in Hc as [-> | Hc]; simpl.
      * split; [left | done].
      * destruct (IH _ Hc). split; [by right | done].
    + destruct (IH _ Hc). split; [by right | done].
Qed.

(** C4. [estimateTokenCount s] is the ceiling of [length s / 4]: the one
    integer [n] with [4 (n - 1) < length s <= 4 n].  It depends on the
    length of the string alone (there is no variant per language or
    content type); chunk persistence records [token_count] as
    [estimateTokenCount] of the saved text; and every step of the packer
    obtains its running count either by adding [estimateTokenCount] of the
    segment or as [estimateTokenCount] of the chunk it starts. *)
Theorem estimateTokenCount_is_the_estimator :
  (∀ (s : jsstring) (n : Z),
     estimateTokenCount s = n ↔ 4 * (n - 1) < Z.of_nat (length s) <= 4 * n)
  ∧ (∀ s t : jsstring, length s = length t →
       estimateTokenCount s = estimateTokenCount t)
  ∧ (∀ insert_chunk contentId chunks contentType c,
       c ∈ saveChunks insert_chunk contentId chunks contentType →
       token_count c = estimateTokenCount (chunk_text c))
  ∧ (∀ cfg text st boundary,
       let segmentText :=
         slice text (Z.of_nat (lastBoundary st)) (Z.of_nat (index boundary)) in
       let st' := pack_step cfg text st boundary in
       currentTokens st' = currentTokens st + estimateTokenCount segmentText
       ∨ currentTokens st' = estimateTokenCount (currentChunk st')).
Proof.
  split_and!.
  - intros s n. pose proof (estimateTokenCount_bounds s). split; [intros <-; lia | lia].
  - intros s t Hlen. unfold estimateTokenCount. by rewrite Hlen.
  - intros ins cid chunks ct c Hc.
    by apply save_loop_token_count in Hc as [_ ?].
  - intros cfg text st b; simpl. unfold pack_step.
    repeat case_match; simpl; auto.
Qed.

(** ** The overlap tail *)

(** [k] is the offset of the last occurrence of [p] in [s]. *)
Definition last_occurrence_at (p s : jsstring) (k : nat) : Prop :=
  p `prefix_of` drop k s ∧ ∀ j, (k < j)%nat → ¬ p `prefix_of` drop j s.

Lemma starts_with_prefix (p s : jsstring) :
  starts_with p s = true ↔ p `prefix_of` s.
Proof.
  revert s. induction p as [|a p IH]; intros s; simpl.
  - split; [intros _; apply prefix_nil | done].
  - destruct s as [|b s].
    + split; [done | intros H; by apply prefix_nil_not in H].
    + rewrite andb_true_iff, IH, N.eqb_eq. split.
      * intros [-> H]. by apply prefix_cons.
      * intros H. split; [by apply prefix_cons_inv_1 in H | by apply prefix_cons_inv_2 in H].
Qed.

Lemma last_occurrence_spec (p s : jsstring) (pos : Z) :
  p ≠ [] →
  match last_occurrence p s pos with
  | Some i => ∃ k, i = pos + Z.of_nat k ∧ last_occurrence_at p s k
  | None => ∀ k, ¬ p `prefix_of` drop k s
  end.
Proof.
  intros Hp. revert pos. induction s as [|c s IH]; intros pos; simpl.
  - destruct p; [done|]. simpl. intros k. rewrite drop_nil. apply prefix_nil_not.
  - specialize (IH (pos + 1)). destruct (last_occurrence p s (pos + 1)) as [i|].
    + destruct IH as (k & -> & Hk & Hlast). exists (S k). split; [lia|].
      split; [done|]. intros [|j] Hj; [lia|]. apply Hlast. lia.
    + destruct (starts_with p (c :: s)) eqn:Hsw.
      * exists 0%nat. split; [lia|]. split; [by apply starts_with_prefix|].
        intros [|j] Hj; [lia|]. apply IH.
      * intros [|k]; [|apply IH]. simpl. rewrite <- starts_with_prefix. congruence.
Qed.

Lemma last_occurrence_at_unique (p s : jsstring) (j k : nat) :
  last_occurrence_at p s j → last_occurrence_at p s k → j = k.
Proof.
  intros [Hj Hj'] [Hk Hk'].
  destruct (Nat.lt_total j k) as [H | [H | H]]; [|done|].
  - by apply Hj' in H.
  - by apply Hk' in H.
Qed.

(** The statement of the overlap tail, with the comparison that decides
    when the whole chunk is reused left open: [R (length chunk) budget]
    reads "the chunk is short enough". *)
Definition overlap_tail_rule (R : nat → nat → Prop) (chunk : jsstring)
    (overlapTokens : Z) (result : jsstring) : Prop :=
  let budget := Z.to_nat (overlapTokens * 4) in
  (R (length chunk) budget → result = chunk)
  ∧ (¬ R (length chunk) budget →
     let tail := drop (length chunk - budget) chunk in
     (∀ k, last_occurrence_at (str ". ") tail k → (budget < 2 * k)%nat →
           result = drop (k + 2) tail)
     ∧ ((∀ k, last_occurrence_at (str ". ") tail k → (2 * k <= budget)%nat) →
        result = tail)).

Lemma prefix_of_drop_length (p s : jsstring) (k : nat) :
  p `prefix_of` drop k s → (k + length p <= length s)%nat ∨ p = [].
Proof.
  intros H. destruct p as [|a p]; [by right|]. left.
  apply prefix_length in H. rewrite length_drop in H. simpl in *.
  lia.
Qed.

Lemma getOverlapText_rule (chunk : jsstring) (overlapTokens : Z) :
  0 <= overlapTokens →
  overlap_tail_rule le chunk overlapTokens (getOverlapText chunk overlapTokens).
Proof.
  intros Hot. unfold overlap_tail_rule, getOverlapText.
  set (oc := overlapTokens * 4). set (budget := Z.to_nat oc).
  assert (Hb : Z.of_nat budget = oc) by (unfold budget, oc; lia).
  destruct (Z.leb_spec (Z.of_nat (length chunk)) oc) as [Hle | Hgt].
  { split; [done | intros []; lia]. }
  split; [intros ?; lia | intros _].
  rewrite Z.max_r by lia.
  set (tail := drop (length chunk - budget) chunk).
  assert (Htail : slice_from chunk (Z.of_nat (length chunk) - oc) = tail).
  { rewrite slice_from_in by lia. unfold tail. f_equal. lia. }
  rewrite Htail, Qhalf_lt. unfold lastIndexOf.
  pose proof (last_occurrence_spec (str ". ") tail 0 ltac:(done)) as Hlast.
  destruct (last_occurrence (str ". ") tail 0) as [i|]; simpl.
  - destruct Hlast as (k & -> & Hk).
    destruct (Z.ltb_spec oc (2 * (0 + Z.of_nat k))) as [Hhalf | Hhalf].
    + split.
      * intros k' Hk' _. rewrite (last_occurrence_at_unique _ _ _ _ Hk' Hk).
        destruct Hk as [Hpre _].
        apply prefix_of_drop_length in Hpre as [Hlen | ?]; [|done].
        unfold tail in Hlen. rewrite length_drop in Hlen. simpl in Hlen.
        rewrite slice_from_in by lia. unfold tail. rewrite drop_drop.
        f_equal. lia.
      * intros Hall. specialize (Hall k Hk). lia.
    + split; [|done].
      intros k' Hk' Hk2. rewrite (last_occurrence_at_unique _ _ _ _ Hk' Hk) in Hk2. lia.
  - destruct (Z.ltb_spec oc (2 * -1)); [lia|].
    split; [|done]. intros k [Hk _]. by apply Hlast in Hk.
Qed.

(** C6 (amended). For a non-negative overlap budget, [getOverlapText]
    returns the whole chunk when the chunk has at most
    [overlapTokens * 4] characters; otherwise, with [tail] the trailing
    slice of that length: the suffix of [tail] that starts just after the
    last occurrence of ". " when that occurrence lies past the middle of
    [tail], and [tail] itself when there is no such occurrence. *)
Theorem getOverlapText_overlap_tail (chunk : jsstring) (overlapTokens : Z) :
  0 <= overlapTokens →
  overlap_tail_rule le chunk overlapTokens (getOverlapText chunk overlapTokens).
Proof. apply getOverlapText_rule. Qed.

Lemma getOverlapText_overlap_tail_witness :
  0 <= 2
  ∧ overlap_tail_rule le (str "abcdef. x") 2 (getOverlapText (str "abcdef. x") 2)
  ∧ getOverlapText (str "abcdef. x") 2 = str "x".
Proof.
  split; [lia|]. split; [apply (getOverlapText_overlap_tail (str "abcdef. x") 2); lia|].
  reflexivity.
Defined.

(** C6 as stated (the whole chunk only when the chunk is strictly shorter
    than the budget) fails on a chunk of exactly [overlapTokens * 4]
    characters that has ". " past its middle: the code returns the whole
    chunk, the statement asks for the text after ". ". *)
Lemma getOverlapText_shorter_than_fails :
  getOverlapText (str "abcde. x") 2 = str "abcde. x"
  ∧ ¬ overlap_tail_rule lt (str "abcde. x") 2 (getOverlapText (str "abcde. x") 2).
Proof.
  split; [reflexivity|].
  intros [_ H]. destruct (H ltac:(simpl; lia)) as [H1 _].
  pose proof (last_occurrence_spec (str ". ") (str "abcde. x") 0 ltac:(done)) as Hlast.
  vm_compute last_occurrence in Hlast. destruct Hlast as (k & Hk5 & Hk).
  assert (k = 5%nat) as -> by lia.
  specialize (H1 5%nat Hk ltac:(simpl; lia)). discriminate H1.
Qed.

(** ** The group builder *)

Section Groups.
Variable cfg : ChunkingConfig.
Variable chunks : list ContentChunk.
Hypothesis step_pos : 1 <= chunksPerGroup cfg.

Local Abbreviation N := (Z.of_nat (length chunks)).
Local Abbreviation cpg := (chunksPerGroup cfg).

(** [n] iterations empty the list from [i] on. *)
Lemma group_loop_steps (n fuel : nat) (i : Z) (acc : list ChunkGroup) :
  (n <= fuel)%nat →
  N <= i + Z.of_nat n * cpg →
  ((0 < n)%nat → i + (Z.of_nat n - 1) * cpg < N) →
  group_loop fuel cfg chunks i acc
  = Some (acc ++ ((λ k : nat, make_group cfg chunks (i + Z.of_nat k * cpg))
                    <$> seq 0 n)).
Proof.
  revert fuel i acc. induction n as [|n IH]; intros fuel i acc Hfuel Hend Hlast.
  - simpl. rewrite app_nil_r.
    destruct fuel; simpl; destruct (Z.ltb_spec i N); done || lia.
  - destruct fuel as [|fuel]; [lia|]. simpl group_loop.
    assert (i < N) by (specialize (Hlast ltac:(lia)); nia).
    destruct (Z.ltb_spec i N); [|lia].
    rewrite IH; [|lia|lia|intros; nia].
    rewrite <- app_assoc. do 2 f_equal. simpl. rewrite Z.add_0_r. f_equal.
    rewrite <- fmap_S_seq, <- list_fmap_compose.
    apply list_fmap_ext. intros _ k _. simpl. f_equal. lia.
Qed.

(** The number of window starts [0, cpg, 2 cpg, ...] below [N]. *)
Definition window_count : nat := Z.to_nat ((N + cpg - 1) / cpg).

Lemma window_count_spec :
  N <= Z.of_nat window_count * cpg
  ∧ ((0 < window_count)%nat → (Z.of_nat window_count - 1) * cpg < N).
Proof.
  unfold window_count.
  assert (0 <= N) by lia.
  assert (H1 := Z.div_mod (N + cpg - 1) cpg ltac:(lia)).
  assert (H2 := Z.mod_pos_bound (N + cpg - 1) cpg ltac:(lia)).
  assert (H3 : 0 <= (N + cpg - 1) / cpg) by (apply Z.div_pos; lia).
  rewrite Z2Nat.id by done.
  revert H1 H2 H3. generalize ((N + cpg - 1) / cpg) ((N + cpg - 1) `mod` cpg).
  intros q r H1 H2 H3. split; [lia | intros; lia].
Qed.

Lemma createChunkGroups_steps (fuel : nat) :
  (length chunks <= fuel)%nat →
  createChunkGroups fuel cfg chunks
  = Some ((λ k : nat, make_group cfg chunks (Z.of_nat k * cpg))
            <$> seq 0 window_count).
Proof.
  intros Hfuel. unfold createChunkGroups.
  destruct window_count_spec as [H1 H2].
  rewrite (group_loop_steps window_count); [done| |lia|intros; lia].
  assert (Z.of_nat window_count * cpg < N + cpg); [|nia].
  destruct (decide (0 < window_count)%nat) as [Hpos|]; [|nia].
  specialize (H2 Hpos). lia.
Qed.

Lemma window_count_le : (window_count <= length chunks)%nat.
Proof.
  destruct window_count_spec as [_ H2].
  destruct (decide (0 < window_count)%nat) as [Hpos|]; [|lia].
  specialize (H2 Hpos). nia.
Qed.
End Groups.

Lemma foldl_token_sum (l : list ContentChunk) (a : Z) :
  foldl (λ total chunk, total + token_count chunk) a l
  = a + foldr Z.add 0 (token_count <$> l).
Proof.
  revert a. induction l as [|c l IH]; intros a; simpl; [lia|].
  rewrite IH. by rewrite Z.add_assoc.
Qed.

(** C3. For a list of [N >= 1] chunks and [chunksPerGroup >= 1],
    [createChunkGroups] returns (given fuel for its at most [N]
    iterations) one group per window start [i = k * chunksPerGroup < N],
    [k = 0, 1, ...], in that order and no other.  The group of window
    start [i] is made from the members [chunks.slice(i, i + maxChunksPerGroup)],
    which for a non-negative width is the sub-list of [maxChunksPerGroup]
    chunks from offset [i]: its text is the members' texts joined by a
    blank line, its token count their sum, its index [k = floor(i /
    chunksPerGroup)], its ids the members' defined ids, its status
    pending. *)
Theorem createChunkGroups_windows (cfg : ChunkingConfig)
    (chunks : list ContentChunk) (fuel : nat) :
  (1 <= length chunks)%nat →
  1 <= chunksPerGroup cfg →
  (length chunks <= fuel)%nat →
  ∃ n : nat,
    Z.of_nat (length chunks) <= Z.of_nat n * chunksPerGroup cfg
    ∧ (Z.of_nat n - 1) * chunksPerGroup cfg < Z.of_nat (length chunks)
    ∧ ∃ groups,
        createChunkGroups fuel cfg chunks = Some groups
        ∧ length groups = n
        ∧ ∀ (k : nat) g, groups !! k = Some g →
            let i := Z.of_nat k * chunksPerGroup cfg in
            let members := slice chunks i (i + maxChunksPerGroup cfg) in
            i < Z.of_nat (length chunks)
            ∧ (0 <= maxChunksPerGroup cfg →
               members = take (Z.to_nat (maxChunksPerGroup cfg))
                              (drop (Z.to_nat i) chunks))
            ∧ combined_text g = join [NL; NL] (chunk_text <$> members)
            ∧ combined_tokens g = foldr Z.add 0 (token_count <$> members)
            ∧ group_index g = Z.of_nat k
            ∧ group_index g = i / chunksPerGroup cfg
            ∧ chunk_ids g = omap chunk_id members
            ∧ Some (group_content_id g) = chunk_content_id <$> head chunks
            ∧ status g = pending.
Proof.
  intros HN Hstep Hfuel.
  destruct (window_count_spec cfg chunks Hstep) as [H1 H2].
  exists (window_count cfg chunks). split; [done|].
  assert (Hpos : (0 < window_count cfg chunks)%nat).
  { destruct (window_count cfg chunks); [simpl in H1; lia | lia]. }
  split; [auto|].
  eexists. split; [by apply createChunkGroups_steps|].
  split; [by rewrite length_fmap, length_seq|].
  intros k g Hg. apply list_lookup_fmap_Some in Hg as (k' & -> & Hk').
  apply lookup_seq in Hk' as [-> Hk].
  unfold make_group;
    cbn [Nat.add combined_text combined_tokens group_index chunk_ids
         group_content_id status].
  assert (Hdiv : Z.of_nat k * chunksPerGroup cfg / chunksPerGroup cfg = Z.of_nat k)
    by (apply Z.div_mul; lia).
  split_and!; try done.
  - specialize (H2 Hpos). nia.
  - intros Hw. apply slice_window; [nia | done].
  - rewrite foldl_token_sum. lia.
  - by rewrite Qfloor_div, Hdiv by lia.
  - by rewrite Qfloor_div by lia.
  - destruct chunks; [simpl in HN; lia | done].
Qed.

Definition demo_chunk (i : nat) (t : string) : ContentChunk :=
  {| chunk_id := Some (Z.of_nat (10 + i)); chunk_content_id := 7;
     chunk_index := i; chunk_text := str t;
     token_count := estimateTokenCount (str t); chunk_type := article |}.

Definition demo_chunks : list ContentChunk :=
  [demo_chunk 0 "first chunk"; demo_chunk 1 "second"; demo_chunk 2 "third one";
   demo_chunk 3 "fourth"; demo_chunk 4 "fifth"].

Lemma createChunkGroups_windows_witness :
  ∃ n : nat,
    Z.of_nat 5 <= Z.of_nat n * 2 ∧ (Z.of_nat n - 1) * 2 < Z.of_nat 5
    ∧ ∃ groups,
        createChunkGroups 5 DEFAULT_CHUNKING_CONFIG demo_chunks = Some groups
        ∧ length groups = n
        ∧ ∀ (k : nat) g, groups !! k = Some g →
            let i := Z.of_nat k * 2 in
            let members := slice demo_chunks i (i + 3) in
            i < Z.of_nat 5
            ∧ (0 <= 3 → members = take (Z.to_nat 3) (drop (Z.to_nat i) demo_chunks))
            ∧ combined_text g = join [NL; NL] (chunk_text <$> members)
            ∧ combined_tokens g = foldr Z.add 0 (token_count <$> members)
            ∧ group_index g = Z.of_nat k
            ∧ group_index g = i / 2
            ∧ chunk_ids g = omap chunk_id members
            ∧ Some (group_content_id g) = chunk_content_id <$> head demo_chunks
            ∧ status g = pending.
Proof.
  apply (createChunkGroups_windows DEFAULT_CHUNKING_CONFIG demo_chunks 5);
    simpl; lia.
Defined.

Example createChunkGroups_demo :
  (λ g, (group_index g, chunk_ids g, combined_tokens g))
    <$> default [] (createChunkGroups 5 DEFAULT_CHUNKING_CONFIG demo_chunks)
  = [(0, [10; 11; 12], 8); (1, [12; 13; 14], 7); (2, [14], 2)].
Proof. reflexivity. Qed.

(** C10. With [1 <= chunksPerGroup <= maxChunksPerGroup], every chunk of
    the list is a member of one of the groups that [createChunkGroups]
    returns: the chunk at offset [j] lies in the window of group
    [k = j / chunksPerGroup], whose text and token count are built from
    that window and whose ids hold the chunk's id when it has one. *)
Theorem createChunkGroups_covers_every_chunk (cfg : ChunkingConfig)
    (chunks : list ContentChunk) (fuel : nat) (j : nat) (c : ContentChunk) :
  1 <= chunksPerGroup cfg →
  chunksPerGroup cfg <= maxChunksPerGroup cfg →
  (length chunks <= fuel)%nat →
  chunks !! j = Some c →
  ∃ groups (k : nat) g,
    createChunkGroups fuel cfg chunks = Some groups
    ∧ groups !! k = Some g
    ∧ g = make_group cfg chunks (Z.of_nat k * chunksPerGroup cfg)
    ∧ (let i := Z.of_nat k * chunksPerGroup cfg in
       let members := slice chunks i (i + maxChunksPerGroup cfg) in
       i <= Z.of_nat j < i + maxChunksPerGroup cfg
       ∧ members !! Z.to_nat (Z.of_nat j - i) = Some c)
    ∧ ∀ id, chunk_id c = Some id → id ∈ chunk_ids g.
Proof.
  intros Hstep Hmax Hfuel Hj.
  set (cpg := chunksPerGroup cfg) in *.
  set (k := Z.to_nat (Z.of_nat j / cpg)).
  assert (Hjlt := lookup_lt_Some _ _ _ Hj).
  assert (Hk0 : 0 <= Z.of_nat j / cpg) by (apply Z.div_pos; lia).
  assert (Hdm := Z.div_mod (Z.of_nat j) cpg ltac:(lia)).
  assert (Hmod := Z.mod_pos_bound (Z.of_nat j) cpg ltac:(lia)).
  assert (Hki : Z.of_nat k * cpg <= Z.of_nat j < Z.of_nat k * cpg + cpg)
    by (unfold k; rewrite Z2Nat.id by done; lia).
  destruct (window_count_spec cfg chunks Hstep) as [H1 H2]. fold cpg in H1, H2.
  assert (Hk : (k < window_count cfg chunks)%nat) by nia.
  assert (Hmem : slice chunks (Z.of_nat k * cpg) (Z.of_nat k * cpg + maxChunksPerGroup cfg)
                   !! Z.to_nat (Z.of_nat j - Z.of_nat k * cpg) = Some c).
  { rewrite slice_window by lia.
    rewrite lookup_take_lt by lia. rewrite lookup_drop.
    rewrite <- Hj. f_equal. lia. }
  eexists _, k, _. split; [by apply createChunkGroups_steps|].
  split.
  { rewrite list_lookup_fmap, lookup_seq_lt by done. reflexivity. }
  split; [done|]. split; [split; [lia | done]|].
  intros id Hid. simpl. apply list_elem_of_omap. exists c. split; [|done].
  by eapply list_elem_of_lookup_2.
Qed.

Lemma createChunkGroups_covers_every_chunk_witness :
  ∃ groups (k : nat) g,
    createChunkGroups 5 DEFAULT_CHUNKING_CONFIG demo_chunks = Some groups
    ∧ groups !! k = Some g
    ∧ g = make_group DEFAULT_CHUNKING_CONFIG demo_chunks (Z.of_nat k * 2)
    ∧ (let i := Z.of_nat k * 2 in
       let members := slice demo_chunks i (i + 3) in
       i <= Z.of_nat 3 < i + 3
       ∧ members !! Z.to_nat (Z.of_nat 3 - i) = Some (demo_chunk 3 "fourth"))
    ∧ ∀ id, chunk_id (demo_chunk 3 "fourth") = Some id → id ∈ chunk_ids g.
Proof.
  apply (createChunkGroups_covers_every_chunk DEFAULT_CHUNKING_CONFIG
           demo_chunks 5 3 (demo_chunk 3 "fourth")); simpl; (lia || reflexivity).
Defined.

(** ** The staging buffer *)

Module SummarizerFacts.
Import Summarizer.

Lemma queueKey_inj (a b : Z) : queueKey a = queueKey b → a = b.
Proof.
  unfold queueKey. intros H.
  apply (inj (String.app "partial_summaries:")) in H.
  by apply (inj pretty) in H.
Qed.

(** The list stored under a key. *)
Definition contents (db : gmap string (list jsstring)) (key : string)
    : list jsstring :=
  default [] (db !! key).

Lemma lRange_all (key : string) (db : gmap string (list jsstring)) :
  lRange key 0 (-1) db = contents db key.
Proof.
  unfold lRange, contents. simpl. rewrite drop_0.
  apply take_ge. lia.
Qed.

Lemma contents_lPush (key key' : string) (v : jsstring)
    (db : gmap string (list jsstring)) :
  contents (lPush key v db) key'
  = if decide (key = key') then v :: contents db key else contents db key'.
Proof.
  unfold contents, lPush. case_decide as Hk.
  - subst. by rewrite lookup_insert_eq.
  - by rewrite lookup_insert_ne.
Qed.

(** A run of [storePartialSummary] calls, each for its own document. *)
Definition store_all (JSON_stringify : SummarizedContent → jsstring)
    (stored : list (Z * SummarizedContent))
    (db : gmap string (list jsstring)) : gmap string (list jsstring) :=
  foldl (λ db op, storePartialSummary JSON_stringify op.1 op.2 db) db stored.

Lemma contents_store_all JSON_stringify stored db (cid : Z) :
  contents (store_all JSON_stringify stored db) (queueKey cid)
  = reverse (JSON_stringify <$> (snd <$> filter (λ op, op.1 = cid) stored))
      ++ contents db (queueKey cid).
Proof.
  revert db. induction stored as [|[c s] stored IH]; intros db; [done|].
  simpl. rewrite IH. unfold storePartialSummary. rewrite contents_lPush.
  rewrite filter_cons. cbn [fst snd]. case_decide as Hk; case_decide as Hc; try done.
  - rewrite !fmap_cons, reverse_cons, <- app_assoc. by subst.
  - by apply queueKey_inj in Hk.
  - by subst.
Qed.

(** C9. After any run of [storePartialSummary] calls (for this and for
    other documents) on a buffer that held nothing for the document,
    [getPartialSummaries] returns exactly the summaries stored for the
    document, in the order in which they were stored; each summary is
    taken to survive [JSON.stringify] followed by [JSON.parse] and the
    conversion of its dates. *)
Theorem partial_summaries_round_trip
    (JSON_stringify : SummarizedContent → jsstring)
    (JSON_parse : jsstring → option SummarizedContent)
    (stored : list (Z * SummarizedContent)) (crawledContentId : Z)
    (db : gmap string (list jsstring)) :
  Forall (λ op, JSON_parse (JSON_stringify op.2) = Some op.2) stored →
  db !! queueKey crawledContentId = None →
  getPartialSummaries JSON_parse crawledContentId
    (store_all JSON_stringify stored db)
  = Some (snd <$> filter (λ op, op.1 = crawledContentId) stored).
Proof.
  intros Hjson Hempty. unfold getPartialSummaries.
  rewrite lRange_all, contents_store_all.
  unfold contents at 1. rewrite Hempty. simpl.
  rewrite app_nil_r, reverse_involutive.
  apply mapM_fmap_Forall_Some.
  apply Forall_forall. intros s Hs.
  apply list_elem_of_fmap in Hs as ([c s'] & -> & Hin).
  apply list_elem_of_filter in Hin as [_ Hin].
  rewrite Forall_forall in Hjson. apply (Hjson _ Hin).
Qed.

Definition demo_summary (text : string) (partial : bool) : SummarizedContent :=
  {| id := None; url := str "https://example.org/post"; title := str "Post";
     original_text := str "text"; summary := str text;
     key_points := [str "point"]; code_snippets := [];
     content_type := str "article"; sentiment := str "neutral";
     category := str "General"; crawled_at := 1700000000000;
     summarized_at := 1700000001000; crawled_content_id := Some 1;
     chunk_group_id := Some 4; is_partial_summary := partial |}.

(** A serialization that is enough for the demonstration: the summary
    text is the wire form. *)
Definition demo_stringify (s : SummarizedContent) : jsstring := summary s.

Definition demo_parse (w : jsstring) : option SummarizedContent :=
  Some {| id := None; url := str "https://example.org/post"; title := str "Post";
          original_text := str "text"; summary := w;
          key_points := [str "point"]; code_snippets := [];
          content_type := str "article"; sentiment := str "neutral";
          category := str "General"; crawled_at := 1700000000000;
          summarized_at := 1700000001000; crawled_content_id := Some 1;
          chunk_group_id := Some 4; is_partial_summary := true |}.

Definition demo_stored : list (Z * SummarizedContent) :=
  [(1, demo_summary "part one" true); (2, demo_summary "other" true);
   (1, demo_summary "part two" true); (1, demo_summary "part three" true)].

Lemma partial_summaries_round_trip_witness :
  getPartialSummaries demo_parse 1 (store_all demo_stringify demo_stored ∅)
  = Some [demo_summary "part one" true; demo_summary "part two" true;
          demo_summary "part three" true].
Proof.
  apply (partial_summaries_round_trip demo_stringify demo_parse demo_stored 1 ∅).
  - repeat constructor.
  - apply lookup_empty.
Defined.

(** The loop of [processArticle] stages the summaries of the groups that
    succeed, in the order of the groups. *)
Lemma summarize_groups_buffer JSON_stringify summarizeChunkGroup
    contentData groups db :
  let successes :=
    omap (λ group,
            fill_in (cd_url contentData) (cd_id contentData)
                    (cd_crawled_at contentData)
              <$> summarizeChunkGroup group (cd_title contentData)
                    (cd_content_type contentData) (group_index group)
                    (length (cd_groups contentData))) groups in
  (summarize_groups JSON_stringify summarizeChunkGroup contentData groups db).1
  = store_all JSON_stringify ((λ s, (cd_id contentData, s)) <$> successes) db.
Proof.
  simpl. revert db. induction groups as [|g groups IH]; intros db; [done|].
  simpl. destruct (summarizeChunkGroup _ _ _ _ _); simpl; by rewrite IH.
Qed.

(** ** The final summary *)

(** C8. On a staging buffer of exactly one partial summary,
    [createFinalSummary] sends no request to the summarizer and returns
    that summary with its partial flag cleared and every other field
    unchanged.  (On any other buffer it sends one merge request.) *)
Theorem createFinalSummary_single
    (chat_completion : completion_request → option jsstring)
    (parse_response : jsstring → option AiResponse) (now : Z)
    (partial : SummarizedContent) (contentData : ContentWithGroups) :
  let result :=
    createFinalSummary chat_completion parse_response now [partial] contentData in
  result.2 = []
  ∧ (∃ final, result.1 = Some final
       ∧ is_partial_summary final = false
       ∧ set_is_partial (is_partial_summary partial) final = partial
       ∧ (is_partial_summary partial = false → final = partial))
  ∧ ∀ partialSummaries, length partialSummaries ≠ 1%nat →
      length (createFinalSummary chat_completion parse_response now
                partialSummaries contentData).2 = 1%nat.
Proof.
  simpl. split; [done|]. split.
  - eexists. split; [done|]. split; [done|].
    destruct partial; simpl. split; [done | by intros ->].
  - intros [|s [|s' l]] Hlen; try done;
      cbv zeta beta iota delta [createFinalSummary];
      by destruct (chat_completion _).
Qed.
End SummarizerFacts.

(** ** Regular expression matches lie inside the text *)

Lemma greedy_le (p : char → bool) (k : jsstring → option nat) (s : jsstring) (n : nat) :
  (∀ s' m, k s' = Some m → (m <= length s')%nat) →
  greedy p k s = Some n → (n <= length s)%nat.
Proof.
  intros Hk. revert n. induction s as [|c s IH]; simpl; intros n H.
  - by apply Hk in H.
  - destruct (p c); [|by apply Hk in H].
    destruct (greedy p k s) as [m|]; [|by apply Hk in H].
    injection H as <-. specialize (IH m eq_refl). lia.
Qed.

Lemma lazy_rep_le (p : char → bool) (k : jsstring → option nat) (s : jsstring) (n : nat) :
  (∀ s' m, k s' = Some m → (m <= length s')%nat) →
  lazy_rep p k s = Some n → (n <= length s)%nat.
Proof.
  intros Hk. revert n. induction s as [|c s IH]; simpl; intros n H.
  - destruct (k []) eqn:Hk0; [|done]. injection H as <-. by apply Hk in Hk0.
  - destruct (k (c :: s)) eqn:Hk0.
    + injection H as <-. by apply Hk in Hk0.
    + destruct (p c); [|done].
      destruct (lazy_rep p k s) as [m|]; [|done].
      injection H as <-. specialize (IH m eq_refl). lia.
Qed.

Lemma match_seq_le (r : list atom) (s : jsstring) (n : nat) :
  match_seq r s = Some n → (n <= length s)%nat.
Proof.
  revert s n. induction r as [|a r IH]; simpl; intros s n H.
  - injection H as <-. lia.
  - destruct a.
    + destruct s as [|x s]; [done|]. destruct (x =? c)%N; [|done].
      destruct (match_seq r s) as [m|] eqn:Hm; [|done].
      injection H as <-. apply IH in Hm. simpl. lia.
    + destruct s as [|x s]; [done|]. destruct (p x); [|done].
      destruct (match_seq r s) as [m|] eqn:Hm; [|done].
      injection H as <-. apply IH in Hm. simpl. lia.
    + by apply greedy_le in H.
    + destruct s as [|x s]; [done|]. destruct (p x); [|done].
      destruct (greedy p (match_seq r) s) as [m|] eqn:Hm; [|done].
      injection H as <-. apply greedy_le in Hm; [simpl; lia | done].
    + by apply lazy_rep_le in H.
    + destruct s as [|x s]; [done|]. destruct (p x); [|done]. by apply IH.
Qed.

Lemma regex_match_le (r : regex) (s : jsstring) (n : nat) :
  regex_match r s = Some n → (n <= length s)%nat.
Proof.
  induction r as [|alt r IH]; simpl; [done|].
  destruct (match_seq alt s) eqn:Hm; [|done].
  intros [= <-]. by apply match_seq_le in Hm.
Qed.

(** Every match reported by the scan is a match of the pattern at its
    offset, at or after the offset where the scan resumed. *)
Lemma exec_from_in (r : regex) (s : jsstring) (pos skip p n : nat) :
  (p, n) ∈ exec_from r s pos skip →
  ∃ k, p = (pos + k)%nat ∧ (skip <= k < length s)%nat
       ∧ regex_match r (drop k s) = Some n.
Proof.
  revert pos skip. induction s as [|c s IH]; intros pos skip H; simpl in H.
  - by apply elem_of_nil in H.
  - destruct skip as [|skip].
    + destruct (regex_match r (c :: s)) as [m|] eqn:Hm.
      * apply elem_of_cons in H as [[= -> ->] | H].
        -- exists 0%nat. simpl. split; [lia|]. split; [lia | done].
        -- apply IH in H as (k & -> & Hk & Hmatch).
           exists (S k). simpl. split; [lia|]. split; [lia | done].
      * apply IH in H as (k & -> & Hk & Hmatch).
        exists (S k). simpl. split; [lia|]. split; [lia | done].
    + apply IH in H as (k & -> & Hk & Hmatch).
      exists (S k). simpl. split; [lia|]. split; [lia | done].
Qed.

Lemma exec_all_in (r : regex) (text : jsstring) (p n : nat) :
  (p, n) ∈ exec_all r text →
  (p + n <= length text)%nat ∧ regex_match r (drop p text) = Some n.
Proof.
  intros H. apply exec_from_in in H as (k & -> & Hk & Hm). simpl.
  split; [|done]. apply regex_match_le in Hm. rewrite length_drop in Hm. lia.
Qed.

(** A sequence that starts with a literal, a class or a [+] repetition
    consumes at least one character. *)
Definition consuming (alt : list atom) : bool :=
  match alt with
  | (Lit _ | Class _ | Plus _) :: _ => true
  | _ => false
  end.

Lemma match_seq_consuming (alt : list atom) (s : jsstring) (n : nat) :
  consuming alt = true → match_seq alt s = Some n → (0 < n)%nat.
Proof.
  destruct alt as [|[c|p|p|p|p|p] alt]; try done; intros _; simpl;
    (destruct s as [|x s]; [done|]);
    [destruct (x =? c)%N | destruct (p x) | destruct (p x)]; try done;
    intros H; apply fmap_Some in H as (m & _ & ->); lia.
Qed.

Lemma regex_match_consuming (r : regex) (s : jsstring) (n : nat) :
  forallb consuming r = true → regex_match r s = Some n → (0 < n)%nat.
Proof.
  induction r as [|alt r IH]; simpl; [done|].
  rewrite andb_true_iff. intros [Halt Hr].
  destruct (match_seq alt s) as [m|] eqn:Hm; [|by apply IH].
  intros [= <-]. by eapply match_seq_consuming.
Qed.

(** None of the four patterns matches the empty string. *)
Lemma regex_match_nonempty (r : regex) (s : jsstring) (n : nat) :
  r ∈ [paragraphRegex; sectionRegex; codeBlockRegex; sentenceRegex] →
  regex_match r s = Some n → (0 < n)%nat.
Proof.
  intros Hr. apply regex_match_consuming.
  repeat (apply elem_of_cons in Hr as [-> | Hr]); try done.
  by apply elem_of_nil in Hr.
Qed.

(** ** The sort of the candidates *)

Definition index_le (a b : TextBoundary) : Prop := (index a <= index b)%nat.

Lemma insert_by_index_perm (b : TextBoundary) (l : list TextBoundary) :
  insert_by_index b l ≡ₚ b :: l.
Proof.
  induction l as [|x l IH]; simpl; [done|].
  destruct (index b <=? index x)%nat; [done|].
  rewrite IH. apply Permutation_swap.
Qed.

Lemma sort_by_index_perm (l : list TextBoundary) : sort_by_index l ≡ₚ l.
Proof.
  induction l as [|x l IH]; simpl; [done|].
  by rewrite insert_by_index_perm, IH.
Qed.

Lemma insert_by_index_sorted (b : TextBoundary) (l : list TextBoundary) :
  StronglySorted index_le l → StronglySorted index_le (insert_by_index b l).
Proof.
  induction 1 as [|x l Hl IH Hx]; simpl.
  - repeat constructor.
  - destruct (Nat.leb_spec (index b) (index x)) as [Hle | Hgt].
    + constructor; [by constructor|].
      constructor; [done|].
      eapply Forall_impl; [exact Hx|]. unfold index_le. intros; lia.
    + constructor; [done|].
      rewrite insert_by_index_perm. constructor; [unfold index_le; lia | done].
Qed.

Lemma sort_by_index_sorted (l : list TextBoundary) :
  StronglySorted index_le (sort_by_index l).
Proof.
  induction l as [|x l IH]; simpl; [constructor | by apply insert_by_index_sorted].
Qed.

(** The candidates of each kind, in the order the four loops push them. *)
Definition candidates (text : jsstring) : list TextBoundary :=
  ((λ m, {| index := m.1 + m.2; type := paragraph; priority := 100 |})
     <$> exec_all paragraphRegex text)
  ++ ((λ m, {| index := m.1 + m.2; type := section; priority := 90 |})
        <$> exec_all sectionRegex text)
  ++ (exec_all codeBlockRegex text ≫=
        (λ m, [ {| index := m.1; type := code_block; priority := 85 |};
                {| index := m.1 + m.2; type := code_block; priority := 85 |} ]))
  ++ ((λ m, {| index := m.1 + 1; type := sentence; priority := 50 |})
        <$> exec_all sentenceRegex text).

Lemma findTextBoundaries_candidates (text : jsstring) :
  findTextBoundaries text = sort_by_index (candidates text).
Proof. reflexivity. Qed.

Lemma candidates_in_text (text : jsstring) (b : TextBoundary) :
  b ∈ candidates text → (index b <= length text)%nat.
Proof.
  unfold candidates. rewrite !elem_of_app.
  intros [H | [H | [H | H]]].
  - apply list_elem_of_fmap in H as ([p n] & -> & H).
    apply exec_all_in in H as [H _]. simpl. lia.
  - apply list_elem_of_fmap in H as ([p n] & -> & H).
    apply exec_all_in in H as [H _]. simpl. lia.
  - apply list_elem_of_bind in H as ([p n] & Hb & H).
    apply exec_all_in in H as [H _].
    repeat (apply elem_of_cons in Hb as [-> | Hb]); simpl; try lia.
    by apply elem_of_nil in Hb.
  - apply list_elem_of_fmap in H as ([p n] & -> & H).
    apply exec_all_in in H as [H Hm].
    apply regex_match_nonempty in Hm; [simpl; lia|].
    do 3 right. left.
Qed.

Lemma findTextBoundaries_in_text (text : jsstring) (b : TextBoundary) :
  b ∈ findTextBoundaries text → (index b <= length text)%nat.
Proof.
  rewrite findTextBoundaries_candidates, sort_by_index_perm.
  apply candidates_in_text.
Qed.

(** ** Paragraph boundaries *)

(** Every character of [s] at the offsets [a .. b) is whitespace. *)
Definition ws_between (s : jsstring) (a b : nat) : Prop :=
  ∀ j, (a <= j < b)%nat → ∃ c, s !! j = Some c ∧ is_ws c = true.

(** The whitespace that follows offset [e] holds no newline. *)
Definition no_newline_ahead (s : jsstring) (e : nat) : Prop :=
  ∀ j, (e <= j)%nat → ws_between s e (S j) → s !! j ≠ Some NL.

(** The offsets [p .. e) of [s] hold two or more newlines with nothing
    but whitespace between them (one or more blank lines): a newline at
    [p], a newline at [e - 1], the last one of its stretch of
    whitespace. *)
Definition blank_stretch (s : jsstring) (p e : nat) : Prop :=
  (p + 2 <= e)%nat ∧ s !! p = Some NL ∧ s !! (e - 1)%nat = Some NL
  ∧ ws_between s p e ∧ no_newline_ahead s e.

(** [e] is the offset just after a stretch of blank lines. *)
Definition paragraph_break (text : jsstring) (e : nat) : Prop :=
  ∃ p, blank_stretch text p e.

Lemma ws_between_cons (c : char) (s : jsstring) (a b : nat) :
  ws_between (c :: s) (S a) (S b) ↔ ws_between s a b.
Proof.
  unfold ws_between. split; intros H j Hj.
  - apply (H (S j)). lia.
  - destruct j as [|j]; [lia|]. apply H. lia.
Qed.

Lemma ws_between_0 (c : char) (s : jsstring) (b : nat) :
  ws_between (c :: s) 0 (S b) ↔ is_ws c = true ∧ ws_between s 0 b.
Proof.
  unfold ws_between. split.
  - intros H. split.
    + destruct (H 0%nat ltac:(lia)) as (x & [= <-] & Hx). done.
    + intros j Hj. apply (H (S j)). lia.
  - intros [Hc H] [|j] Hj; [by exists c|]. apply H. lia.
Qed.

Lemma ws_between_weaken (s : jsstring) (a b a' b' : nat) :
  (a <= a')%nat → (b' <= b)%nat → ws_between s a b → ws_between s a' b'.
Proof. intros ?? H j Hj. apply H. lia. Qed.

Lemma no_newline_ahead_cons (c : char) (s : jsstring) (e : nat) :
  no_newline_ahead (c :: s) (S e) ↔ no_newline_ahead s e.
Proof.
  unfold no_newline_ahead. split; intros H j Hj Hws.
  - apply (H (S j)); [lia|]. by apply ws_between_cons.
  - destruct j as [|j]; [lia|]. apply H; [lia|]. by apply ws_between_cons in Hws.
Qed.

Lemma blank_stretch_cons (c : char) (s : jsstring) (p e : nat) :
  blank_stretch (c :: s) (S p) (S e) ↔ blank_stretch s p e.
Proof.
  unfold blank_stretch.
  rewrite ws_between_cons, no_newline_ahead_cons.
  destruct e as [|e]; [split; intros []; lia|].
  simpl. rewrite Nat.sub_0_r.
  split; intros (? & ? & ? & ? & ?); split_and!; try done; lia.
Qed.

Lemma is_ws_NL : is_ws NL = true.
Proof. reflexivity. Qed.

(** What [\s*\n] matches, greedily: whitespace up to and including the
    last newline of the stretch of whitespace at the head of [s]. *)
Definition newline_run (s : jsstring) (m : nat) : Prop :=
  (1 <= m)%nat ∧ s !! (m - 1)%nat = Some NL ∧ ws_between s 0 m
  ∧ no_newline_ahead s m.

Lemma match_newline (s : jsstring) :
  match_seq [Lit NL] s
  = match s with
    | x :: _ => if (x =? NL)%N then Some 1%nat else None
    | [] => None
    end.
Proof. destruct s as [|x s]; [done|]. simpl. by destruct (x =? NL)%N. Qed.

Lemma greedy_newline_None (s : jsstring) :
  greedy is_ws (match_seq [Lit NL]) s = None → no_newline_ahead s 0.
Proof.
  induction s as [|c s IH]; intros H j _ Hws.
  - done.
  - cbn [greedy] in H. rewrite match_newline in H. destruct (is_ws c) eqn:Hc.
    + destruct (greedy is_ws (match_seq [Lit NL]) s) eqn:Hg; [done|].
      destruct (c =? NL)%N eqn:Hnl; [done|].
      destruct j as [|j]; simpl.
      * intros [= ->]. by rewrite N.eqb_refl in Hnl.
      * apply (IH eq_refl j); [lia|].
        apply ws_between_0 in Hws as [_ Hws]. done.
    + destruct (Hws 0%nat ltac:(lia)) as (x & [= <-] & Hx). congruence.
Qed.

Lemma greedy_newline_Some (s : jsstring) (m : nat) :
  greedy is_ws (match_seq [Lit NL]) s = Some m ↔ newline_run s m.
Proof.
  revert m. induction s as [|c s IH]; intros m.
  - simpl. split; [done|]. by intros (_ & H & _).
  - cbn [greedy]. rewrite match_newline.
    destruct (is_ws c) eqn:Hc.
    + destruct (greedy is_ws (match_seq [Lit NL]) s) as [n|] eqn:Hg.
      * pose proof (proj1 (IH n) eq_refl) as (Hn1 & Hn2 & Hn3 & Hn4).
        split.
        -- intros [= <-]. split; [lia|]. split.
           { simpl. rewrite Nat.sub_0_r. destruct n; [lia|]. simpl in *.
             by rewrite Nat.sub_0_r in Hn2. }
           split; [by apply ws_between_0 | by apply no_newline_ahead_cons].
        -- intros (Hm1 & Hm2 & Hm3 & Hm4).
           destruct m as [|[|m]]; [lia| |].
           ++ exfalso. apply (Hm4 n); [lia| |].
              ** intros j Hj. destruct j as [|j]; [lia|]. simpl.
                 apply Hn3. lia.
              ** destruct n; [lia|]. simpl in *. by rewrite Nat.sub_0_r in Hn2.
           ++ assert (Some n = Some (S m)) as [= ->]; [|done]. apply IH.
              split; [lia|]. split; [simpl in *; by rewrite Nat.sub_0_r|].
              apply ws_between_0 in Hm3 as [_ Hm3].
              split; [done | by apply no_newline_ahead_cons in Hm4].
      * pose proof (greedy_newline_None s Hg) as Hnone.
        split.
        -- destruct (c =? NL)%N eqn:Hnl; [|done]. intros [= <-].
           apply N.eqb_eq in Hnl as ->.
           split; [lia|]. split; [done|].
           split; [|by apply no_newline_ahead_cons].
           apply ws_between_0. split; [done | intros j Hj; lia].
        -- intros (Hm1 & Hm2 & Hm3 & Hm4).
           destruct m as [|[|m]]; [lia| |].
           ++ simpl in Hm2. injection Hm2 as ->. done.
           ++ exfalso. assert (newline_run s (S m)) as Hrun.
              { split; [lia|]. split; [simpl in *; by rewrite Nat.sub_0_r|].
                apply ws_between_0 in Hm3 as [_ Hm3].
                split; [done | by apply no_newline_ahead_cons in Hm4]. }
              apply IH in Hrun. done.
    + destruct (c =? NL)%N eqn:Hnl.
      { apply N.eqb_eq in Hnl as ->. by rewrite is_ws_NL in Hc. }
      split; [done|]. intros (Hm1 & _ & Hm3 & _).
      destruct (Hm3 0%nat ltac:(lia)) as (x & [= <-] & Hx).
      congruence.
Qed.

(** A match of the paragraph pattern at the head of [s]. *)
Lemma paragraph_match_cons (s : jsstring) (m : nat) :
  blank_stretch (NL :: s) 0 (S m) ↔ newline_run s m.
Proof.
  unfold blank_stretch, newline_run.
  rewrite ws_between_0, no_newline_ahead_cons. simpl. rewrite Nat.sub_0_r.
  split.
  - intros (H1 & _ & H2 & [_ H3] & H4). destruct m as [|m]; [lia|].
    simpl in *. rewrite Nat.sub_0_r. split_and!; try done. lia.
  - intros (H1 & H2 & H3 & H4). destruct m as [|m]; [lia|].
    simpl in *. rewrite Nat.sub_0_r in H2. split_and!; try done. lia.
Qed.

Lemma paragraph_match_unfold (s : jsstring) :
  regex_match paragraphRegex s
  = match s with
    | c :: s' =>
        if (c =? NL)%N then S <$> greedy is_ws (match_seq [Lit NL]) s' else None
    | [] => None
    end.
Proof.
  destruct s as [|c s]; [done|].
  unfold paragraphRegex. cbn [regex_match].
  change (match_seq [Lit NL; Star is_ws; Lit NL] (c :: s))
    with (if (c =? NL)%N
          then S <$> greedy is_ws (match_seq [Lit NL]) s else None).
  destruct (c =? NL)%N; [|done].
  by destruct (greedy is_ws (match_seq [Lit NL]) s).
Qed.

Lemma paragraph_match (s : jsstring) (n : nat) :
  regex_match paragraphRegex s = Some n ↔ blank_stretch s 0 n.
Proof.
  rewrite paragraph_match_unfold.
  destruct s as [|c s].
  { split; [done|]. by intros (_ & H & _). }
  destruct (c =? NL)%N eqn:Hnl.
  - apply N.eqb_eq in Hnl as ->.
    destruct n as [|n].
    { split; [|intros []; lia].
      by destruct (greedy is_ws (match_seq [Lit NL]) s). }
    rewrite paragraph_match_cons, <- greedy_newline_Some.
    destruct (greedy is_ws (match_seq [Lit NL]) s) as [m|]; simpl.
    + split; intros [= ->]; done.
    + done.
  - split; [done|]. intros (_ & [= ->] & _). by rewrite N.eqb_refl in Hnl.
Qed.

(** Two stretches of blank lines that overlap end at the same offset. *)
Lemma blank_stretch_same_end (s : jsstring) (p e p' e' : nat) :
  blank_stretch s p e → blank_stretch s p' e' →
  (p' < e)%nat → (p < e')%nat → e = e'.
Proof.
  intros (H1 & H2 & H3 & H4 & H5) (H1' & H2' & H3' & H4' & H5') Hpe Hpe'.
  destruct (Nat.lt_total e e') as [Hlt | [Heq | Hgt]]; [|done|]; exfalso.
  - apply (H5 (e' - 1)%nat); [lia| |done].
    eapply ws_between_weaken; [| |exact H4']; lia.
  - apply (H5' (e - 1)%nat); [lia| |done].
    eapply ws_between_weaken; [| |exact H4]; lia.
Qed.

(** The ends of the stretches of blank lines of [s] that start at or
    after [skip], as offsets of a text in which [s] starts at [pos]. *)
Definition break_from (s : jsstring) (pos skip e : nat) : Prop :=
  ∃ e' p, e = (pos + e')%nat ∧ (skip <= p)%nat ∧ blank_stretch s p e'.

Lemma break_from_cons (c : char) (s : jsstring) (pos skip e : nat) :
  break_from (c :: s) pos (S skip) e ↔ break_from s (S pos) skip e.
Proof.
  unfold break_from. split.
  - intros (e' & p & -> & Hp & Hb).
    destruct p as [|p]; [lia|]. destruct e' as [|e']; [destruct Hb; lia|].
    rewrite blank_stretch_cons in Hb. exists e', p. split; [lia|]. split; [lia | done].
  - intros (e' & p & -> & Hp & Hb).
    exists (S e'), (S p). split; [lia|]. split; [lia|].
    by rewrite blank_stretch_cons.
Qed.

Lemma exec_paragraph_ends (s : jsstring) (pos skip e : nat) :
  (∃ p n, (p, n) ∈ exec_from paragraphRegex s pos skip ∧ e = (p + n)%nat)
  ↔ break_from s pos skip e.
Proof.
  revert pos skip. induction s as [|c s IH]; intros pos skip.
  - simpl. split.
    + intros (p & n & H & _). by apply elem_of_nil in H.
    + intros (e' & p & _ & _ & _ & H & _). done.
  - cbn [exec_from]. destruct skip as [|skip].
    + destruct (regex_match paragraphRegex (c :: s)) as [n|] eqn:Hm.
      * pose proof (proj1 (paragraph_match _ _) Hm) as Hn.
        assert (2 <= n)%nat by (destruct Hn; lia).
        split.
        -- intros (p & m & Hin & ->).
           apply elem_of_cons in Hin as [[= -> ->] | Hin].
           ++ exists n, 0%nat. split; [done|]. split; [lia | done].
           ++ assert (break_from s (S pos) (pred n) (p + m)) as Hb
                by (apply IH; eauto).
              apply (proj2 (break_from_cons c _ _ _ _)) in Hb.
              destruct Hb as (e' & q & He & Hq & Hb).
              exists e', q. split; [done|]. split; [lia | done].
        -- intros (e' & p & -> & _ & Hb).
           destruct (decide (p < n)%nat) as [Hlt | Hge].
           ++ assert (n = e') as <-.
              { eapply blank_stretch_same_end; [exact Hn | exact Hb | done |].
                destruct Hb; lia. }
              exists pos, n. split; [left | done].
           ++ assert (break_from s (S pos) (pred n) (pos + e')) as Hb'.
              { apply (proj1 (break_from_cons c _ _ _ _)). exists e', p.
                split; [done|]. split; [lia | done]. }
              apply IH in Hb' as (q & m & Hin & Hqm).
              exists q, m. split; [by right | done].
      * rewrite IH. split.
        -- intros Hb. assert (break_from (c :: s) pos 1 e) as (e' & p & H1 & H2 & H3)
             by (by apply (proj2 (break_from_cons c _ _ _ _))).
           exists e', p. split; [done|]. split; [lia | done].
        -- intros (e' & p & -> & _ & Hb).
           destruct p as [|p].
           { apply paragraph_match in Hb. congruence. }
           apply (proj1 (break_from_cons c _ _ _ _)). exists e', (S p).
           split; [done|]. split; [lia | done].
    + rewrite IH. symmetry. apply break_from_cons.
Qed.

Lemma exec_all_paragraph (text : jsstring) (e : nat) :
  (∃ p n, (p, n) ∈ exec_all paragraphRegex text ∧ e = (p + n)%nat)
  ↔ paragraph_break text e.
Proof.
  unfold exec_all. rewrite exec_paragraph_ends. unfold break_from, paragraph_break.
  split.
  - intros (e' & p & -> & _ & Hb). by exists p.
  - intros (p & Hb). exists e, p. split; [done|]. split; [lia | done].
Qed.

(** The matches of a scan come in increasing order and do not overlap. *)
Lemma exec_from_increasing (r : regex) (s : jsstring) (pos skip : nat) :
  forallb consuming r = true →
  StronglySorted (λ a b : nat * nat, (a.1 + a.2 <= b.1)%nat)
    (exec_from r s pos skip).
Proof.
  intros Hr. revert pos skip. induction s as [|c s IH]; intros pos skip; simpl.
  - constructor.
  - destruct skip as [|skip]; [|apply IH].
    destruct (regex_match r (c :: s)) as [n|] eqn:Hm; [|apply IH].
    constructor; [apply IH|].
    apply Forall_forall. intros [p m] Hin.
    apply exec_from_in in Hin as (k & -> & Hk & _).
    apply (regex_match_consuming _ _ _ Hr) in Hm. simpl. lia.
Qed.

Global Instance boundary_type_eq_dec : EqDecision boundary_type.
Proof. solve_decision. Defined.

Lemma filter_keeps_all {A} (P : A → Prop) `{∀ x, Decision (P x)} (l : list A) :
  Forall P l → filter P l = l.
Proof.
  induction 1 as [|x l Hx _ IH]; [done|].
  rewrite filter_cons. case_decide; [by rewrite IH | done].
Qed.

Lemma filter_keeps_none {A} (P : A → Prop) `{∀ x, Decision (P x)} (l : list A) :
  Forall (λ x, ¬ P x) l → filter P l = [].
Proof.
  induction 1 as [|x l Hx _ IH]; [done|].
  rewrite filter_cons. case_decide; [done | by rewrite IH].
Qed.

Lemma paragraph_candidates (text : jsstring) :
  filter (λ b, type b = paragraph) (candidates text)
  = (λ m, {| index := m.1 + m.2; type := paragraph; priority := 100 |})
      <$> exec_all paragraphRegex text.
Proof.
  unfold candidates. rewrite !filter_app.
  rewrite (filter_keeps_all _ (_ <$> exec_all paragraphRegex text)).
  2:{ apply Forall_fmap, Forall_forall. by intros. }
  rewrite (filter_keeps_none _ (_ <$> exec_all sectionRegex text)).
  2:{ apply Forall_fmap, Forall_forall. by intros. }
  rewrite (filter_keeps_none _ (_ ≫= _)).
  2:{ apply Forall_forall. intros b Hb.
      apply list_elem_of_bind in Hb as (m & Hb & _).
      repeat (apply elem_of_cons in Hb as [-> | Hb]); try done.
      by apply elem_of_nil in Hb. }
  rewrite (filter_keeps_none _ (_ <$> exec_all sentenceRegex text)).
  2:{ apply Forall_fmap, Forall_forall. by intros. }
  by rewrite !app_nil_r.
Qed.

Lemma match_ends_NoDup (l : list (nat * nat)) :
  StronglySorted (λ a b : nat * nat, (a.1 + a.2 <= b.1)%nat) l →
  Forall (λ m, (0 < m.2)%nat) l →
  NoDup ((λ m, (m.1 + m.2)%nat) <$> l).
Proof.
  induction 1 as [|a l Hl IH Ha]; intros Hpos; [constructor|].
  apply Forall_cons in Hpos as [Ha0 Hpos].
  rewrite fmap_cons. constructor; [|by apply IH].
  intros Hin. apply list_elem_of_fmap in Hin as (b & Heq & Hb).
  rewrite Forall_forall in Ha, Hpos.
  specialize (Ha b Hb). specialize (Hpos b Hb). simpl in *. lia.
Qed.

(** C7, X1. [findTextBoundaries] reports a boundary of kind paragraph exactly
    at the offsets just after a stretch of blank lines (two or more
    newlines with nothing but whitespace between them, taken up to the
    last newline of the whitespace), always with priority 100 and once
    per offset; and the candidates of all four kinds come back sorted by
    ascending offset, none dropped: the result is a permutation of the
    candidates pushed, so equal offsets are all kept. *)
Theorem findTextBoundaries_paragraphs_and_order (text : jsstring) :
  (∀ b, b ∈ findTextBoundaries text ∧ type b = paragraph
        ↔ type b = paragraph ∧ priority b = 100
          ∧ paragraph_break text (index b))
  ∧ NoDup (index <$> filter (λ b, type b = paragraph) (findTextBoundaries text))
  ∧ StronglySorted index_le (findTextBoundaries text)
  ∧ findTextBoundaries text ≡ₚ candidates text.
Proof.
  assert (Hperm : findTextBoundaries text ≡ₚ candidates text)
    by (rewrite findTextBoundaries_candidates; apply sort_by_index_perm).
  split_and!; [| | apply sort_by_index_sorted | done].
  - intros b. split.
    + intros [Hin Hty].
      assert (b ∈ filter (λ b, type b = paragraph) (findTextBoundaries text))
        as Hb by (by apply list_elem_of_filter).
      rewrite Hperm, paragraph_candidates in Hb.
      apply list_elem_of_fmap in Hb as ([p n] & -> & Hb). simpl.
      split; [done|]. split; [done|]. apply exec_all_paragraph. eauto.
    + intros (Hty & Hpr & Hbreak). split; [|done].
      apply exec_all_paragraph in Hbreak as (p & n & Hin & He).
      assert (b ∈ filter (λ b, type b = paragraph) (findTextBoundaries text))
        as Hb; [|by apply list_elem_of_filter in Hb as [_ ?]].
      rewrite Hperm, paragraph_candidates.
      apply list_elem_of_fmap. exists (p, n). split; [|done].
      destruct b; simpl in *. by subst.
  - rewrite Hperm, paragraph_candidates, <- list_fmap_compose.
    apply match_ends_NoDup; [by apply exec_from_increasing|].
    apply Forall_forall. intros [p n] Hin. apply exec_all_in in Hin as [_ Hm].
    apply regex_match_nonempty in Hm; [done | left].
Qed.

Example findTextBoundaries_demo :
  findTextBoundaries
    (str "Intro." ++ [NL; SP; NL] ++ str "# T x" ++ [NL] ++ str "A. B ```c``` d"
       ++ [NL; NL; NL] ++ str "e")
  = [ {| index := 9; type := paragraph; priority := 100 |};
      {| index := 15; type := section; priority := 90 |};
      {| index := 17; type := sentence; priority := 50 |};
      {| index := 20; type := code_block; priority := 85 |};
      {| index := 27; type := code_block; priority := 85 |};
      {| index := 32; type := paragraph; priority := 100 |} ].
Proof. reflexivity. Qed.

(** Equal offsets are both kept: a paragraph break followed at once by a
    code block. *)
Example findTextBoundaries_duplicate_offsets :
  findTextBoundaries (str "a" ++ [NL; NL] ++ str "```x```")
  = [ {| index := 3; type := paragraph; priority := 100 |};
      {| index := 3; type := code_block; priority := 85 |};
      {| index := 10; type := code_block; priority := 85 |} ].
Proof. reflexivity. Qed.

(** * Further properties of the chunker *)

(** ** Whitespace and [trim] *)

Lemma trimStart_all_ws (s : jsstring) :
  trimStart s = [] ↔ Forall (λ c, is_ws c = true) s.
Proof.
  induction s as [|c s IH]; simpl; [by split; [constructor|]|].
  destruct (is_ws c) eqn:Hc.
  - rewrite IH. split; [by constructor | by inversion 1].
  - split; [done | inversion 1; congruence].
Qed.

Lemma trimStart_snoc (s : jsstring) (c : char) :
  is_ws c = false → trimStart (s ++ [c]) = trimStart s ++ [c].
Proof.
  intros Hc. induction s as [|x s IH]; simpl; [by rewrite Hc|].
  by destruct (is_ws x).
Qed.

Lemma trimStart_idemp (s : jsstring) : trimStart (trimStart s) = trimStart s.
Proof.
  induction s as [|c s IH]; simpl; [done|].
  destruct (is_ws c) eqn:Hc; [done|]. simpl. by rewrite Hc.
Qed.

Lemma trimEnd_cons (c : char) (s : jsstring) :
  is_ws c = false → trimEnd (c :: s) = c :: trimEnd s.
Proof.
  intros Hc. unfold trimEnd. rewrite reverse_cons, trimStart_snoc by done.
  by rewrite reverse_app.
Qed.

Lemma trimEnd_idemp (s : jsstring) : trimEnd (trimEnd s) = trimEnd s.
Proof. unfold trimEnd. by rewrite reverse_involutive, trimStart_idemp. Qed.

Lemma trimEnd_all_ws (s : jsstring) :
  trimEnd s = [] ↔ Forall (λ c, is_ws c = true) s.
Proof.
  unfold trimEnd. rewrite <- (reverse_involutive s) at 2.
  rewrite Forall_reverse, <- trimStart_all_ws.
  split; [intros H; by apply (f_equal reverse) in H; rewrite reverse_involutive in H
         | by intros ->].
Qed.

(** [trim] removes everything exactly when the string is whitespace. *)
Lemma trim_all_ws (s : jsstring) :
  trim s = [] ↔ Forall (λ c, is_ws c = true) s.
Proof.
  unfold trim. rewrite trimEnd_all_ws. split.
  - intros H. induction s as [|c s IH]; [constructor|]. simpl in H.
    destruct (is_ws c) eqn:Hc; [constructor; auto|].
    inversion H; congruence.
  - intros H. apply trimStart_all_ws in H. rewrite H. constructor.
Qed.

Lemma trim_idemp (s : jsstring) : trim (trim s) = trim s.
Proof.
  unfold trim. destruct (trimStart s) as [|c u] eqn:Hu; [done|].
  assert (is_ws c = false) as Hc.
  { induction s as [|x s IH]; [done|]. simpl in Hu.
    destruct (is_ws x) eqn:Hx; [auto | congruence]. }
  rewrite trimEnd_cons by done. simpl. rewrite Hc.
  rewrite <- trimEnd_cons by done. apply trimEnd_idemp.
Qed.

Lemma trimStart_length (s : jsstring) : (length (trimStart s) <= length s)%nat.
Proof. induction s as [|c s IH]; simpl; [lia|]. destruct (is_ws c); simpl; lia. Qed.

Lemma trim_length (s : jsstring) : (length (trim s) <= length s)%nat.
Proof.
  unfold trim, trimEnd. rewrite length_reverse.
  etrans; [apply trimStart_length|]. rewrite length_reverse.
  apply trimStart_length.
Qed.

(** ** Token estimates of parts and wholes *)

Lemma estimateTokenCount_mono (s t : jsstring) :
  (length s <= length t)%nat → estimateTokenCount s <= estimateTokenCount t.
Proof.
  intros H. rewrite !estimateTokenCount_eq.
  apply Z.div_le_mono; lia.
Qed.

Lemma estimateTokenCount_app (s t : jsstring) :
  estimateTokenCount (s ++ t) <= estimateTokenCount s + estimateTokenCount t.
Proof.
  pose proof (estimateTokenCount_bounds s).
  pose proof (estimateTokenCount_bounds t).
  pose proof (estimateTokenCount_bounds (s ++ t)) as H1.
  rewrite length_app in H1. lia.
Qed.

(** ** The packer, with the history of each chunk

    The loop of [chunkText] again, keeping for every chunk it pushes the
    overlap the chunk was seeded with, the segments appended to it and
    the running token count at the time of the push.  Erasing the history
    gives the loop itself ([trace_erase_step]). *)

Record emission := {
  em_seed : jsstring;     (* the overlap the chunk started with *)
  em_body : jsstring;     (* the segments appended after the seed *)
  em_tokens : Z           (* [currentTokens] when the chunk was pushed *)
}.

(** The chunk before and after [trim]. *)
Definition em_raw (e : emission) : jsstring := em_seed e ++ em_body e.
Definition em_chunk (e : emission) : jsstring := trim (em_raw e).

Record traced := {
  t_emitted : list emission;
  t_seed : jsstring;
  t_body : jsstring;
  t_tokens : Z;
  t_last : nat
}.

Definition trace_step (cfg : ChunkingConfig) (text : jsstring)
    (t : traced) (boundary : TextBoundary) : traced :=
  let segmentText :=
    slice text (Z.of_nat (t_last t)) (Z.of_nat (index boundary)) in
  let segmentTokens := estimateTokenCount segmentText in
  let append :=
    {| t_emitted := t_emitted t;
       t_seed := t_seed t;
       t_body := t_body t ++ segmentText;
       t_tokens := t_tokens t + segmentTokens;
       t_last := index boundary |} in
  if (maxTokensPerChunk cfg <? t_tokens t + segmentTokens)
     && (0 <? length (t_seed t ++ t_body t))%nat
  then
    if minTokensPerChunk cfg <=? t_tokens t then
      let pushed :=
        t_emitted t
          ++ [ {| em_seed := t_seed t; em_body := t_body t;
                  em_tokens := t_tokens t |} ] in
      if 0 <? overlapTokens cfg then
        let overlapText :=
          getOverlapText (t_seed t ++ t_body t) (overlapTokens cfg) in
        {| t_emitted := pushed;
           t_seed := overlapText;
           t_body := segmentText;
           t_tokens := estimateTokenCount (overlapText ++ segmentText);
           t_last := index boundary |}
      else
        {| t_emitted := pushed;
           t_seed := [];
           t_body := segmentText;
           t_tokens := segmentTokens;
           t_last := index boundary |}
    else append
  else append.

Definition trace_init : traced :=
  {| t_emitted := []; t_seed := []; t_body := []; t_tokens := 0; t_last := 0 |}.

Definition trace_erase (t : traced) : packer :=
  {| chunks := em_chunk <$> t_emitted t;
     currentChunk := t_seed t ++ t_body t;
     currentTokens := t_tokens t;
     lastBoundary := t_last t |}.

(** The state of the loop of [chunkText] when it ends. *)
Definition trace_loop (cfg : ChunkingConfig) (text : jsstring) : traced :=
  fold_left (trace_step cfg text) (pack_boundaries text) trace_init.

(** The chunks of [chunkText] with their history: those pushed by the
    loop, then the trailing one. *)
Definition packTrace (cfg : ChunkingConfig) (text : jsstring) : list emission :=
  let t := trace_loop cfg text in
  if (0 <? length (trim (t_seed t ++ t_body t)))%nat
  then t_emitted t
         ++ [ {| em_seed := t_seed t; em_body := t_body t;
                 em_tokens := t_tokens t |} ]
  else t_emitted t.

(** The overlap a chunk is seeded with after [raw] has been pushed. *)
Definition next_seed (cfg : ChunkingConfig) (raw : jsstring) : jsstring :=
  if 0 <? overlapTokens cfg then getOverlapText raw (overlapTokens cfg) else [].

(** The seed of the chunk that follows the emissions [l]. *)
Definition expected_seed (cfg : ChunkingConfig) (l : list emission) : jsstring :=
  match last l with
  | Some e => next_seed cfg (em_raw e)
  | None => []
  end.

Lemma trace_erase_step cfg text t boundary :
  trace_erase (trace_step cfg text t boundary)
  = pack_step cfg text (trace_erase t) boundary.
Proof.
  unfold trace_step, pack_step, trace_erase; simpl.
  repeat case_match; simpl; rewrite ?fmap_app, <- ?app_assoc; done.
Qed.

Lemma trace_erase_fold cfg text bs t :
  trace_erase (fold_left (trace_step cfg text) bs t)
  = fold_left (pack_step cfg text) bs (trace_erase t).
Proof.
  revert t. induction bs as [|b bs IH]; intros t; simpl; [done|].
  by rewrite IH, trace_erase_step.
Qed.

Lemma packChunks_trace cfg text :
  packChunks cfg text = em_chunk <$> packTrace cfg text.
Proof.
  unfold packChunks, packTrace, trace_loop.
  change pack_init with (trace_erase trace_init).
  rewrite <- trace_erase_fold. simpl.
  case_match; [|done]. by rewrite fmap_app.
Qed.

(** What the loop keeps true of its state. *)
Record trace_inv (cfg : ChunkingConfig) (text : jsstring) (t : traced) : Prop := {
  inv_last : (t_last t <= length text)%nat;
  (* the bodies tile the text read so far *)
  inv_cover :
    concat (em_body <$> t_emitted t) ++ t_body t = take (t_last t) text;
  (* every seed is the overlap tail of the chunk pushed before it *)
  inv_seed : t_seed t = expected_seed cfg (t_emitted t);
  inv_seeds :
    ∀ i e, t_emitted t !! i = Some e →
           em_seed e = expected_seed cfg (take i (t_emitted t));
  (* a chunk is pushed only when it is not empty and has reached the
     minimum, and the running count is never below the estimate *)
  inv_pushed :
    Forall (λ e, minTokensPerChunk cfg <= em_tokens e
                 ∧ estimateTokenCount (em_raw e) <= em_tokens e
                 ∧ em_raw e ≠ []) (t_emitted t);
  inv_tokens : estimateTokenCount (t_seed t ++ t_body t) <= t_tokens t
}.

Lemma trace_init_inv cfg text : trace_inv cfg text trace_init.
Proof.
  split; simpl; try done; try lia.
Qed.

Lemma segment_extends (text : jsstring) (a b : nat) :
  (a <= b <= length text)%nat →
  take a text ++ slice text (Z.of_nat a) (Z.of_nat b) = take b text.
Proof.
  intros H. rewrite slice_in by done. rewrite take_take_drop. f_equal. lia.
Qed.

Lemma pushed_seeds cfg (l : list emission) (e : emission) :
  em_seed e = expected_seed cfg l →
  (∀ i x, l !! i = Some x → em_seed x = expected_seed cfg (take i l)) →
  ∀ i x, (l ++ [e]) !! i = Some x →
         em_seed x = expected_seed cfg (take i (l ++ [e])).
Proof.
  intros He Hl i x Hx. apply lookup_snoc_Some in Hx as [[Hi Hx] | [-> <-]].
  - rewrite take_app_le by lia. by apply Hl.
  - by rewrite take_app_length.
Qed.

Lemma trace_step_inv cfg text t boundary :
  trace_inv cfg text t →
  (t_last t <= index boundary <= length text)%nat →
  trace_inv cfg text (trace_step cfg text t boundary)
  ∧ t_last (trace_step cfg text t boundary) = index boundary.
Proof.
  intros [Hlast Hcover Hseed Hseeds Hpushed Htok] Hb.
  pose proof (segment_extends text _ _ Hb) as Hseg.
  set (seg := slice text (Z.of_nat (t_last t)) (Z.of_nat (index boundary))) in *.
  assert (Happend :
    trace_inv cfg text
      {| t_emitted := t_emitted t; t_seed := t_seed t;
         t_body := t_body t ++ seg;
         t_tokens := t_tokens t + estimateTokenCount seg;
         t_last := index boundary |}).
  { split; simpl; try done; try lia.
    - by rewrite app_assoc, Hcover.
    - rewrite app_assoc.
      pose proof (estimateTokenCount_app (t_seed t ++ t_body t) seg). lia. }
  unfold trace_step. fold seg.
  destruct ((maxTokensPerChunk cfg <? t_tokens t + estimateTokenCount seg)
            && (0 <? length (t_seed t ++ t_body t))%nat) eqn:Hfull; [|done].
  destruct (minTokensPerChunk cfg <=? t_tokens t) eqn:Hmin; [|done].
  apply andb_true_iff in Hfull as [_ Hne]. apply Nat.ltb_lt in Hne.
  apply Z.leb_le in Hmin.
  set (e := {| em_seed := t_seed t; em_body := t_body t; em_tokens := t_tokens t |}).
  assert (Hpushed' :
    Forall (λ e, minTokensPerChunk cfg <= em_tokens e
                 ∧ estimateTokenCount (em_raw e) <= em_tokens e
                 ∧ em_raw e ≠ []) (t_emitted t ++ [e])).
  { apply Forall_app. split; [done|]. constructor; [|constructor].
    unfold em_raw; simpl. split_and!; try done.
    intros Hnil. rewrite Hnil in Hne. simpl in Hne. lia. }
  assert (Hcover' :
    concat (em_body <$> (t_emitted t ++ [e])) ++ seg = take (index boundary) text).
  { rewrite fmap_app, concat_app. simpl. rewrite app_nil_r. by rewrite Hcover. }
  assert (Hnext : expected_seed cfg (t_emitted t ++ [e])
                  = next_seed cfg (t_seed t ++ t_body t)).
  { unfold expected_seed. by rewrite last_snoc. }
  pose proof (pushed_seeds cfg (t_emitted t) e Hseed Hseeds) as Hseeds'.
  unfold next_seed in Hnext.
  destruct (0 <? overlapTokens cfg) eqn:Hov; (split; [|done]);
    split; simpl; try done; try lia.
Qed.

Lemma trace_fold_inv cfg text bs t :
  trace_inv cfg text t →
  StronglySorted index_le bs →
  Forall (λ b, (t_last t <= index b <= length text)%nat) bs →
  trace_inv cfg text (fold_left (trace_step cfg text) bs t)
  ∧ t_last (fold_left (trace_step cfg text) bs t)
    = default (t_last t) (index <$> last bs).
Proof.
  revert t. induction bs as [|b bs IH]; intros t Hinv Hsorted Hrange; [done|].
  apply StronglySorted_inv in Hsorted as [Hsorted Hb].
  apply Forall_cons in Hrange as [Hb0 Hrange].
  destruct (trace_step_inv cfg text t b Hinv Hb0) as [Hinv' Hlast'].
  simpl fold_left.
  destruct (IH (trace_step cfg text t b) Hinv' Hsorted) as [Hinv'' Hlast''].
  { rewrite Hlast'. rewrite Forall_forall in Hb, Hrange.
    apply Forall_forall. intros x Hx. specialize (Hb x Hx).
    specialize (Hrange x Hx). unfold index_le in Hb. lia. }
  split; [done|]. rewrite Hlast'', Hlast'.
  rewrite (last_cons b bs). by destruct (last bs).
Qed.

Lemma pack_boundaries_sorted (text : jsstring) :
  StronglySorted index_le (pack_boundaries text)
  ∧ Forall (λ b, (index b <= length text)%nat) (pack_boundaries text)
  ∧ index <$> last (pack_boundaries text) = Some (length text).
Proof.
  unfold pack_boundaries.
  assert (Hin : Forall (λ b, (index b <= length text)%nat) (findTextBoundaries text)).
  { apply Forall_forall. intros b. apply findTextBoundaries_in_text. }
  split_and!.
  - rewrite findTextBoundaries_candidates.
    pose proof (sort_by_index_sorted (candidates text)) as Hs.
    rewrite findTextBoundaries_candidates in Hin.
    induction Hs as [|x l Hl IH Hx]; simpl.
    + repeat constructor.
    + apply Forall_cons in Hin as [Hx0 Hin].
      constructor; [by apply IH|].
      apply Forall_app. split; [done|]. by repeat constructor.
  - apply Forall_app. split; [done|]. by repeat constructor.
  - by rewrite last_snoc.
Qed.

(** The state of the loop when it ends: everything has been read. *)
Lemma trace_loop_inv cfg text :
  trace_inv cfg text (trace_loop cfg text)
  ∧ t_last (trace_loop cfg text) = length text.
Proof.
  destruct (pack_boundaries_sorted text) as (Hs & Hr & Hl).
  destruct (trace_fold_inv cfg text (pack_boundaries text) trace_init
              (trace_init_inv cfg text) Hs) as [Hinv Hlast].
  { eapply Forall_impl; [exact Hr|]. simpl. intros; lia. }
  split; [done|]. unfold trace_loop. rewrite Hlast, Hl. done.
Qed.

(** ** The fallback *)

Lemma slice_Forall {A} (P : A → Prop) (l : list A) (a b : Z) :
  Forall P l → Forall P (slice l a b).
Proof. intros H. unfold slice. by apply Forall_take, Forall_drop. Qed.

(** On a text of whitespace the fallback pushes nothing. *)
Lemma fallback_loop_ws cfg text fuel i acc r :
  Forall (λ c, is_ws c = true) text →
  fallback_loop fuel cfg text i acc = Some r → r = acc.
Proof.
  intros Hws. revert i acc. induction fuel as [|fuel IH]; intros i acc; simpl.
  - destruct (i <? Z.of_nat (length text)); [done | by intros [= <-]].
  - destruct (i <? Z.of_nat (length text)); [|by intros [= <-]].
    assert (trim (slice text i (i + maxCharsPerChunk cfg)) = []) as ->
      by (by apply trim_all_ws, slice_Forall).
    simpl. apply IH.
Qed.

(** The number of steps of width [step >= 1] that reach [n]. *)
Definition steps_to (n step : Z) : nat := Z.to_nat ((n + step - 1) / step).

Lemma steps_to_spec (n step : Z) :
  0 <= n → 1 <= step →
  n <= Z.of_nat (steps_to n step) * step
  ∧ ((0 < steps_to n step)%nat → (Z.of_nat (steps_to n step) - 1) * step < n).
Proof.
  intros Hn Hstep. unfold steps_to.
  assert (H1 := Z.div_mod (n + step - 1) step ltac:(lia)).
  assert (H2 := Z.mod_pos_bound (n + step - 1) step ltac:(lia)).
  assert (H3 : 0 <= (n + step - 1) / step) by (apply Z.div_pos; lia).
  rewrite Z2Nat.id by done.
  revert H1 H2 H3. generalize ((n + step - 1) / step) ((n + step - 1) `mod` step).
  intros q r H1 H2 H3. split; [lia | intros; lia].
Qed.

(** The slice the fallback takes at offset [i], trimmed. *)
Definition fallback_slice (cfg : ChunkingConfig) (text : jsstring) (i : Z)
    : jsstring :=
  trim (slice text i (i + maxCharsPerChunk cfg)).

Lemma fallback_loop_steps cfg text (n fuel : nat) (i : Z) (acc : list jsstring) :
  let step := maxCharsPerChunk cfg - overlapChars cfg in
  1 <= step →
  (n <= fuel)%nat →
  Z.of_nat (length text) <= i + Z.of_nat n * step →
  ((0 < n)%nat → i + (Z.of_nat n - 1) * step < Z.of_nat (length text)) →
  fallback_loop fuel cfg text i acc
  = Some (acc ++ filter (λ c, c ≠ [])
                   ((λ k : nat, fallback_slice cfg text (i + Z.of_nat k * step))
                      <$> seq 0 n)).
Proof.
  intros step Hstep. revert fuel i acc.
  induction n as [|n IH]; intros fuel i acc Hfuel Hend Hlast.
  - simpl. rewrite app_nil_r.
    destruct fuel; simpl; destruct (Z.ltb_spec i (Z.of_nat (length text))); done || lia.
  - destruct fuel as [|fuel]; [lia|]. simpl fallback_loop.
    assert (i < Z.of_nat (length text)) by (specialize (Hlast ltac:(lia)); nia).
    destruct (Z.ltb_spec i (Z.of_nat (length text))); [|lia].
    fold step. rewrite IH; [|lia|lia|intros; nia].
    change (seq 0 (S n)) with (0%nat :: seq 1 n).
    rewrite fmap_cons, filter_cons, <- fmap_S_seq, <- list_fmap_compose.
    replace (i + Z.of_nat 0 * step) with i by lia.
    rewrite (list_fmap_ext
               (λ k : nat, fallback_slice cfg text (i + step + Z.of_nat k * step))
               ((λ k : nat, fallback_slice cfg text (i + Z.of_nat k * step)) ∘ S)
               (seq 0 n)) by (intros _ k _; simpl; f_equal; lia).
    fold (fallback_slice cfg text i).
    destruct (fallback_slice cfg text i) as [|c s] eqn:Hs; simpl; [done|].
    by rewrite <- app_assoc.
Qed.

Lemma fallback_loop_diverges cfg text fuel i acc :
  maxCharsPerChunk cfg <= overlapChars cfg →
  i < Z.of_nat (length text) →
  fallback_loop fuel cfg text i acc = None.
Proof.
  intros Hstep. revert i acc. induction fuel as [|fuel IH]; intros i acc Hi; simpl.
  - by destruct (Z.ltb_spec i (Z.of_nat (length text))); [|lia].
  - destruct (Z.ltb_spec i (Z.of_nat (length text))); [|lia].
    apply IH. lia.
Qed.

(** ** What [chunkText] returns *)

Lemma packTrace_nil cfg text :
  packTrace cfg text = [] → Forall (λ c, is_ws c = true) text.
Proof.
  destruct (trace_loop_inv cfg text) as [[_ Hcover Hseed _ _ _] Hlast].
  unfold packTrace.
  destruct (0 <? length (trim (t_seed (trace_loop cfg text)
                               ++ t_body (trace_loop cfg text))))%nat eqn:Hne.
  { intros H. by apply app_nil in H as [_ ?]. }
  intros Hnil. rewrite Hnil in Hcover, Hseed. simpl in Hcover, Hseed.
  rewrite Hlast, take_ge in Hcover by done.
  rewrite Hseed, Hcover in Hne. simpl in Hne.
  apply trim_all_ws. apply Nat.ltb_ge in Hne.
  destruct (trim text); [done | simpl in Hne; lia].
Qed.

Lemma packChunks_nil cfg text :
  packChunks cfg text = [] → Forall (λ c, is_ws c = true) text.
Proof.
  rewrite packChunks_trace. intros H. apply fmap_nil_inv in H.
  by apply (packTrace_nil cfg).
Qed.

(** X3. Whenever [chunkText] returns, it returns the chunks of the
    boundary walk: the fallback is entered only on a non-empty text of
    nothing but whitespace, where it contributes no chunk.  On a text with
    a character that is not whitespace [chunkText] returns at least one
    chunk, whatever the configuration.  When [overlapChars <
    maxCharsPerChunk] it returns on every text; otherwise it does not
    return on a text that the walk leaves without a chunk. *)
Theorem chunkText_returns_the_walk (cfg : ChunkingConfig) (text : jsstring)
    (contentType : ContentType) :
  (∀ fuel chunks, chunkText fuel cfg text contentType = Some chunks →
                  chunks = packChunks cfg text)
  ∧ (trim text ≠ [] →
     packChunks cfg text ≠ []
     ∧ ∀ fuel, chunkText fuel cfg text contentType = Some (packChunks cfg text))
  ∧ (overlapChars cfg < maxCharsPerChunk cfg →
     ∀ fuel, (length text <= fuel)%nat →
             chunkText fuel cfg text contentType = Some (packChunks cfg text))
  ∧ (maxCharsPerChunk cfg <= overlapChars cfg →
     packChunks cfg text = [] → text ≠ [] →
     ∀ fuel, chunkText fuel cfg text contentType = None).
Proof.
  assert (Hfb : ∀ fuel chunks,
            packChunks cfg text = [] →
            fallbackChunking fuel cfg text = Some chunks → chunks = []).
  { intros fuel chunks Hnil. apply fallback_loop_ws. by apply (packChunks_nil cfg). }
  split_and!.
  - intros fuel chunks. unfold chunkText.
    destruct (packChunks cfg text) as [|c l] eqn:Hp; simpl.
    + destruct (0 <? length text)%nat; [|by intros [= <-]].
      intros H. by apply Hfb in H.
    + by intros [= <-].
  - intros Hne.
    assert (packChunks cfg text ≠ []) as Hp.
    { intros Hnil. apply Hne, trim_all_ws. by apply (packChunks_nil cfg). }
    split; [done|]. intros fuel. unfold chunkText.
    by destruct (packChunks cfg text).
  - intros Hstep fuel Hfuel. unfold chunkText.
    destruct (packChunks cfg text) as [|c l] eqn:Hp; simpl; [|done].
    destruct (0 <? length text)%nat; [|done].
    set (step := maxCharsPerChunk cfg - overlapChars cfg).
    set (n := steps_to (Z.of_nat (length text)) step).
    destruct (steps_to_spec (Z.of_nat (length text)) step) as [H1 H2]; [lia..|].
    fold n in H1, H2.
    assert (Hn : (n <= fuel)%nat).
    { destruct (decide (0 < n)%nat) as [Hpos|]; [|lia].
      specialize (H2 Hpos). nia. }
    assert (Hsteps := fallback_loop_steps cfg text n fuel 0 [] ltac:(lia) Hn
                        ltac:(fold step; lia) ltac:(fold step; intros; auto with lia)).
    assert (Hret := Hsteps). apply (Hfb fuel) in Hret; [|done].
    unfold fallbackChunking. rewrite Hsteps. by rewrite Hret.
  - intros Hstep Hnil Hne fuel. unfold chunkText. rewrite Hnil. simpl.
    destruct text as [|c text]; [done|]. simpl.
    apply fallback_loop_diverges; [done | simpl; lia].
Qed.

Lemma chunkText_nonblank cfg text contentType fuel :
  trim text ≠ [] →
  chunkText fuel cfg text contentType = Some (packChunks cfg text).
Proof.
  intros Hne. unfold chunkText.
  destruct (packChunks cfg text) eqn:Hp; [|done].
  exfalso. apply Hne, trim_all_ws. by apply (packChunks_nil cfg).
Qed.

Lemma chunkText_Some cfg text contentType fuel chunks :
  chunkText fuel cfg text contentType = Some chunks →
  chunks = packChunks cfg text.
Proof.
  unfold chunkText.
  destruct (packChunks cfg text) as [|c l] eqn:Hp; simpl; [|by intros [= <-]].
  destruct (0 <? length text)%nat; [|by intros [= <-]].
  apply fallback_loop_ws. by apply (packChunks_nil cfg).
Qed.

(** A configuration with small budgets, for the demonstrations. *)
Definition small_cfg : ChunkingConfig := {|
  maxTokensPerChunk := 3; minTokensPerChunk := 3; overlapTokens := 1;
  chunksPerGroup := 2; maxChunksPerGroup := 3;
  maxCharsPerChunk := 4; minCharsPerChunk := 1; overlapChars := 1 |}.

Definition small_text : jsstring := str "A. B. C. D. E. F. G. H. I.".

(** The first segment always starts the first chunk. *)
Lemma pack_step_first cfg text boundary :
  pack_step cfg text pack_init boundary
  = {| chunks := [];
       currentChunk := slice text (Z.of_nat 0) (Z.of_nat (index boundary));
       currentTokens :=
         0 + estimateTokenCount
               (slice text (Z.of_nat 0) (Z.of_nat (index boundary)));
       lastBoundary := index boundary |}.
Proof.
  unfold pack_step. cbn [currentChunk currentTokens lastBoundary chunks pack_init].
  change (0 <? length [])%nat with false. by rewrite andb_false_r.
Qed.

(** X4. A text in which [findTextBoundaries] finds nothing and that is
    not blank comes back as one chunk, the whole text trimmed, however
    long it is: the walk always ends on the boundary pushed at the end of
    the text, so the fixed-width slicing is not reached. *)
Theorem chunkText_without_boundaries (cfg : ChunkingConfig) (text : jsstring)
    (contentType : ContentType) (fuel : nat) :
  findTextBoundaries text = [] →
  trim text ≠ [] →
  chunkText fuel cfg text contentType = Some [trim text].
Proof.
  intros Hnone Hne. rewrite chunkText_nonblank by done. f_equal.
  unfold packChunks, pack_boundaries. rewrite Hnone. simpl fold_left.
  rewrite pack_step_first. cbn [currentChunk chunks index].
  rewrite (slice_in text 0 (length text)) by lia.
  rewrite drop_0, Nat.sub_0_r, take_ge by done.
  by destruct (trim text).
Qed.

Lemma chunkText_without_boundaries_witness :
  chunkText 0 small_cfg (str "aaaaaaaaaa") article = Some [trim (str "aaaaaaaaaa")].
Proof.
  apply (chunkText_without_boundaries small_cfg (str "aaaaaaaaaa") article 0).
  - reflexivity.
  - discriminate.
Defined.

(** The same under the default configuration: 4801 characters without a
    boundary make one chunk of 1201 tokens, above [maxTokensPerChunk]. *)
Example chunkText_long_line :
  chunkText 0 DEFAULT_CHUNKING_CONFIG (replicate 4801 97%N) article
  = Some [replicate 4801 97%N].
Proof. vm_compute. reflexivity. Qed.

(** X5. The chunks of [chunkText] tile the text: each chunk is the trim of
    a seed followed by a body, where the seed is the overlap tail of the
    chunk pushed before it (nothing for the first chunk or without
    overlap) and the bodies, taken in order, are the text itself, up to a
    blank remainder at the end that is not emitted. *)
Theorem chunkText_tiles_the_text (cfg : ChunkingConfig) (text : jsstring)
    (contentType : ContentType) (fuel : nat) (chunks : list jsstring) :
  chunkText fuel cfg text contentType = Some chunks →
  let tr := packTrace cfg text in
  chunks = (λ e, trim (em_seed e ++ em_body e)) <$> tr
  ∧ (∀ i e, tr !! i = Some e →
       em_seed e
       = match last (take i tr) with
         | Some e' =>
             if 0 <? overlapTokens cfg
             then getOverlapText (em_seed e' ++ em_body e') (overlapTokens cfg)
             else []
         | None => []
         end)
  ∧ ∃ rest, concat (em_body <$> tr) ++ rest = text
            ∧ Forall (λ c, is_ws c = true) rest.
Proof.
  intros Hsome. apply chunkText_Some in Hsome as ->. simpl.
  split; [apply packChunks_trace|].
  destruct (trace_loop_inv cfg text) as [[_ Hcover Hseed Hseeds _ _] Hlast].
  rewrite Hlast, take_ge in Hcover by done.
  unfold packTrace.
  destruct (0 <? length (trim (t_seed (trace_loop cfg text)
                               ++ t_body (trace_loop cfg text))))%nat eqn:Hne.
  - split.
    + apply (pushed_seeds cfg); [done | exact Hseeds].
    + exists []. split; [|constructor].
      rewrite fmap_app, concat_app. simpl. by rewrite !app_nil_r.
  - split; [exact Hseeds|].
    exists (t_body (trace_loop cfg text)). split; [done|].
    apply Nat.ltb_ge in Hne.
    assert (trim (t_seed (trace_loop cfg text) ++ t_body (trace_loop cfg text)) = [])
      as Hnil by (destruct (trim _); [done | simpl in Hne; lia]).
    apply trim_all_ws in Hnil. by apply Forall_app in Hnil as [_ ?].
Qed.

Lemma chunkText_tiles_the_text_witness :
  let tr := packTrace small_cfg small_text in
  [str "A. B. C."; str ". C. D. E."; str ". E. F. G."; str ". G. H. I."]
  = (λ e, trim (em_seed e ++ em_body e)) <$> tr
  ∧ (∀ i e, tr !! i = Some e →
       em_seed e
       = match last (take i tr) with
         | Some e' =>
             if 0 <? overlapTokens small_cfg
             then getOverlapText (em_seed e' ++ em_body e') (overlapTokens small_cfg)
             else []
         | None => []
         end)
  ∧ ∃ rest, concat (em_body <$> tr) ++ rest = small_text
            ∧ Forall (λ c, is_ws c = true) rest.
Proof.
  apply (chunkText_tiles_the_text small_cfg small_text article 0).
  reflexivity.
Defined.

(** X6. Every chunk but the last one that [chunkText] returns was pushed
    when it was not empty and the running token count of the walk had
    reached [minTokensPerChunk].  The running count adds the estimate of
    each segment, so it is at least the estimate of the chunk itself,
    which may be lower than the minimum. *)
Theorem chunkText_pushed_at_minimum (cfg : ChunkingConfig) (text : jsstring)
    (i : nat) (e : emission) :
  packTrace cfg text !! i = Some e →
  (S i < length (packTrace cfg text))%nat →
  minTokensPerChunk cfg <= em_tokens e
  ∧ estimateTokenCount (em_chunk e) <= em_tokens e
  ∧ em_seed e ++ em_body e ≠ [].
Proof.
  intros He Hi.
  destruct (trace_loop_inv cfg text) as [[_ _ _ _ Hpushed _] _].
  assert (t_emitted (trace_loop cfg text) !! i = Some e) as Hin.
  { revert He Hi. unfold packTrace. case_match; [|done].
    rewrite length_app. simpl. intros He Hi.
    apply lookup_snoc_Some in He as [[_ ?] | [-> _]]; [done | lia]. }
  rewrite Forall_forall in Hpushed.
  destruct (Hpushed e) as (H1 & H2 & H3); [by eapply list_elem_of_lookup_2|].
  split_and!; try done.
  etrans; [|exact H2]. apply estimateTokenCount_mono, trim_length.
Qed.

Lemma chunkText_pushed_at_minimum_witness :
  minTokensPerChunk small_cfg <= 3
  ∧ estimateTokenCount
      (em_chunk {| em_seed := []; em_body := str "A. B. C."; em_tokens := 3 |}) <= 3
  ∧ [] ++ str "A. B. C." ≠ [].
Proof.
  apply (chunkText_pushed_at_minimum small_cfg small_text 0
           {| em_seed := []; em_body := str "A. B. C."; em_tokens := 3 |}).
  - reflexivity.
  - vm_compute. lia.
Defined.

(** The estimate of the chunks themselves can be below the minimum for
    several chunks: here each chunk was pushed at a running count of 3. *)
Example chunkText_estimates_below_minimum :
  let cfg :=
    {| maxTokensPerChunk := 3; minTokensPerChunk := 3; overlapTokens := 0;
       chunksPerGroup := 2; maxChunksPerGroup := 3;
       maxCharsPerChunk := 4; minCharsPerChunk := 1; overlapChars := 1 |} in
  chunkText 0 cfg small_text article
  = Some [str "A. B. C."; str "D. E. F."; str "G. H. I."]
  ∧ estimateTokenCount <$> packChunks cfg small_text = [2; 2; 2].
Proof. split; reflexivity. Qed.

(** X7. Every chunk that [chunkText] returns is trimmed: it neither
    starts nor ends with whitespace. *)
Theorem chunkText_chunks_trimmed (cfg : ChunkingConfig) (text : jsstring)
    (contentType : ContentType) (fuel : nat) (chunks : list jsstring)
    (c : jsstring) :
  chunkText fuel cfg text contentType = Some chunks →
  c ∈ chunks →
  trim c = c
  ∧ (∀ x, head c = Some x → is_ws x = false)
  ∧ (∀ x, last c = Some x → is_ws x = false).
Proof.
  intros Hsome Hc. apply chunkText_Some in Hsome as ->.
  rewrite packChunks_trace in Hc.
  apply list_elem_of_fmap in Hc as (e & -> & _). unfold em_chunk.
  assert (Hhead : ∀ s x, head (trimStart s) = Some x → is_ws x = false).
  { intros s x. induction s as [|y s IH]; [done|]. simpl.
    destruct (is_ws y) eqn:Hy; [done|]. by intros [= <-]. }
  split; [apply trim_idemp|]. split.
  - intros x. rewrite <- trim_idemp. unfold trim at 1. unfold trimEnd.
    destruct (trimStart (trim (em_raw e))) as [|y u] eqn:Hu; [done|].
    pose proof (Hhead (trim (em_raw e)) y) as Hy. rewrite Hu in Hy.
    specialize (Hy eq_refl).
    fold (trimEnd (y :: u)). rewrite trimEnd_cons by done. by intros [= <-].
  - intros x. unfold trim, trimEnd. rewrite last_reverse. apply Hhead.
Qed.

Lemma chunkText_chunks_trimmed_witness :
  trim (str ". C. D. E.") = str ". C. D. E."
  ∧ (∀ x, head (str ". C. D. E.") = Some x → is_ws x = false)
  ∧ (∀ x, last (str ". C. D. E.") = Some x → is_ws x = false).
Proof.
  apply (chunkText_chunks_trimmed small_cfg small_text article 0
           [str "A. B. C."; str ". C. D. E."; str ". E. F. G."; str ". G. H. I."]).
  - reflexivity.
  - right. left.
Defined.

(** X8. With [overlapChars < maxCharsPerChunk], [fallbackChunking] returns
    (within one iteration per character) the slices of width
    [maxCharsPerChunk] taken at the offsets [0, step, 2 step, ...] below
    the length, [step = maxCharsPerChunk - overlapChars], each trimmed,
    those that are blank left out. *)
Theorem fallbackChunking_slices (cfg : ChunkingConfig) (text : jsstring)
    (fuel : nat) :
  overlapChars cfg < maxCharsPerChunk cfg →
  (length text <= fuel)%nat →
  let step := maxCharsPerChunk cfg - overlapChars cfg in
  fallbackChunking fuel cfg text
  = Some (filter (λ c, c ≠ [])
            ((λ k : nat,
                trim (slice text (Z.of_nat k * step)
                        (Z.of_nat k * step + maxCharsPerChunk cfg)))
               <$> seq 0 (steps_to (Z.of_nat (length text)) step))).
Proof.
  intros Hstep Hfuel step.
  set (n := steps_to (Z.of_nat (length text)) step).
  destruct (steps_to_spec (Z.of_nat (length text)) step) as [H1 H2]; [lia..|].
  fold n in H1, H2.
  assert (Hn : (n <= fuel)%nat).
  { destruct (decide (0 < n)%nat) as [Hpos|]; [|lia].
    specialize (H2 Hpos). nia. }
  unfold fallbackChunking.
  rewrite (fallback_loop_steps cfg text n fuel 0 []);
    [|fold step; lia|done|fold step; lia|fold step; intros; auto with lia].
  simpl. done.
Qed.

Lemma fallbackChunking_slices_witness :
  let step := 4 - 1 in
  fallbackChunking 10 small_cfg (str "ab cdefg h")
  = Some (filter (λ c, c ≠ [])
            ((λ k : nat,
                trim (slice (str "ab cdefg h") (Z.of_nat k * step)
                        (Z.of_nat k * step + 4)))
               <$> seq 0 (steps_to (Z.of_nat 10) step))).
Proof.
  apply (fallbackChunking_slices small_cfg (str "ab cdefg h") 10); simpl; lia.
Defined.

Example fallbackChunking_demo :
  fallbackChunking 10 small_cfg (str "ab cdefg h")
  = Some [str "ab c"; str "cdef"; str "fg h"; str "h"].
Proof. reflexivity. Qed.

(** X9. With [maxCharsPerChunk <= overlapChars] the window of
    [fallbackChunking] never advances: on a non-empty text the loop does
    not end, whatever number of iterations it is given. *)
Theorem fallbackChunking_never_returns (cfg : ChunkingConfig)
    (text : jsstring) (fuel : nat) :
  maxCharsPerChunk cfg <= overlapChars cfg →
  text ≠ [] →
  fallbackChunking fuel cfg text = None.
Proof.
  intros Hstep Hne. apply fallback_loop_diverges; [done|].
  destruct text; [done | simpl; lia].
Qed.

Lemma fallbackChunking_never_returns_witness :
  fallbackChunking 1000
    {| maxTokensPerChunk := 1200; minTokensPerChunk := 300; overlapTokens := 100;
       chunksPerGroup := 2; maxChunksPerGroup := 3;
       maxCharsPerChunk := 400; minCharsPerChunk := 1200; overlapChars := 400 |}
    (str "some text") = None.
Proof.
  apply fallbackChunking_never_returns; [simpl; lia | discriminate].
Defined.

(** ** Boundaries, estimates and overlap tails *)

Definition priority_of (k : boundary_type) : Z :=
  match k with
  | paragraph => 100
  | section => 90
  | code_block => 85
  | sentence => 50
  end.

(** X2. Every boundary that [findTextBoundaries] reports lies inside the
    text (at most at its end) and carries the priority of its kind:
    paragraph 100, section 90, code block 85, sentence 50; a sentence
    boundary is never at offset 0. *)
Theorem findTextBoundaries_well_formed (text : jsstring) (b : TextBoundary) :
  b ∈ findTextBoundaries text →
  (index b <= length text)%nat
  ∧ priority b = priority_of (type b)
  ∧ (type b = sentence → (1 <= index b)%nat).
Proof.
  intros Hb. split; [by apply findTextBoundaries_in_text|].
  rewrite findTextBoundaries_candidates, sort_by_index_perm in Hb.
  unfold candidates in Hb. rewrite !elem_of_app in Hb.
  destruct Hb as [H | [H | [H | H]]].
  - by apply list_elem_of_fmap in H as (m & -> & _).
  - by apply list_elem_of_fmap in H as (m & -> & _).
  - apply list_elem_of_bind in H as (m & H & _).
    repeat (apply elem_of_cons in H as [-> | H]); try done.
    by apply elem_of_nil in H.
  - apply list_elem_of_fmap in H as (m & -> & _). simpl.
    split; [done | lia].
Qed.

Lemma findTextBoundaries_well_formed_witness :
  (6 <= length (str "Intro. Next one. last"))%nat
  ∧ 50 = priority_of sentence
  ∧ (sentence = sentence → (1 <= 6)%nat).
Proof.
  apply (findTextBoundaries_well_formed (str "Intro. Next one. last")
           {| index := 6; type := sentence; priority := 50 |}).
  vm_compute. left.
Defined.

(** X10. The estimate of an empty string is 0 and of any other string at
    least 1; it never exceeds the length, grows with the length, and the
    estimates of two parts add up to the estimate of the whole or to one
    more (which is why the running count of the packer can exceed the
    estimate of the chunk). *)
Theorem estimateTokenCount_of_parts (s t : jsstring) :
  (estimateTokenCount s = 0 ↔ s = [])
  ∧ 0 <= estimateTokenCount s <= Z.of_nat (length s)
  ∧ ((length s <= length t)%nat → estimateTokenCount s <= estimateTokenCount t)
  ∧ estimateTokenCount (s ++ t)
    <= estimateTokenCount s + estimateTokenCount t
    <= estimateTokenCount (s ++ t) + 1.
Proof.
  pose proof (estimateTokenCount_bounds s) as Hs.
  pose proof (estimateTokenCount_bounds t) as Ht.
  pose proof (estimateTokenCount_bounds (s ++ t)) as Hst.
  rewrite length_app in Hst.
  split_and!; try lia.
  split; [|by intros ->].
  intros H0. rewrite H0 in Hs. destruct s; [done | simpl in Hs; lia].
Qed.

Lemma slice_from_drop {A} (l : list A) (a : Z) :
  slice_from l a = drop (Z.to_nat (rel_index (Z.of_nat (length l)) a)) l.
Proof.
  unfold slice_from, slice.
  rewrite (rel_index_in _ (Z.of_nat (length l))) by lia.
  apply take_ge. rewrite length_drop. lia.
Qed.

(** X11. Whatever the budget, [getOverlapText] returns a suffix of the
    chunk, of at most [overlapTokens * 4] characters (so none at all for
    a budget that is not positive). *)
Theorem getOverlapText_suffix (chunk : jsstring) (overlapTokens : Z) :
  getOverlapText chunk overlapTokens `suffix_of` chunk
  ∧ (length (getOverlapText chunk overlapTokens)
     <= Z.to_nat (overlapTokens * 4))%nat.
Proof.
  unfold getOverlapText.
  destruct (Z.leb_spec (Z.of_nat (length chunk)) (overlapTokens * 4)) as [Hle | Hgt].
  { split; [done | lia]. }
  rewrite !slice_from_drop.
  set (len := Z.of_nat (length chunk)) in *.
  set (start := Z.max 0 (len - overlapTokens * 4)).
  assert (Hstart : 0 <= start) by (unfold start; lia).
  assert (Hs : (length chunk - Z.to_nat (overlapTokens * 4)
                <= Z.to_nat (rel_index len start))%nat).
  { unfold rel_index. destruct (Z.ltb_spec start 0); [lia|]. unfold start. lia. }
  pose proof (last_occurrence_spec (str ". ")
                (drop (Z.to_nat (rel_index len start)) chunk) 0 ltac:(done)) as Hlast.
  unfold lastIndexOf.
  destruct (last_occurrence _ _ 0) as [i|]; simpl in *.
  - destruct Hlast as (k & -> & _). destruct (negb _).
    + split; [apply suffix_drop|]. rewrite length_drop.
      assert (Z.to_nat (rel_index len start)
              <= Z.to_nat (rel_index len (start + (0 + Z.of_nat k) + 2)))%nat.
      { unfold rel_index. destruct (Z.ltb_spec start 0); [lia|].
        destruct (Z.ltb_spec (start + (0 + Z.of_nat k) + 2) 0); lia. }
      unfold len in *. lia.
    + split; [apply suffix_drop|]. rewrite length_drop. unfold len in *. lia.
  - destruct (negb _).
    + split; [apply suffix_drop|]. rewrite length_drop.
      assert (Z.to_nat (rel_index len start)
              <= Z.to_nat (rel_index len (start + -1 + 2)))%nat.
      { unfold rel_index. destruct (Z.ltb_spec start 0); [lia|].
        destruct (Z.ltb_spec (start + -1 + 2) 0); lia. }
      unfold len in *. lia.
    + split; [apply suffix_drop|]. rewrite length_drop. unfold len in *. lia.
Qed.

(** ** Chunk persistence *)

Lemma save_loop_spec insert_chunk contentId contentType i chunks :
  let saved := save_loop insert_chunk contentId contentType i chunks in
  Forall (λ c, (i <= chunk_index c)%nat
               ∧ chunks !! (chunk_index c - i)%nat = Some (chunk_text c)
               ∧ chunk_content_id c = contentId
               ∧ chunk_type c = contentType
               ∧ token_count c = estimateTokenCount (chunk_text c)
               ∧ chunk_id c
                 = insert_chunk contentId (chunk_index c) (chunk_text c)
                     (token_count c) contentType
               ∧ is_Some (chunk_id c)) saved
  ∧ StronglySorted lt (chunk_index <$> saved)
  ∧ (length saved <= length chunks)%nat.
Proof.
  revert i. induction chunks as [|t rest IH]; intros i; simpl.
  { split; [constructor|]. split; [constructor | lia]. }
  destruct (IH (S i)) as (Hall & Hsorted & Hlen).
  assert (Hshift :
    Forall (λ c, (i <= chunk_index c)%nat
                 ∧ (t :: rest) !! (chunk_index c - i)%nat = Some (chunk_text c)
                 ∧ chunk_content_id c = contentId
                 ∧ chunk_type c = contentType
                 ∧ token_count c = estimateTokenCount (chunk_text c)
                 ∧ chunk_id c
                   = insert_chunk contentId (chunk_index c) (chunk_text c)
                       (token_count c) contentType
                 ∧ is_Some (chunk_id c))
      (save_loop insert_chunk contentId contentType (S i) rest)).
  { eapply Forall_impl; [exact Hall|]. simpl.
    intros c (H1 & H2 & H3). split; [lia|]. split; [|done].
    replace (chunk_index c - i)%nat with (S (chunk_index c - S i)) by lia. done. }
  destruct (insert_chunk contentId i t (estimateTokenCount t) contentType) eqn:Hins.
  - split_and!.
    + constructor; [|done]. simpl. rewrite Nat.sub_diag. rewrite Hins.
      split_and!; eauto.
    + rewrite fmap_cons. constructor; [done|]. simpl.
      apply Forall_fmap. eapply Forall_impl; [exact Hall|].
      simpl. intros c (H1 & _). lia.
    + simpl. lia.
  - split_and!; [done | done | lia].
Qed.

Lemma save_loop_all_ok insert_chunk contentId contentType i chunks :
  (∀ j t, chunks !! j = Some t →
          is_Some (insert_chunk contentId (i + j)%nat t
                     (estimateTokenCount t) contentType)) →
  chunk_index <$> save_loop insert_chunk contentId contentType i chunks
  = seq i (length chunks)
  ∧ chunk_text <$> save_loop insert_chunk contentId contentType i chunks
    = chunks.
Proof.
  revert i. induction chunks as [|t rest IH]; intros i Hok; [done|].
  simpl. destruct (Hok 0%nat t eq_refl) as [id Hid].
  rewrite Nat.add_0_r in Hid. rewrite Hid.
  destruct (IH (S i)) as [H1 H2].
  { intros j t' Hj. replace (S i + j)%nat with (i + S j)%nat by lia.
    by apply Hok. }
  rewrite !fmap_cons, H1, H2. done.
Qed.

(** X12. Every chunk that [saveChunks] returns is one of the texts given,
    at the position that is its [chunk_index], with the id the database
    returned, the given document and type and [estimateTokenCount] of its
    text as token count; the returned indices increase strictly; when
    every insert succeeds they are exactly [0 .. N - 1], and a chunk whose
    insert fails is left out, leaving a gap at its index. *)
Theorem saveChunks_indices
    (insert_chunk : Z → nat → jsstring → Z → ContentType → option Z)
    (contentId : Z) (chunks : list jsstring) (contentType : ContentType) :
  let saved := saveChunks insert_chunk contentId chunks contentType in
  (∀ c, c ∈ saved →
        chunks !! chunk_index c = Some (chunk_text c)
        ∧ chunk_content_id c = contentId ∧ chunk_type c = contentType
        ∧ token_count c = estimateTokenCount (chunk_text c)
        ∧ chunk_id c
          = insert_chunk contentId (chunk_index c) (chunk_text c)
              (token_count c) contentType
        ∧ is_Some (chunk_id c))
  ∧ StronglySorted lt (chunk_index <$> saved)
  ∧ (∀ i t, chunks !! i = Some t →
            insert_chunk contentId i t (estimateTokenCount t) contentType = None →
            i ∉ chunk_index <$> saved)
  ∧ ((∀ i t, chunks !! i = Some t →
             is_Some (insert_chunk contentId i t (estimateTokenCount t) contentType)) →
     chunk_index <$> saved = seq 0 (length chunks)
     ∧ chunk_text <$> saved = chunks).
Proof.
  simpl. unfold saveChunks.
  destruct (save_loop_spec insert_chunk contentId contentType 0 chunks)
    as (Hall & Hsorted & Hlen).
  rewrite Forall_forall in Hall.
  split_and!; [|done| |].
  - intros c Hc. destruct (Hall c Hc) as (_ & H2 & H3).
    rewrite Nat.sub_0_r in H2. done.
  - intros i t Hi Hnone Hin.
    apply list_elem_of_fmap in Hin as (c & -> & Hc).
    destruct (Hall c Hc) as (_ & H2 & _ & _ & H5 & H6 & H7).
    rewrite Nat.sub_0_r in H2. rewrite Hi in H2. injection H2 as ->.
    rewrite H5, Hnone in H6. rewrite H6 in H7. by destruct H7.
  - intros Hok. apply (save_loop_all_ok insert_chunk contentId contentType 0 chunks).
    intros j t. simpl. apply Hok.
Qed.

(** ** Groups: degenerate steps and shared chunks *)

Lemma group_loop_diverges cfg chunks fuel i acc :
  chunksPerGroup cfg <= 0 →
  i < Z.of_nat (length chunks) →
  group_loop fuel cfg chunks i acc = None.
Proof.
  intros Hstep. revert i acc. induction fuel as [|fuel IH]; intros i acc Hi; simpl.
  - by destruct (Z.ltb_spec i (Z.of_nat (length chunks))); [|lia].
  - destruct (Z.ltb_spec i (Z.of_nat (length chunks))); [|lia].
    apply IH. lia.
Qed.

(** X13. [createChunkGroups] returns no group for an empty list of
    chunks, and for a non-empty list it returns as many groups as there
    are window starts, at least one and at most one per chunk; with
    [chunksPerGroup <= 0] its loop never leaves the first window and does
    not return. *)
Theorem createChunkGroups_group_count (cfg : ChunkingConfig)
    (chunks : list ContentChunk) :
  (∀ fuel, createChunkGroups fuel cfg [] = Some [])
  ∧ (1 <= chunksPerGroup cfg → chunks ≠ [] →
     ∃ groups, createChunkGroups (length chunks) cfg chunks = Some groups
               ∧ (1 <= length groups <= length chunks)%nat
               ∧ Z.of_nat (length chunks)
                 <= Z.of_nat (length groups) * chunksPerGroup cfg)
  ∧ (chunksPerGroup cfg <= 0 → chunks ≠ [] →
     ∀ fuel, createChunkGroups fuel cfg chunks = None).
Proof.
  split_and!.
  - by intros [|fuel].
  - intros Hstep Hne.
    destruct (window_count_spec cfg chunks Hstep) as [H1 H2].
    eexists. split; [by apply createChunkGroups_steps|].
    rewrite length_fmap, length_seq.
    pose proof (window_count_le cfg chunks Hstep).
    split; [|done]. split; [|done].
    destruct chunks as [|c0 rest]; [done|]. simpl length in *.
    destruct (window_count cfg (c0 :: rest)); lia.
  - intros Hstep Hne fuel. apply group_loop_diverges; [done|].
    destruct chunks; [done | simpl; lia].
Qed.

(** X14. When the window is wider than the step
    ([chunksPerGroup < maxChunksPerGroup], as in the default 2 and 3),
    the chunk at the start of every window after the first also belongs
    to the window before it: its id is listed by both groups and its
    tokens are counted in both. *)
Theorem createChunkGroups_windows_share (cfg : ChunkingConfig)
    (chunks : list ContentChunk) (k : nat) (c : ContentChunk) (id : Z) :
  1 <= chunksPerGroup cfg →
  chunksPerGroup cfg < maxChunksPerGroup cfg →
  chunks !! Z.to_nat (Z.of_nat (S k) * chunksPerGroup cfg) = Some c →
  chunk_id c = Some id →
  ∃ groups g g',
    createChunkGroups (length chunks) cfg chunks = Some groups
    ∧ groups !! k = Some g ∧ groups !! S k = Some g'
    ∧ id ∈ chunk_ids g ∧ id ∈ chunk_ids g'
    ∧ c ∈ slice chunks (Z.of_nat k * chunksPerGroup cfg)
            (Z.of_nat k * chunksPerGroup cfg + maxChunksPerGroup cfg)
    ∧ c ∈ slice chunks (Z.of_nat (S k) * chunksPerGroup cfg)
            (Z.of_nat (S k) * chunksPerGroup cfg + maxChunksPerGroup cfg).
Proof.
  intros Hstep Hwide Hc Hid.
  set (cpg := chunksPerGroup cfg) in *.
  assert (Hlt := lookup_lt_Some _ _ _ Hc).
  destruct (window_count_spec cfg chunks Hstep) as [H1 H2]. fold cpg in H1, H2.
  assert (Hk : (S k < window_count cfg chunks)%nat) by nia.
  assert (Hin : ∀ j : nat, (j = k ∨ j = S k) →
            c ∈ slice chunks (Z.of_nat j * cpg)
                  (Z.of_nat j * cpg + maxChunksPerGroup cfg)).
  { intros j Hj. rewrite slice_window by nia.
    apply (list_elem_of_lookup_2 _
             (Z.to_nat (Z.of_nat (S k) * cpg) - Z.to_nat (Z.of_nat j * cpg))).
    rewrite lookup_take_lt by (destruct Hj as [-> | ->]; nia).
    rewrite lookup_drop, <- Hc. f_equal. destruct Hj as [-> | ->]; nia. }
  eexists _, _, _. split; [by apply createChunkGroups_steps|].
  rewrite !list_lookup_fmap, !lookup_seq_lt by lia. simpl.
  split; [done|]. split; [done|].
  split_and!; try (apply Hin; auto);
    apply list_elem_of_omap; exists c; (split; [apply Hin; auto | done]).
Qed.

Lemma createChunkGroups_windows_share_witness :
  ∃ groups g g',
    createChunkGroups (length demo_chunks) DEFAULT_CHUNKING_CONFIG demo_chunks
    = Some groups
    ∧ groups !! 0%nat = Some g ∧ groups !! 1%nat = Some g'
    ∧ 12 ∈ chunk_ids g ∧ 12 ∈ chunk_ids g'
    ∧ demo_chunk 2 "third one"
        ∈ slice demo_chunks (Z.of_nat 0 * 2) (Z.of_nat 0 * 2 + 3)
    ∧ demo_chunk 2 "third one"
        ∈ slice demo_chunks (Z.of_nat 1 * 2) (Z.of_nat 1 * 2 + 3).
Proof.
  apply (createChunkGroups_windows_share DEFAULT_CHUNKING_CONFIG demo_chunks 0
           (demo_chunk 2 "third one") 12); simpl; (lia || reflexivity).
Defined.

(** ** Processing one document ([processContent]) *)

Inductive content_status := content_pending | content_chunked | content_failed.

(** [CrawledContent], as [processBatch] builds it from a row. *)
Record CrawledContent := {
  cc_id : Z;
  cc_url : jsstring;
  cc_title : jsstring;
  cc_raw_text : jsstring;
  cc_code_snippets : list jsstring;
  cc_content_type : ContentType;
  cc_total_tokens : option Z;
  cc_status : content_status
}.

(** What a call of [processContent] leaves behind: its result, the status
    it wrote on the document (if any), the chunks and groups it made and
    the number of groups saved. *)
Record content_run := {
  cr_result : bool;
  cr_status : option content_status;
  cr_chunks : list ContentChunk;
  cr_groups : list ChunkGroup;
  cr_savedGroups : nat
}.

Section ProcessContent.
(** The queries of the worker: the insert of a chunk (its id, or [None]
    when the query throws), the insert of a group and the update of the
    status of the document ([false] when the query throws). *)
Variable insert_chunk : Z → nat → jsstring → Z → ContentType → option Z.
Variable insert_group : ChunkGroup → bool.
Variable update_status : Z → content_status → bool.

(** [saveChunkGroups]: the number of groups whose insert went through. *)
Fixpoint saveChunkGroups (groups : list ChunkGroup) : nat :=
  match groups with
  | [] => 0
  | group :: rest =>
      if insert_group group then S (saveChunkGroups rest)
      else saveChunkGroups rest
  end.

(** [processContent(content)]; [None] when [chunkText] or
    [createChunkGroups] has not returned within the fuel. *)
Definition processContent (fuel : nat) (cfg : ChunkingConfig)
    (content : CrawledContent) : option content_run :=
  textChunks ← chunkText fuel cfg (cc_raw_text content) (cc_content_type content);
  if (length textChunks =? 0)%nat then
    Some {| cr_result := false; cr_status := None; cr_chunks := [];
            cr_groups := []; cr_savedGroups := 0 |}
  else
    let savedChunks :=
      saveChunks insert_chunk (cc_id content) textChunks (cc_content_type content) in
    if (length savedChunks =? 0)%nat then
      Some {| cr_result := false; cr_status := None; cr_chunks := [];
              cr_groups := []; cr_savedGroups := 0 |}
    else
      chunkGroups ← createChunkGroups fuel cfg savedChunks;
      let savedGroupsCount := saveChunkGroups chunkGroups in
      if update_status (cc_id content) content_chunked then
        Some {| cr_result := true; cr_status := Some content_chunked;
                cr_chunks := savedChunks; cr_groups := chunkGroups;
                cr_savedGroups := savedGroupsCount |}
      else
        (* catch: mark as failed, unless that update throws as well *)
        Some {| cr_result := false;
                cr_status :=
                  if update_status (cc_id content) content_failed
                  then Some content_failed else None;
                cr_chunks := savedChunks; cr_groups := chunkGroups;
                cr_savedGroups := savedGroupsCount |}.

Lemma saveChunkGroups_le (groups : list ChunkGroup) :
  (saveChunkGroups groups <= length groups)%nat.
Proof.
  induction groups as [|g groups IH]; simpl; [lia|].
  destruct (insert_group g); simpl; lia.
Qed.
End ProcessContent.

Lemma chunkText_total cfg text contentType fuel :
  overlapChars cfg < maxCharsPerChunk cfg →
  (length text <= fuel)%nat →
  chunkText fuel cfg text contentType = Some (packChunks cfg text).
Proof.
  intros Hstep Hfuel. unfold chunkText.
  destruct (packChunks cfg text) as [|c l] eqn:Hp; simpl; [|done].
  destruct (0 <? length text)%nat; [|done].
  set (step := maxCharsPerChunk cfg - overlapChars cfg).
  set (n := steps_to (Z.of_nat (length text)) step).
  destruct (steps_to_spec (Z.of_nat (length text)) step) as [H1 H2]; [lia..|].
  fold n in H1, H2.
  assert (Hn : (n <= fuel)%nat).
  { destruct (decide (0 < n)%nat) as [Hpos|]; [|lia].
    specialize (H2 Hpos). nia. }
  assert (Hsteps := fallback_loop_steps cfg text n fuel 0 [] ltac:(lia) Hn
                      ltac:(fold step; lia) ltac:(fold step; intros; auto with lia)).
  assert (Hret := Hsteps).
  apply fallback_loop_ws in Hret; [|by apply (packChunks_nil cfg)].
  unfold fallbackChunking. rewrite Hsteps. by rewrite Hret.
Qed.

(** X15. With [chunksPerGroup >= 1] and [overlapChars <
    maxCharsPerChunk], [processContent] returns once its loops are given
    one iteration per character of the text and per chunk.  It answers
    [true] exactly when at least one chunk was saved and the update to
    [chunked] went through, whatever became of the groups.  It writes
    [failed] only when that update throws; when the text yields no chunk
    or no chunk could be saved it answers [false] and writes no status,
    so the document stays [pending]. *)
Theorem processContent_outcomes
    (insert_chunk : Z → nat → jsstring → Z → ContentType → option Z)
    (insert_group : ChunkGroup → bool)
    (update_status : Z → content_status → bool)
    (cfg : ChunkingConfig) (content : CrawledContent) :
  1 <= chunksPerGroup cfg →
  overlapChars cfg < maxCharsPerChunk cfg →
  let saved :=
    saveChunks insert_chunk (cc_id content)
      (packChunks cfg (cc_raw_text content)) (cc_content_type content) in
  ∃ run,
    (∀ fuel,
       (length (cc_raw_text content) <= fuel)%nat →
       (length (packChunks cfg (cc_raw_text content)) <= fuel)%nat →
       processContent insert_chunk insert_group update_status fuel cfg content
       = Some run)
    ∧ (cr_result run = true
       ↔ saved ≠ [] ∧ update_status (cc_id content) content_chunked = true)
    ∧ (cr_result run = true →
       cr_status run = Some content_chunked ∧ cr_chunks run = saved)
    ∧ (saved = [] → cr_status run = None)
    ∧ (cr_status run = Some content_failed →
       update_status (cc_id content) content_chunked = false)
    ∧ (cr_savedGroups run <= length (cr_groups run))%nat.
Proof.
  intros Hstep Hfb saved.
  assert (Hsaved : (length saved <= length (packChunks cfg (cc_raw_text content)))%nat).
  { unfold saved, saveChunks.
    by destruct (save_loop_spec insert_chunk (cc_id content)
                   (cc_content_type content) 0
                   (packChunks cfg (cc_raw_text content))) as (_ & _ & ?). }
  destruct (packChunks cfg (cc_raw_text content)) as [|c0 l0] eqn:Hp.
  { eexists. split.
    - intros fuel Hf _. unfold processContent.
      rewrite chunkText_total by done. rewrite Hp. simpl. reflexivity.
    - simpl. split_and!; try done. split; [done | by intros [? _]]. }
  destruct saved as [|s0 sl] eqn:Hs.
  { eexists. split.
    - intros fuel Hf _. unfold processContent.
      rewrite chunkText_total by done. rewrite Hp. simpl.
      fold saved. rewrite Hs. simpl. reflexivity.
    - simpl. split_and!; try done. split; [done | by intros [? _]]. }
  destruct (update_status (cc_id content) content_chunked) eqn:Hup.
  - eexists. split.
    + intros fuel Hf Hf'. unfold processContent.
      rewrite chunkText_total by done. rewrite Hp. simpl.
      fold saved. rewrite Hs. simpl.
      rewrite (createChunkGroups_steps cfg (s0 :: sl) Hstep fuel) by (simpl in *; lia).
      simpl. rewrite Hup. reflexivity.
    + simpl. split_and!; try done. apply saveChunkGroups_le.
  - eexists. split.
    + intros fuel Hf Hf'. unfold processContent.
      rewrite chunkText_total by done. rewrite Hp. simpl.
      fold saved. rewrite Hs. simpl.
      rewrite (createChunkGroups_steps cfg (s0 :: sl) Hstep fuel) by (simpl in *; lia).
      simpl. rewrite Hup. reflexivity.
    + simpl. split_and!; try done.
      * split; [done | by intros [_ ?]].
      * apply saveChunkGroups_le.
Qed.

Definition demo_content : CrawledContent :=
  {| cc_id := 7; cc_url := str "https://example.org/post"; cc_title := str "Post";
     cc_raw_text := small_text; cc_code_snippets := [];
     cc_content_type := article; cc_total_tokens := Some 7;
     cc_status := content_pending |}.

Lemma processContent_outcomes_witness :
  let insert_chunk := λ (_ : Z) (i : nat) (_ : jsstring) (_ : Z) (_ : ContentType),
                        Some (100 + Z.of_nat i) in
  let insert_group := λ _ : ChunkGroup, true in
  let update_status := λ (_ : Z) (_ : content_status), true in
  let saved :=
    saveChunks insert_chunk (cc_id demo_content)
      (packChunks DEFAULT_CHUNKING_CONFIG (cc_raw_text demo_content))
      (cc_content_type demo_content) in
  ∃ run,
    (∀ fuel,
       (length (cc_raw_text demo_content) <= fuel)%nat →
       (length (packChunks DEFAULT_CHUNKING_CONFIG (cc_raw_text demo_content))
        <= fuel)%nat →
       processContent insert_chunk insert_group update_status fuel
         DEFAULT_CHUNKING_CONFIG demo_content
       = Some run)
    ∧ (cr_result run = true
       ↔ saved ≠ [] ∧ update_status (cc_id demo_content) content_chunked = true)
    ∧ (cr_result run = true →
       cr_status run = Some content_chunked ∧ cr_chunks run = saved)
    ∧ (saved = [] → cr_status run = None)
    ∧ (cr_status run = Some content_failed →
       update_status (cc_id demo_content) content_chunked = false)
    ∧ (cr_savedGroups run <= length (cr_groups run))%nat.
Proof.
  apply (processContent_outcomes
           (λ _ i _ _ _, Some (100 + Z.of_nat i)) (λ _, true) (λ _ _, true)
           DEFAULT_CHUNKING_CONFIG demo_content); simpl; lia.
Defined.

(** A blank document is answered [false] with no status written. *)
Example processContent_blank :
  processContent (λ _ i _ _ _, Some (100 + Z.of_nat i)) (λ _, true) (λ _ _, true)
    10 DEFAULT_CHUNKING_CONFIG
    {| cc_id := 8; cc_url := str "u"; cc_title := str "t";
       cc_raw_text := [SP; NL; SP]; cc_code_snippets := [];
       cc_content_type := article; cc_total_tokens := Some 1;
       cc_status := content_pending |}
  = Some {| cr_result := false; cr_status := None; cr_chunks := [];
            cr_groups := []; cr_savedGroups := 0 |}.
Proof. reflexivity. Qed.

(** ** The staging buffer and the final summary, continued *)

Module SummarizerRun.
Import Summarizer SummarizerFacts.

Lemma getPartialSummaries_contents JSON_parse cid db :
  getPartialSummaries JSON_parse cid db
  = mapM JSON_parse (reverse (contents db (queueKey cid))).
Proof. unfold getPartialSummaries. by rewrite lRange_all. Qed.

Lemma contents_del (key key' : string) (db : gmap string (list jsstring)) :
  contents (del key db) key' = if decide (key = key') then [] else contents db key'.
Proof.
  unfold contents, del. case_decide as Hk.
  - subst. by rewrite lookup_delete_eq.
  - by rewrite lookup_delete_ne.
Qed.

Lemma mapM_snoc {A B} (f : A → option B) (l : list A) (x : A) :
  mapM f (l ++ [x]) = k ← mapM f l; y ← f x; Some (k ++ [y]).
Proof.
  induction l as [|a l IH]; simpl.
  - by destruct (f x).
  - destruct (f a); simpl; [|done]. rewrite IH.
    destruct (mapM f l); simpl; [|done]. by destruct (f x).
Qed.

(** X16. The staging buffer of a document reads as empty when nothing
    was stored for it and after [cleanupPartialSummaries]; storing or
    cleaning up for another document does not change it; storing one more
    summary appends it to what is read, and a stored text that does not
    parse back makes the whole read fail. *)
Theorem staging_buffer_operations
    (JSON_stringify : SummarizedContent → jsstring)
    (JSON_parse : jsstring → option SummarizedContent)
    (crawledContentId : Z) (db : gmap string (list jsstring)) :
  (db !! queueKey crawledContentId = None →
   getPartialSummaries JSON_parse crawledContentId db = Some [])
  ∧ getPartialSummaries JSON_parse crawledContentId
      (cleanupPartialSummaries crawledContentId db) = Some []
  ∧ (∀ other s, other ≠ crawledContentId →
       getPartialSummaries JSON_parse crawledContentId
         (cleanupPartialSummaries other db)
       = getPartialSummaries JSON_parse crawledContentId db
       ∧ getPartialSummaries JSON_parse crawledContentId
           (storePartialSummary JSON_stringify other s db)
         = getPartialSummaries JSON_parse crawledContentId db)
  ∧ (∀ s, getPartialSummaries JSON_parse crawledContentId
            (storePartialSummary JSON_stringify crawledContentId s db)
          = staged ← getPartialSummaries JSON_parse crawledContentId db;
            s' ← JSON_parse (JSON_stringify s);
            Some (staged ++ [s'])).
Proof.
  rewrite !getPartialSummaries_contents.
  split_and!.
  - intros Hnone. unfold contents. by rewrite Hnone.
  - unfold cleanupPartialSummaries. rewrite contents_del.
    by rewrite decide_True.
  - intros other s Hne. rewrite !getPartialSummaries_contents.
    unfold cleanupPartialSummaries, storePartialSummary.
    rewrite contents_del, contents_lPush.
    rewrite !decide_False; [done|..]; intros Hk; by apply queueKey_inj in Hk.
  - intros s. rewrite !getPartialSummaries_contents.
    unfold storePartialSummary. rewrite contents_lPush, decide_True by done.
    by rewrite reverse_cons, mapM_snoc.
Qed.
(** The merge that [createFinalSummary] runs on a buffer of other than
    one partial summary: the second branch of its definition. *)
Definition merge_summaries
    (chat_completion : completion_request → option jsstring)
    (parse_response : jsstring → option AiResponse) (now : Z)
    (partialSummaries : list SummarizedContent)
    (contentData : ContentWithGroups)
    : option SummarizedContent * list completion_request :=
  let pooled :=
    filter (λ point, (0 < length (trim point))%nat)
           (partialSummaries ≫= key_points) in
  let request :=
    {| system_prompt := final_system_prompt;
       user_prompt :=
         final_user_prompt contentData
           (join [NL; NL] (part_lines 0 partialSummaries)) pooled;
       max_tokens := 1200 |} in
  match chat_completion request with
  | None => (None, [request])
  | Some responseContent =>
      let aiResponse :=
        match parse_response responseContent with
        | Some r => Some r
        | None =>
            bestPartial ← head partialSummaries;
            Some {| ai_summary := Some (summary bestPartial);
                    ai_keyPoints := Some (take 6 pooled);
                    ai_category := Some (category bestPartial);
                    ai_sentiment := Some (sentiment bestPartial) |}
        end in
      let read_first (field : SummarizedContent → jsstring)
            (x : option jsstring) : option jsstring :=
        match x with
        | Some (c :: s) => Some (c :: s)
        | _ => field <$> head partialSummaries
        end in
      (aiResponse ≫= λ r,
         sentiment' ← read_first sentiment (ai_sentiment r);
         category' ← read_first category (ai_category r);
         Some {| id := None;
                 url := cd_url contentData;
                 title := cd_title contentData;
                 original_text :=
                   take (Z.to_nat 15000)
                     (join [NL; NL] (original_text <$> partialSummaries));
                 summary :=
                   or_string (ai_summary r) (str "Final summary not available");
                 key_points := or_array (ai_keyPoints r) (take 6 pooled);
                 code_snippets := [];
                 content_type := cd_content_type contentData;
                 sentiment := sentiment';
                 category := category';
                 crawled_at := cd_crawled_at contentData;
                 summarized_at := now;
                 crawled_content_id := Some (cd_id contentData);
                 chunk_group_id := None;
                 is_partial_summary := false |},
       [request])
  end.

Lemma createFinalSummary_merge chat_completion parse_response now
    partialSummaries contentData :
  length partialSummaries ≠ 1%nat →
  createFinalSummary chat_completion parse_response now partialSummaries
    contentData
  = merge_summaries chat_completion parse_response now partialSummaries
      contentData.
Proof. by destruct partialSummaries as [|p0 [|p1 rest]]. Qed.

Lemma or_string_nonempty (x : option jsstring) (d : jsstring) :
  d ≠ [] → or_string x d ≠ [].
Proof. by destruct x as [[|c s]|]. Qed.

(** X17. A final summary that [createFinalSummary] makes from a buffer
    of other than one partial summary comes from one answered merge
    request; it is flagged as not partial, carries the url, title, type,
    crawl date and id of the document, no code snippets, at most 15000
    characters of original text and a summary that is not empty.  When the
    answer cannot be parsed, it falls back on the first partial summary
    for summary, category and sentiment and on the first six non-blank
    key points of all partial summaries, in buffer order, duplicates
    included. *)
Theorem createFinalSummary_merged
    (chat_completion : completion_request → option jsstring)
    (parse_response : jsstring → option AiResponse) (now : Z)
    (partialSummaries : list SummarizedContent)
    (contentData : ContentWithGroups) (final : SummarizedContent) :
  length partialSummaries ≠ 1%nat →
  (createFinalSummary chat_completion parse_response now partialSummaries
     contentData).1 = Some final →
  let pooled :=
    filter (λ point, (0 < length (trim point))%nat)
           (partialSummaries ≫= key_points) in
  is_partial_summary final = false
  ∧ url final = cd_url contentData ∧ title final = cd_title contentData
  ∧ content_type final = cd_content_type contentData
  ∧ crawled_at final = cd_crawled_at contentData
  ∧ summarized_at final = now
  ∧ crawled_content_id final = Some (cd_id contentData)
  ∧ chunk_group_id final = None ∧ code_snippets final = []
  ∧ (length (original_text final) <= Z.to_nat 15000)%nat
  ∧ summary final ≠ []
  ∧ ∃ request answer,
      (createFinalSummary chat_completion parse_response now partialSummaries
         contentData).2 = [request]
      ∧ chat_completion request = Some answer
      ∧ (parse_response answer = None →
         ∃ first, head partialSummaries = Some first
           ∧ summary final
             = (if decide (summary first = [])
                then str "Final summary not available" else summary first)
           ∧ category final = category first
           ∧ sentiment final = sentiment first
           ∧ key_points final = take 6 pooled).
Proof.
  intros Hlen. rewrite createFinalSummary_merge by done.
  unfold merge_summaries. cbv zeta.
  match goal with
  | |- context [chat_completion ?r] =>
      set (request := r); destruct (chat_completion request) as [answer|] eqn:Hchat
  end; [|done].
  cbn [fst snd].
  destruct (parse_response answer) as [r|] eqn:Hparse.
  - cbn [mbind option_bind]. intros Hfinal.
    apply bind_Some in Hfinal as (sentiment' & _ & Hfinal).
    apply bind_Some in Hfinal as (category' & _ & [= <-]). cbn.
    split_and!; try done.
    + rewrite length_take. lia.
    + by apply or_string_nonempty.
    + exists request, answer. split_and!; try done. congruence.
  - destruct (head partialSummaries) as [first|] eqn:Hhead; [|done].
    cbn [mbind option_bind ai_sentiment ai_category ai_summary ai_keyPoints].
    intros Hfinal.
    apply bind_Some in Hfinal as (sentiment' & Hs & Hfinal).
    apply bind_Some in Hfinal as (category' & Hc & [= <-]). cbn.
    split_and!; try done.
    + rewrite length_take. lia.
    + by destruct (summary first).
    + exists request, answer. split_and!; try done.
      intros _. exists first. split_and!; try done.
      * by destruct (summary first).
      * revert Hc. destruct (category first) eqn:E; cbn; rewrite ?E; by intros [= <-].
      * revert Hs. destruct (sentiment first) eqn:E; cbn; rewrite ?E; by intros [= <-].
Qed.
Definition demo_contentData : ContentWithGroups :=
  {| cd_id := 1; cd_url := str "https://example.org/post";
     cd_title := str "Post"; cd_content_type := str "article";
     cd_crawled_at := 1700000000000; cd_groups := [] |}.

Definition demo_final : SummarizedContent :=
  {| id := None; url := str "https://example.org/post"; title := str "Post";
     original_text := str "text" ++ [NL; NL] ++ str "text";
     summary := str "part one";
     key_points := [str "point"; str "point"]; code_snippets := [];
     content_type := str "article"; sentiment := str "neutral";
     category := str "General"; crawled_at := 1700000000000;
     summarized_at := 5; crawled_content_id := Some 1;
     chunk_group_id := None; is_partial_summary := false |}.

Lemma createFinalSummary_merged_witness :
  let chat_completion := λ _ : completion_request, Some (str "not json") in
  let parse_response := λ _ : jsstring, @None AiResponse in
  let partialSummaries :=
    [demo_summary "part one" true; demo_summary "part two" true] in
  let pooled :=
    filter (λ point, (0 < length (trim point))%nat)
           (partialSummaries ≫= key_points) in
  is_partial_summary demo_final = false
  ∧ url demo_final = cd_url demo_contentData
  ∧ title demo_final = cd_title demo_contentData
  ∧ content_type demo_final = cd_content_type demo_contentData
  ∧ crawled_at demo_final = cd_crawled_at demo_contentData
  ∧ summarized_at demo_final = 5
  ∧ crawled_content_id demo_final = Some (cd_id demo_contentData)
  ∧ chunk_group_id demo_final = None ∧ code_snippets demo_final = []
  ∧ (length (original_text demo_final) <= Z.to_nat 15000)%nat
  ∧ summary demo_final ≠ []
  ∧ ∃ request answer,
      (createFinalSummary chat_completion parse_response 5 partialSummaries
         demo_contentData).2 = [request]
      ∧ chat_completion request = Some answer
      ∧ (parse_response answer = None →
         ∃ first, head partialSummaries = Some first
           ∧ summary demo_final
             = (if decide (summary first = [])
                then str "Final summary not available" else summary first)
           ∧ category demo_final = category first
           ∧ sentiment demo_final = sentiment first
           ∧ key_points demo_final = take 6 pooled).
Proof.
  apply (createFinalSummary_merged
           (λ _, Some (str "not json")) (λ _, None) 5
           [demo_summary "part one" true; demo_summary "part two" true]
           demo_contentData demo_final).
  - discriminate.
  - reflexivity.
Defined.

(** ** Processing one article ([processArticle]) *)

(** The state after the loop over the groups: whether a query threw, the
    staging buffer, the number of partial summaries made and the status
    updates that went through, in order. *)
Record groups_pass := {
  gp_thrown : bool;
  gp_db : gmap string (list jsstring);
  gp_successes : nat;
  gp_updates : list (ChunkGroup * group_status)
}.

(** What a call of [processArticle] leaves behind. *)
Record article_run := {
  ar_result : bool;
  ar_db : gmap string (list jsstring);
  ar_updates : list (ChunkGroup * group_status);
  ar_saved : option SummarizedContent;
  ar_requests : list completion_request
}.

Section Article.
Variable JSON_stringify : SummarizedContent → jsstring.
Variable JSON_parse : jsstring → option SummarizedContent.
Variable chat_completion : completion_request → option jsstring.
Variable parse_response : jsstring → option AiResponse.
Variable now : Z.
Variable summarizeChunkGroup :
  ChunkGroup → jsstring → jsstring → Z → nat → option SummarizedContent.

(** The update of the status of a group ([false]: the query throws, which
    ends [processArticle] in its [catch]) and [saveSummary], which
    answers whether its insert went through.  The Redis commands are
    modelled by their effect on the lists. *)
Variable update_group_status : ChunkGroup → group_status → bool.
Variable saveSummary : SummarizedContent → bool.

Fixpoint process_groups (contentData : ContentWithGroups)
    (groups : list ChunkGroup) (db : gmap string (list jsstring))
    (successfulSummaries : nat) (updates : list (ChunkGroup * group_status))
    : groups_pass :=
  match groups with
  | [] =>
      {| gp_thrown := false; gp_db := db;
         gp_successes := successfulSummaries; gp_updates := updates |}
  | group :: rest =>
      match summarizeChunkGroup group (cd_title contentData)
              (cd_content_type contentData) (group_index group)
              (length (cd_groups contentData)) with
      | Some partialSummary =>
          let partialSummary' :=
            fill_in (cd_url contentData) (cd_id contentData)
                    (cd_crawled_at contentData) partialSummary in
          let db' :=
            storePartialSummary JSON_stringify (cd_id contentData)
              partialSummary' db in
          if update_group_status group summarized then
            process_groups contentData rest db' (S successfulSummaries)
              (updates ++ [(group, summarized)])
          else
            {| gp_thrown := true; gp_db := db';
               gp_successes := S successfulSummaries; gp_updates := updates |}
      | None =>
          if update_group_status group failed then
            process_groups contentData rest db successfulSummaries
              (updates ++ [(group, failed)])
          else
            {| gp_thrown := true; gp_db := db;
               gp_successes := successfulSummaries; gp_updates := updates |}
      end
  end.

Definition processArticle (contentData : ContentWithGroups)
    (db : gmap string (list jsstring)) : article_run :=
  let pass := process_groups contentData (cd_groups contentData) db 0 [] in
  let answer_false (requests : list completion_request) :=
    {| ar_result := false; ar_db := gp_db pass; ar_updates := gp_updates pass;
       ar_saved := None; ar_requests := requests |} in
  if gp_thrown pass then answer_false []
  else if (gp_successes pass =? 0)%nat then answer_false []
  else
    match getPartialSummaries JSON_parse (cd_id contentData) (gp_db pass) with
    | None => answer_false []
    | Some partialSummaries =>
        let made :=
          createFinalSummary chat_completion parse_response now
            partialSummaries contentData in
        match made.1 with
        | Some finalSummary =>
            if saveSummary finalSummary then
              {| ar_result := true;
                 ar_db := cleanupPartialSummaries (cd_id contentData) (gp_db pass);
                 ar_updates := gp_updates pass;
                 ar_saved := Some finalSummary;
                 ar_requests := made.2 |}
            else answer_false made.2
        | None => answer_false made.2
        end
    end.
End Article.









Definition demo_group (i : Z) (t : string) : ChunkGroup :=
  {| group_content_id := 1; chunk_ids := [i]; group_index := i;
     combined_text := str t; combined_tokens := 3; status := pending |}.

(** A summarizer that answers for every group but the one of index 1. *)
Definition demo_summarizer (group : ChunkGroup) (title type : jsstring)
    (groupIndex : Z) (totalGroups : nat) : option SummarizedContent :=
  if groupIndex =? 1 then None
  else Some (demo_summary "part" true).

Definition demo_article : ContentWithGroups :=
  {| cd_id := 1; cd_url := str "https://example.org/post";
     cd_title := str "Post"; cd_content_type := str "article";
     cd_crawled_at := 1700000000000;
     cd_groups := [demo_group 0 "a"; demo_group 1 "b"; demo_group 2 "c"] |}.


(** With three groups of which the second fails, the article is still
    summarized from the other two and the statuses record the failure. *)
Example processArticle_partial_failure :
  let run :=
    processArticle demo_stringify demo_parse (λ _, Some (str "not json"))
      (λ _, None) 5 demo_summarizer (λ _ _, true) (λ _, true) demo_article ∅ in
  ar_result run = true
  ∧ snd <$> ar_updates run = [summarized; failed; summarized]
  ∧ (summary <$> ar_saved run) = Some (str "part")
  ∧ length (ar_requests run) = 1%nat.
Proof. vm_compute. done. Qed.
End SummarizerRun.

(** ** Sentence boundaries *)

Lemma is_upper_not_ws (c : char) : is_upper c = true → is_ws c = false.
Proof.
  unfold is_upper, is_ws. intros H.
  apply andb_true_iff in H as [H1 H2].
  apply N.leb_le in H1. apply N.leb_le in H2.
  rewrite !orb_false_iff, !andb_false_iff, !N.leb_gt, !N.eqb_neq. lia.
Qed.

Lemma is_terminal_punct_not_ws (c : char) :
  is_terminal_punct c = true → is_ws c = false.
Proof.
  unfold is_terminal_punct. intros H.
  repeat (apply orb_true_iff in H as [H | H]); apply N.eqb_eq in H as ->; done.
Qed.

(** A sentence ends at the head of [s]: a full stop, exclamation mark or
    question mark, then whitespace up to offset [n], then a capital
    letter. *)
Definition sentence_at (s : jsstring) (n : nat) : Prop :=
  ∃ c u, s !! 0%nat = Some c ∧ is_terminal_punct c = true ∧ (2 <= n)%nat
         ∧ ws_between s 1 n ∧ s !! n = Some u ∧ is_upper u = true.

(** [e] is the offset just after the punctuation of such a sentence end. *)
Definition sentence_break (text : jsstring) (e : nat) : Prop :=
  ∃ p n, e = (p + 1)%nat ∧ sentence_at (drop p text) n.

Lemma match_ahead_upper (s : jsstring) :
  match_seq [Ahead is_upper] s
  = match s with
    | x :: _ => if is_upper x then Some 0%nat else None
    | [] => None
    end.
Proof. destruct s as [|x s]; [done|]. simpl. by destruct (is_upper x). Qed.

Lemma greedy_ws_upper (s : jsstring) (m : nat) :
  greedy is_ws (match_seq [Ahead is_upper]) s = Some m
  ↔ ws_between s 0 m ∧ ∃ u, s !! m = Some u ∧ is_upper u = true.
Proof.
  revert m. induction s as [|c s IH]; intros m.
  - simpl. split; [done|]. by intros (_ & u & H & _).
  - cbn [greedy]. rewrite match_ahead_upper.
    destruct (is_ws c) eqn:Hc.
    + assert (is_upper c = false) as Hup.
      { destruct (is_upper c) eqn:Hu; [|done].
        apply is_upper_not_ws in Hu. congruence. }
      rewrite Hup.
      destruct (greedy is_ws (match_seq [Ahead is_upper]) s) as [n|] eqn:Hg.
      * pose proof (proj1 (IH n) eq_refl) as (Hn1 & u & Hn2 & Hn3). split.
        -- intros [= <-]. split; [by apply ws_between_0|]. by exists u.
        -- intros (Hm1 & u' & Hm2 & Hm3). destruct m as [|m].
           { simpl in Hm2. injection Hm2 as <-. congruence. }
           apply ws_between_0 in Hm1 as [_ Hm1].
           assert (Some n = Some m) as [= ->]; [|done].
           apply IH. split; [done|]. by exists u'.
      * split; [done|]. intros (Hm1 & u' & Hm2 & Hm3). destruct m as [|m].
        { simpl in Hm2. injection Hm2 as <-. congruence. }
        apply ws_between_0 in Hm1 as [_ Hm1].
        assert (None = Some m) as Hcontra; [|done].
        apply IH. split; [done|]. by exists u'.
    + destruct (is_upper c) eqn:Hup.
      * split.
        -- intros [= <-]. split; [intros j Hj; lia|]. by exists c.
        -- intros (Hm1 & _). destruct m as [|m]; [done|].
           destruct (Hm1 0%nat ltac:(lia)) as (x & [= <-] & Hx). congruence.
      * split; [done|]. intros (Hm1 & u' & Hm2 & Hm3). destruct m as [|m].
        { simpl in Hm2. injection Hm2 as <-. congruence. }
        destruct (Hm1 0%nat ltac:(lia)) as (x & [= <-] & Hx). congruence.
Qed.

Lemma sentence_match_unfold (s : jsstring) :
  regex_match sentenceRegex s
  = match s with
    | c :: x :: s' =>
        if is_terminal_punct c && is_ws x
        then (λ m, S (S m)) <$> greedy is_ws (match_seq [Ahead is_upper]) s'
        else None
    | _ => None
    end.
Proof.
  destruct s as [|c [|x s]]; unfold sentenceRegex; cbn [regex_match].
  - done.
  - simpl. by destruct (is_terminal_punct c).
  - change (match_seq [Class is_terminal_punct; Plus is_ws; Ahead is_upper]
              (c :: x :: s))
      with (if is_terminal_punct c
            then S <$> (if is_ws x
                        then S <$> greedy is_ws (match_seq [Ahead is_upper]) s
                        else None)
            else None).
    destruct (is_terminal_punct c), (is_ws x); try done.
    by destruct (greedy is_ws (match_seq [Ahead is_upper]) s).
Qed.

Lemma sentence_match (s : jsstring) (n : nat) :
  regex_match sentenceRegex s = Some n ↔ sentence_at s n.
Proof.
  rewrite sentence_match_unfold. unfold sentence_at.
  destruct s as [|c [|x s]].
  - split; [done|]. by intros (? & ? & ? & _).
  - split; [done|]. intros (c' & u & _ & _ & Hn & _ & Hu & _).
    destruct n as [|[|n]]; [lia | lia | done].
  - destruct (is_terminal_punct c) eqn:Hc; cbn [andb].
    + destruct (is_ws x) eqn:Hx; cbn [andb].
      * split.
        -- intros H. apply fmap_Some in H as (m & Hm & ->).
           apply greedy_ws_upper in Hm as (Hm1 & u & Hm2 & Hm3).
           exists c, u. split_and!; try done; [lia|].
           intros j Hj. destruct j as [|[|j]]; [lia | by exists x |].
           simpl. apply Hm1. lia.
        -- intros (c' & u & _ & _ & Hn & Hws & Hu & Hup).
           destruct n as [|[|n]]; [lia | lia |].
           rewrite (proj2 (greedy_ws_upper s n)); [done|].
           split; [|by exists u].
           intros j Hj. apply (Hws (S (S j))). lia.
      * split; [done|]. intros (c' & u & _ & _ & Hn & Hws & _).
        destruct (Hws 1%nat ltac:(lia)) as (y & [= <-] & Hy). congruence.
    + split; [done|]. intros (c' & u & [= <-] & Hp & _). congruence.
Qed.

Lemma exec_sentence_ends (s : jsstring) (pos skip e : nat) :
  (∃ p n, (p, n) ∈ exec_from sentenceRegex s pos skip ∧ e = (p + 1)%nat)
  ↔ ∃ p n, (skip <= p)%nat ∧ e = (pos + p + 1)%nat ∧ sentence_at (drop p s) n.
Proof.
  revert pos skip. induction s as [|c s IH]; intros pos skip.
  - simpl. split.
    + intros (p & n & H & _). by apply elem_of_nil in H.
    + intros (p & n & _ & _ & Hs). rewrite drop_nil in Hs.
      by destruct Hs as (? & ? & ? & _).
  - cbn [exec_from]. destruct skip as [|skip].
    + destruct (regex_match sentenceRegex (c :: s)) as [n|] eqn:Hm.
      * pose proof (proj1 (sentence_match _ _) Hm) as Hn.
        split.
        -- intros (p & m & Hin & ->).
           apply elem_of_cons in Hin as [[= -> ->] | Hin].
           ++ exists 0%nat, n. split; [lia|]. split; [lia | done].
           ++ destruct (proj1 (IH (S pos) (pred n)) ltac:(eauto))
                as (q & m' & Hq & He & Hs).
              exists (S q), m'. split; [lia|]. split; [lia | done].
        -- intros (p & m & _ & -> & Hs). destruct p as [|p].
           { exists pos, n. split; [left | lia]. }
           destruct (decide (pred n <= p)%nat) as [Hge | Hlt].
           ++ destruct (proj2 (IH (S pos) (pred n))) as (q & m' & Hin & He).
              { exists p, m. split; [done|]. split; [lia | done]. }
              exists q, m'. split; [by right | lia].
           ++ exfalso. destruct Hn as (c0 & u0 & _ & _ & _ & Hws & _).
              destruct Hs as (c1 & u1 & H1 & Hp1 & _).
              destruct (Hws (S p) ltac:(lia)) as (y & Hy & Hyws).
              unfold jsstring in *.
              rewrite lookup_drop, Nat.add_0_r in H1.
              rewrite H1 in Hy. injection Hy as <-.
              apply is_terminal_punct_not_ws in Hp1. congruence.
      * rewrite IH. split.
        -- intros (p & n & _ & -> & Hs). exists (S p), n.
           split; [lia|]. split; [lia | done].
        -- intros (p & n & _ & -> & Hs). destruct p as [|p].
           { change (drop 0 (c :: s)) with (c :: s) in Hs.
             apply sentence_match in Hs. congruence. }
           exists p, n. split; [lia|]. split; [lia | done].
    + rewrite IH. split.
      * intros (p & n & Hp & -> & Hs). exists (S p), n.
        split; [lia|]. split; [lia | done].
      * intros (p & n & Hp & -> & Hs). destruct p as [|p]; [lia|].
        exists p, n. split; [lia|]. split; [lia | done].
Qed.

Lemma sentence_candidates (text : jsstring) :
  filter (λ b, type b = sentence) (candidates text)
  = (λ m, {| index := m.1 + 1; type := sentence; priority := 50 |})
      <$> exec_all sentenceRegex text.
Proof.
  unfold candidates. rewrite !filter_app.
  rewrite (filter_keeps_none _ (_ <$> exec_all paragraphRegex text)).
  2:{ apply Forall_fmap, Forall_forall. by intros. }
  rewrite (filter_keeps_none _ (_ <$> exec_all sectionRegex text)).
  2:{ apply Forall_fmap, Forall_forall. by intros. }
  rewrite (filter_keeps_none _ (_ ≫= _)).
  2:{ apply Forall_forall. intros b Hb.
      apply list_elem_of_bind in Hb as (m & Hb & _).
      repeat (apply elem_of_cons in Hb as [-> | Hb]); try done.
      by apply elem_of_nil in Hb. }
  rewrite (filter_keeps_all _ (_ <$> exec_all sentenceRegex text)).
  2:{ apply Forall_fmap, Forall_forall. by intros. }
  done.
Qed.

(** X20. [findTextBoundaries] reports a boundary of kind sentence exactly
    at the offsets just after a full stop, exclamation mark or question
    mark that is followed by one or more whitespace characters and then a
    capital letter [A-Z], once per offset and with priority 50. *)
Theorem findTextBoundaries_sentences (text : jsstring) :
  (∀ b, b ∈ findTextBoundaries text ∧ type b = sentence
        ↔ type b = sentence ∧ priority b = 50
          ∧ sentence_break text (index b))
  ∧ NoDup (index <$> filter (λ b, type b = sentence) (findTextBoundaries text)).
Proof.
  assert (Hperm : findTextBoundaries text ≡ₚ candidates text)
    by (rewrite findTextBoundaries_candidates; apply sort_by_index_perm).
  assert (Hends : ∀ e,
    (∃ p n, (p, n) ∈ exec_all sentenceRegex text ∧ e = (p + 1)%nat)
    ↔ sentence_break text e).
  { intros e. unfold exec_all. rewrite exec_sentence_ends. unfold sentence_break.
    split.
    - intros (p & n & _ & -> & Hs). by exists p, n.
    - intros (p & n & -> & Hs). exists p, n. split; [lia|]. split; [lia | done]. }
  split.
  - intros b. split.
    + intros [Hin Hty].
      assert (b ∈ filter (λ b, type b = sentence) (findTextBoundaries text))
        as Hb by (by apply list_elem_of_filter).
      rewrite Hperm, sentence_candidates in Hb.
      apply list_elem_of_fmap in Hb as ([p n] & -> & Hb). simpl.
      split; [done|]. split; [done|]. apply Hends. eauto.
    + intros (Hty & Hpr & Hbreak). split; [|done].
      apply Hends in Hbreak as (p & n & Hin & He).
      assert (b ∈ filter (λ b, type b = sentence) (findTextBoundaries text))
        as Hb; [|by apply list_elem_of_filter in Hb as [_ ?]].
      rewrite Hperm, sentence_candidates.
      apply list_elem_of_fmap. exists (p, n). split; [|done].
      destruct b; simpl in *. by subst.
  - rewrite Hperm, sentence_candidates, <- list_fmap_compose.
    pose proof (exec_from_increasing sentenceRegex text 0 0 eq_refl) as Hs.
    fold (exec_all sentenceRegex text) in Hs.
    assert (Hpos : Forall (λ m : nat * nat, (0 < m.2)%nat) (exec_all sentenceRegex text)).
    { apply Forall_forall. intros [p n] Hin. apply exec_all_in in Hin as [_ Hm].
      apply regex_match_nonempty in Hm; [done | do 3 right; left]. }
    revert Hs Hpos. generalize (exec_all sentenceRegex text).
    induction 1 as [|a l Hl IH Ha]; intros Hpos; [constructor|].
    apply Forall_cons in Hpos as [Ha0 Hpos].
    rewrite fmap_cons. constructor; [|by apply IH].
    intros Hin. apply list_elem_of_fmap in Hin as (b & Heq & Hb).
    rewrite Forall_forall in Ha. specialize (Ha b Hb). simpl in *. lia.
Qed.

(** ** Summarizing one chunk group ([summarizeChunkGroup]) *)

Module GroupSummary.
Import Summarizer SummarizerFacts SummarizerRun.

(** [`This is part ${groupIndex + 1} of ${totalGroups} parts of the
    article "${contentTitle}".`] for a document of several groups. *)
Definition contextInfo (contentTitle : jsstring) (groupIndex : Z)
    (totalGroups : nat) : jsstring :=
  if decide (1 < totalGroups)%nat
  then str "This is part " ++ str (pretty (groupIndex + 1)) ++ str " of "
       ++ str (pretty totalGroups) ++ str " parts of the article "
       ++ dquote ++ contentTitle ++ dquote ++ str "."
  else str "This is the complete article " ++ dquote ++ contentTitle
       ++ dquote ++ str ".".

Definition group_system_prompt (contentType info : jsstring) : jsstring :=
  if decide (contentType = str "code")
  then str "You are an expert technical content summarizer. You must respond in Myanmar/Burmese language only. Analyze the provided technical content and provide a summary focusing on main technical concepts, key code examples, and implementation details. " ++ info
  else str "You are an expert content summarizer. You must respond in Myanmar/Burmese language only. Analyze the provided content and provide a summary focusing on main points, key information, and important insights. " ++ info.

Definition group_user_prompt (group : ChunkGroup) (contentType info : jsstring)
    : jsstring :=
  [NL] ++ info ++ [NL]
  ++ str "Content Type: " ++ contentType ++ [NL; NL]
  ++ str "Content to Summarize:" ++ [NL]
  ++ take (Z.to_nat 12000) (combined_text group) ++ str " "
  ++ (if decide (12000 < Z.of_nat (length (combined_text group)))
      then str "...[truncated]" else [])
  ++ [NL; NL]
  ++ str "Please provide a summary in Myanmar/Burmese language in plain text format:" ++ [NL]
  ++ str "1. Write a 2-3 sentence summary in Burmese" ++ [NL]
  ++ str "2. List 3-5 key points in Burmese (use bullet points " ++ [8226%N]
  ++ str ")" ++ [NL]
  ++ str "3. Identify content category in English (Technology, Programming, AI/ML, Web Development, Data Science, etc.)" ++ [NL]
  ++ str "4. Sentiment analysis (positive/negative/neutral)" ++ [NL; NL]
  ++ str "Format your response as JSON with Burmese text:" ++ [NL]
  ++ str "{" ++ [NL]
  ++ str "  " ++ dquote ++ str "summary" ++ dquote ++ str ": " ++ dquote
  ++ str "Your Burmese summary here" ++ dquote ++ str "," ++ [NL]
  ++ str "  " ++ dquote ++ str "keyPoints" ++ dquote ++ str ": ["
  ++ dquote ++ str "Burmese point 1" ++ dquote ++ str ", "
  ++ dquote ++ str "Burmese point 2" ++ dquote ++ str ", "
  ++ dquote ++ str "Burmese point 3" ++ dquote ++ str "]," ++ [NL]
  ++ str "  " ++ dquote ++ str "category" ++ dquote ++ str ": " ++ dquote
  ++ str "Category Name in English" ++ dquote ++ str "," ++ [NL]
  ++ str "  " ++ dquote ++ str "sentiment" ++ dquote ++ str ": " ++ dquote
  ++ str "positive|negative|neutral" ++ dquote ++ [NL]
  ++ str "}" ++ [NL].

(** The request that [summarizeChunkGroup] sends for a group. *)
Definition group_request (group : ChunkGroup)
    (contentTitle contentType : jsstring) (groupIndex : Z)
    (totalGroups : nat) : completion_request :=
  let info := contextInfo contentTitle groupIndex totalGroups in
  {| system_prompt := group_system_prompt contentType info;
     user_prompt := group_user_prompt group contentType info;
     max_tokens := 3500 |}.

Section SummarizeChunkGroup.
Variable chat_completion : completion_request → option jsstring.
Variable parse_response : jsstring → option AiResponse.
Variable now : Z.

(** [group.id]: the id of the row the group was read from. *)
Variable group_id : ChunkGroup → option Z.

(** [summarizeChunkGroup(group, contentTitle, contentType, groupIndex,
    totalGroups)]: [None] for [null].  An answer without content (also
    the empty string) throws, and the [catch] answers [null]. *)
Definition summarizeChunkGroup (group : ChunkGroup)
    (contentTitle contentType : jsstring) (groupIndex : Z)
    (totalGroups : nat) : option SummarizedContent :=
  match chat_completion
          (group_request group contentTitle contentType groupIndex totalGroups)
  with
  | Some (c :: r) =>
      let responseContent := c :: r in
      let aiResponse :=
        match parse_response responseContent with
        | Some parsed => parsed
        | None =>
            {| ai_summary := Some (take 500 responseContent);
               ai_keyPoints := Some [str "Content analysis available"];
               ai_category :=
                 Some (if decide (contentType = str "code")
                       then str "Programming" else str "General");
               ai_sentiment := Some (str "neutral") |}
        end in
      Some {| id := None;
              url := [];
              title := contentTitle;
              original_text := take (Z.to_nat 10000) (combined_text group);
              summary :=
                or_string (ai_summary aiResponse) (str "Summary not available");
              key_points := or_array (ai_keyPoints aiResponse) [];
              code_snippets := [];
              content_type := contentType;
              sentiment := or_string (ai_sentiment aiResponse) (str "neutral");
              category := or_string (ai_category aiResponse) (str "General");
              crawled_at := now;
              summarized_at := now;
              crawled_content_id := None;
              chunk_group_id := group_id group;
              is_partial_summary := bool_decide (1 < totalGroups)%nat |}
  | _ => None
  end.
End SummarizeChunkGroup.



Definition demo_single : ContentWithGroups :=
  {| cd_id := 1; cd_url := str "https://example.org/post";
     cd_title := str "Post"; cd_content_type := str "article";
     cd_crawled_at := 1700000000000; cd_groups := [demo_group 0 "a"] |}.

(** What the one group of [demo_single] comes to when the answer is not
    JSON. *)
Definition demo_single_partial : SummarizedContent :=
  {| id := None; url := []; title := str "Post"; original_text := str "a";
     summary := str "not json";
     key_points := [str "Content analysis available"]; code_snippets := [];
     content_type := str "article"; sentiment := str "neutral";
     category := str "General"; crawled_at := 5; summarized_at := 5;
     crawled_content_id := None; chunk_group_id := Some 4;
     is_partial_summary := false |}.


(** The same document when an earlier run left a summary behind: the
    stale summary and the new one are merged by a second request. *)
Example processArticle_single_group_stale :
  let staged := fill_in (str "https://example.org/post") 1 1700000000000
                  demo_single_partial in
  let run :=
    processArticle summary (λ _, Some staged) (λ _, Some (str "not json"))
      (λ _, None) 5
      (summarizeChunkGroup (λ _, Some (str "not json")) (λ _, None) 5
         (λ _, Some 4))
      (λ _ _, true) (λ _, true) demo_single
      {[ queueKey 1 := [str "left behind"] ]} in
  ar_result run = true
  ∧ length (ar_requests run) = 1%nat
  ∧ (chunk_group_id <$> ar_saved run) = Some None
  ∧ (key_points <$> ar_saved run)
    = Some [str "Content analysis available"; str "Content analysis available"].
Proof. vm_compute. done. Qed.

End GroupSummary.

(** ** Code-block boundaries *)

(** A run of literals matches exactly the strings it is a prefix of. *)
Lemma match_literals (w : jsstring) (r : list atom) (s : jsstring) (n : nat) :
  match_seq ((Lit <$> w) ++ r) s = Some n
  ↔ w `prefix_of` s
    ∧ ∃ j, n = (length w + j)%nat ∧ match_seq r (drop (length w) s) = Some j.
Proof.
  revert s n. induction w as [|c w IH]; intros s n.
  - cbn [fmap list_fmap app length drop]. split.
    + intros H. split; [apply prefix_nil|]. by exists n.
    + by intros (_ & j & -> & H).
  - cbn [fmap list_fmap app match_seq length]. destruct s as [|x s].
    + split; [done|]. intros [H _]. by apply prefix_nil_not in H.
    + destruct (N.eqb_spec x c) as [->|Hne].
      * rewrite fmap_Some. split.
        -- intros (m & Hm & ->). apply IH in Hm as (Hp & j & -> & Hj).
           split; [by apply prefix_cons|]. by exists j.
        -- intros (Hp & j & -> & Hj). exists (length w + j)%nat.
           split; [|done]. apply IH. split; [|by exists j].
           by apply prefix_cons_inv_2 in Hp.
      * split; [done|]. intros [Hp _]. by apply prefix_cons_inv_1 in Hp.
Qed.

(** A lazy [[\s\S]*?] stops at the first offset where what follows it
    matches. *)
Lemma lazy_any_first (k : jsstring → option nat) (s : jsstring) (n : nat) :
  lazy_rep any_char k s = Some n
  ↔ ∃ m j, (m <= length s)%nat ∧ n = (m + j)%nat ∧ k (drop m s) = Some j
           ∧ ∀ m', (m' < m)%nat → k (drop m' s) = None.
Proof.
  unfold jsstring in *. revert n. induction s as [|c s IH]; intros n.
  - cbn [lazy_rep]. destruct (k []) as [j|] eqn:Hk.
    + split.
      * intros [= <-]. exists 0%nat, j. split_and!; try done. lia.
      * intros (m & j' & Hm & -> & Hj & _). cbn in Hm.
        assert (m = 0%nat) as -> by lia. simpl in Hj |- *. congruence.
    + split; [done|]. intros (m & j' & Hm & -> & Hj & _). cbn in Hm.
      assert (m = 0%nat) as -> by lia. simpl in Hj |- *. congruence.
  - cbn [lazy_rep]. destruct (k (c :: s)) as [j|] eqn:Hk.
    + split.
      * intros [= <-]. exists 0%nat, j. split_and!; try done; [cbn; lia | lia].
      * intros (m & j' & Hm & -> & Hj & Hfirst).
        destruct m as [|m]; [simpl in Hj |- *; congruence|].
        specialize (Hfirst 0%nat ltac:(lia)). simpl in Hfirst. congruence.
    + cbn [any_char]. rewrite fmap_Some. split.
      * intros (n' & Hn' & ->). apply IH in Hn' as (m & j & Hm & -> & Hj & Hfirst).
        exists (S m), j. split_and!; try done; [cbn; lia|].
        intros [|m'] Hlt; [done|]. cbn. apply Hfirst. lia.
      * intros (m & j & Hm & -> & Hj & Hfirst).
        destruct m as [|m]; [simpl in Hj |- *; congruence|].
        exists (m + j)%nat. split; [|done]. apply IH.
        exists m, j. split_and!; try done; [cbn in Hm; lia|].
        intros m' Hlt. apply (Hfirst (S m')). lia.
Qed.

(** The first [n] characters of [s] are a block between the delimiters
    [opening] and [closing]: [s] starts with [opening], and the block
    ends with the first [closing] that starts after it. *)
Definition delimited (opening closing s : jsstring) (n : nat) : Prop :=
  opening `prefix_of` s
  ∧ ∃ m, n = (length opening + m + length closing)%nat
         ∧ closing `prefix_of` drop (length opening + m) s
         ∧ ∀ m', (m' < m)%nat →
                 ¬ closing `prefix_of` drop (length opening + m') s.

Lemma match_delimited (opening closing s : jsstring) (n : nat) :
  match_seq ((Lit <$> opening) ++ [LazyStar any_char] ++ (Lit <$> closing)) s
  = Some n
  ↔ delimited opening closing s n.
Proof.
  assert (Hclose : ∀ t j, match_seq (Lit <$> closing) t = Some j
                          ↔ closing `prefix_of` t ∧ j = length closing).
  { intros t j. rewrite <- (app_nil_r (Lit <$> closing)), match_literals.
    cbn [match_seq]. split.
    - intros (Hp & j' & -> & [= <-]). split; [done | lia].
    - intros (Hp & ->). split; [done|]. exists 0%nat. split; [lia | done]. }
  assert (Hnone : ∀ t, match_seq (Lit <$> closing) t = None
                       ↔ ¬ closing `prefix_of` t).
  { intros t. destruct (match_seq (Lit <$> closing) t) as [j|] eqn:Hj.
    - apply Hclose in Hj as [Hp _]. split; [done | by intros []].
    - split; [|done]. intros _ Hp.
      assert (match_seq (Lit <$> closing) t = Some (length closing)) as Hs
        by by apply Hclose.
      congruence. }
  rewrite match_literals. unfold delimited.
  cbn [app match_seq]. split.
  - intros (Hp & j & -> & Hl). split; [done|].
    apply lazy_any_first in Hl as (m & j' & Hm & -> & Hj & Hfirst).
    rewrite drop_drop in Hj. apply Hclose in Hj as [Hc ->].
    exists m. split_and!; [lia | done |].
    intros m' Hlt. specialize (Hfirst m' Hlt).
    rewrite drop_drop in Hfirst. by apply Hnone.
  - intros (Hp & m & -> & Hc & Hfirst). split; [done|].
    exists (m + length closing)%nat. split; [lia|].
    apply lazy_any_first. exists m, (length closing).
    assert (Hlen : (length opening + m + length closing <= length s)%nat).
    { destruct (decide (length opening + m <= length s)%nat) as [Hin|Hout].
      - apply prefix_length in Hc. rewrite length_drop in Hc. lia.
      - rewrite drop_ge in Hc by lia. apply prefix_nil_inv in Hc. subst closing.
        destruct m as [|m].
        + apply prefix_length in Hp. lia.
        + exfalso. apply (Hfirst 0%nat); [lia | apply prefix_nil]. }
    split_and!; try done.
    + rewrite length_drop. lia.
    + rewrite drop_drop. by apply Hclose.
    + intros m' Hlt. rewrite drop_drop. apply Hnone. by apply Hfirst.
Qed.

(** A fenced block or a [<pre>] element starts at the head of [s] and is
    [n] characters long. *)
Definition code_block_at (s : jsstring) (n : nat) : Prop :=
  delimited (str "```") (str "```") s n
  ∨ delimited (str "<pre>") (str "</pre>") s n.

Lemma code_block_match (s : jsstring) (n : nat) :
  regex_match codeBlockRegex s = Some n ↔ code_block_at s n.
Proof.
  unfold codeBlockRegex, code_block_at, lits. cbn [regex_match].
  destruct (match_seq ((Lit <$> str "```") ++ _) s) as [n1|] eqn:H1.
  - split.
    + intros [= <-]. left. by apply match_delimited.
    + intros [H | H].
      * apply match_delimited in H. congruence.
      * apply match_delimited in H1. destruct H1 as [H1 _], H as [H _].
        destruct H1 as [t1 ->]. destruct H as [t2 H]. by cbn in H.
  - destruct (match_seq ((Lit <$> str "<pre>") ++ _) s) as [n2|] eqn:H2.
    + split.
      * intros [= <-]. right. by apply match_delimited.
      * intros [H | H]; apply match_delimited in H; congruence.
    + split; [done|]. intros [H | H]; apply match_delimited in H; congruence.
Qed.

Lemma code_block_at_nonempty (s : jsstring) (n : nat) :
  code_block_at s n → s ≠ [].
Proof. intros [[[t ->] _] | [[t ->] _]]; by cbn. Qed.

(** A global scan finds a match whenever the pattern matches somewhere. *)
Lemma exec_from_found (r : regex) (s : jsstring) (pos k n : nat) :
  (k < length s)%nat → regex_match r (drop k s) = Some n →
  exec_from r s pos 0 ≠ [].
Proof.
  revert pos k. induction s as [|c s IH]; intros pos k Hk Hm; [cbn in Hk; lia|].
  cbn [exec_from]. destruct (regex_match r (c :: s)) as [m|] eqn:Hhead; [done|].
  destruct k as [|k]; [cbn in Hm; congruence|].
  apply (IH (S pos) k); [cbn in Hk; lia | done].
Qed.

Lemma code_block_candidates (text : jsstring) :
  filter (λ b, type b = code_block) (candidates text)
  = exec_all codeBlockRegex text ≫=
      (λ m, [ {| index := m.1; type := code_block; priority := 85 |};
              {| index := m.1 + m.2; type := code_block; priority := 85 |} ]).
Proof.
  unfold candidates. rewrite !filter_app.
  rewrite (filter_keeps_none _ (_ <$> exec_all paragraphRegex text)).
  2:{ apply Forall_fmap, Forall_forall. by intros. }
  rewrite (filter_keeps_none _ (_ <$> exec_all sectionRegex text)).
  2:{ apply Forall_fmap, Forall_forall. by intros. }
  rewrite (filter_keeps_all _ (_ ≫= _)).
  2:{ apply Forall_forall. intros b Hb.
      apply list_elem_of_bind in Hb as (m & Hb & _).
      repeat (apply elem_of_cons in Hb as [-> | Hb]); try done.
      by apply elem_of_nil in Hb. }
  rewrite (filter_keeps_none _ (_ <$> exec_all sentenceRegex text)).
  2:{ apply Forall_fmap, Forall_forall. by intros. }
  by rewrite app_nil_r.
Qed.

(** X23. Boundaries of kind code block come in pairs: each one is the
    start or the end of a block that opens with three backticks and runs
    to the next three backticks, or opens with [<pre>] and runs to the
    next [</pre>]; the start and the end of that block are both reported,
    with priority 85.  A text gets such boundaries exactly when a block
    of that form starts somewhere in it. *)
Theorem findTextBoundaries_code_blocks (text : jsstring) :
  (∀ b, b ∈ findTextBoundaries text → type b = code_block →
     priority b = 85
     ∧ ∃ p n, code_block_at (drop p text) n
         ∧ (index b = p ∨ index b = (p + n)%nat)
         ∧ {| index := p; type := code_block; priority := 85 |}
             ∈ findTextBoundaries text
         ∧ {| index := p + n; type := code_block; priority := 85 |}
             ∈ findTextBoundaries text)
  ∧ ((∃ p n, code_block_at (drop p text) n)
     ↔ ∃ b, b ∈ findTextBoundaries text ∧ type b = code_block).
Proof.
  assert (Hmem : ∀ b, b ∈ findTextBoundaries text ∧ type b = code_block
                      ↔ ∃ m, m ∈ exec_all codeBlockRegex text
                             ∧ (b = {| index := m.1; type := code_block;
                                       priority := 85 |}
                                ∨ b = {| index := m.1 + m.2; type := code_block;
                                         priority := 85 |})).
  { assert (Hperm : findTextBoundaries text ≡ₚ candidates text)
      by (rewrite findTextBoundaries_candidates; apply sort_by_index_perm).
    intros b. split.
    - intros [Hin Hty].
      assert (b ∈ filter (λ b, type b = code_block) (findTextBoundaries text))
        as Hb by (by apply list_elem_of_filter).
      rewrite Hperm, code_block_candidates in Hb.
      apply list_elem_of_bind in Hb as (m & Hb & Hm).
      exists m. split; [done|].
      repeat (apply elem_of_cons in Hb as [-> | Hb]); [by left | by right |].
      by apply elem_of_nil in Hb.
    - intros (m & Hm & Hb).
      assert (b ∈ filter (λ b, type b = code_block) (findTextBoundaries text))
        as Hf; [|by apply list_elem_of_filter in Hf as [? ?]].
      rewrite Hperm, code_block_candidates.
      apply list_elem_of_bind. exists m. split; [|done].
      destruct Hb as [-> | ->]; set_solver. }
  split.
  - intros b Hb Ht. destruct (proj1 (Hmem b) (conj Hb Ht)) as ([p n] & Hm & Hbm).
    cbn [fst snd] in Hbm. split; [by destruct Hbm as [-> | ->]|].
    exists p, n. split_and!.
    + apply exec_all_in in Hm as [_ Hm]. by apply code_block_match.
    + by destruct Hbm as [-> | ->]; [left | right].
    + apply (proj2 (Hmem _)). exists (p, n). split; [done | by left].
    + apply (proj2 (Hmem _)). exists (p, n). split; [done | by right].
  - split.
    + intros (p & n & Hat).
      assert (Hp : (p < length text)%nat).
      { apply code_block_at_nonempty in Hat.
        destruct (decide (p < length text)%nat); [done|].
        by rewrite drop_ge in Hat by lia. }
      apply code_block_match in Hat.
      pose proof (exec_from_found _ _ 0 _ _ Hp Hat) as Hne.
      fold (exec_all codeBlockRegex text) in Hne.
      destruct (exec_all codeBlockRegex text) as [|m l] eqn:Hexec; [done|].
      exists {| index := m.1; type := code_block; priority := 85 |}.
      apply Hmem. exists m. split; [apply elem_of_cons; by left | by left].
    + intros (b & Hb & Ht).
      destruct (proj1 (Hmem b) (conj Hb Ht)) as ([p n] & Hm & _).
      exists p, n. apply exec_all_in in Hm as [_ Hm]. by apply code_block_match.
Qed.

(** A fenced block gets its two boundaries, a fence that is not closed
    gets none. *)
Example findTextBoundaries_fence :
  findTextBoundaries (str "a ```x``` b ``` c")
  = [ {| index := 2; type := code_block; priority := 85 |};
      {| index := 9; type := code_block; priority := 85 |} ].
Proof. vm_compute. reflexivity. Qed.

(** ** Section boundaries *)

(** Every character of [s] at the offsets [a .. b) is in the class [p]. *)
Definition class_between (p : char → bool) (s : jsstring) (a b : nat) : Prop :=
  ∀ j, (a <= j < b)%nat → ∃ c, s !! j = Some c ∧ p c = true.

Lemma class_between_drop (p : char → bool) (s : jsstring) (m a b : nat) :
  class_between p (drop m s) a b ↔ class_between p s (m + a) (m + b).
Proof.
  unfold class_between, jsstring. split; intros H j Hj.
  - destruct (H (j - m)%nat ltac:(lia)) as (c & Hc & Hp).
    rewrite lookup_drop in Hc. exists c. split; [|done].
    by replace (m + (j - m))%nat with j in Hc by lia.
  - destruct (H (m + j)%nat ltac:(lia)) as (c & Hc & Hp).
    exists c. by rewrite lookup_drop.
Qed.

Lemma class_between_cons (p : char → bool) (c : char) (s : jsstring) (m : nat) :
  class_between p (c :: s) 0 (S m) ↔ p c = true ∧ class_between p s 0 m.
Proof.
  unfold class_between. split.
  - intros H. split.
    + destruct (H 0%nat ltac:(lia)) as (x & [= <-] & Hp). done.
    + intros j Hj. apply (H (S j)). lia.
  - intros [Hc H] [|j] Hj; [by exists c|]. apply H. lia.
Qed.

Lemma class_between_eq (p : char → bool) (s : jsstring) (a b a' b' : nat) :
  a = a' → b = b' → class_between p s a b → class_between p s a' b'.
Proof. by intros -> ->. Qed.

(** What a greedy repetition returns is a run of the class followed by a
    match of the continuation, and it returns whenever there is such a
    run. *)
Lemma greedy_sound (p : char → bool) (k : jsstring → option nat)
    (s : jsstring) (n : nat) :
  greedy p k s = Some n →
  ∃ m j, n = (m + j)%nat ∧ class_between p s 0 m ∧ k (drop m s) = Some j.
Proof.
  revert n. induction s as [|c s IH]; intros n; cbn [greedy].
  - intros H. exists 0%nat, n. split_and!; [done | intros j; lia | done].
  - destruct (p c) eqn:Hp.
    + destruct (greedy p k s) as [n'|] eqn:Hg.
      * intros [= <-]. destruct (IH n' eq_refl) as (m & j & -> & Hb & Hk).
        exists (S m), j. split_and!; [done | by apply class_between_cons | done].
      * intros H. exists 0%nat, n. split_and!; [done | intros j; lia | done].
    + intros H. exists 0%nat, n. split_and!; [done | intros j; lia | done].
Qed.

Lemma greedy_complete (p : char → bool) (k : jsstring → option nat)
    (s : jsstring) (m j : nat) :
  class_between p s 0 m → k (drop m s) = Some j →
  is_Some (greedy p k s).
Proof.
  revert m. induction s as [|c s IH]; intros m Hb Hk; cbn [greedy].
  - destruct m as [|m]; [by eexists|].
    destruct (Hb 0%nat ltac:(lia)) as (x & Hx & _). done.
  - destruct m as [|m].
    + cbn in Hk. destruct (p c); [|by eexists].
      destruct (greedy p k s); by eexists.
    + apply class_between_cons in Hb as [-> Hb].
      destruct (IH m Hb Hk) as [n' ->]. by eexists.
Qed.

Lemma match_plus (p : char → bool) (r : list atom) (s : jsstring) :
  (∀ n, match_seq (Plus p :: r) s = Some n →
        ∃ m j, (1 <= m)%nat ∧ n = (m + j)%nat ∧ class_between p s 0 m
               ∧ match_seq r (drop m s) = Some j)
  ∧ (∀ m j, (1 <= m)%nat → class_between p s 0 m →
            match_seq r (drop m s) = Some j →
            is_Some (match_seq (Plus p :: r) s)).
Proof.
  cbn [match_seq]. destruct s as [|x s].
  - split; [done|]. intros m j Hm Hb _.
    destruct (Hb 0%nat ltac:(lia)) as (c & Hc & _). done.
  - split.
    + intros n. destruct (p x) eqn:Hp; [|done].
      rewrite fmap_Some. intros (n' & Hg & ->).
      apply greedy_sound in Hg as (m & j & -> & Hb & Hk).
      exists (S m), j. split_and!; [lia | done | by apply class_between_cons | done].
    + intros [|m] j Hm Hb Hk; [lia|].
      apply class_between_cons in Hb as [-> Hb].
      destruct (greedy_complete p (match_seq r) s m j Hb Hk) as [n ->].
      by eexists.
Qed.

Lemma match_lit (c : char) (r : list atom) (s : jsstring) (n : nat) :
  match_seq (Lit c :: r) s = Some n
  ↔ s !! 0%nat = Some c ∧ ∃ j, n = S j ∧ match_seq r (drop 1 s) = Some j.
Proof.
  cbn [match_seq]. destruct s as [|x s].
  - split; [done | by intros [? _]].
  - cbn [drop]. destruct (N.eqb_spec x c) as [->|Hne].
    + rewrite fmap_Some. split.
      * intros (j & Hj & ->). split; [done|]. by exists j.
      * intros (_ & j & -> & Hj). by exists j.
    + split; [done|]. intros [[= ?] _]. done.
Qed.

(** A header line starts at the head of [s] and is [n] characters long: a
    newline, one or more [#], one or more whitespace characters, one or
    more characters that are no line terminators, and a newline. *)
Definition header_at (s : jsstring) (n : nat) : Prop :=
  ∃ h w d, (1 <= h)%nat ∧ (1 <= w)%nat ∧ (1 <= d)%nat
    ∧ n = (1 + h + w + d + 1)%nat
    ∧ s !! 0%nat = Some NL
    ∧ class_between is_hash s 1 (1 + h)
    ∧ class_between is_ws s (1 + h) (1 + h + w)
    ∧ class_between is_dot s (1 + h + w) (1 + h + w + d)
    ∧ s !! (1 + h + w + d)%nat = Some NL.

Lemma section_match (s : jsstring) :
  (∀ n, regex_match sectionRegex s = Some n → header_at s n)
  ∧ (∀ n, header_at s n → is_Some (regex_match sectionRegex s)).
Proof.
  unfold sectionRegex. cbn [regex_match].
  assert (Hreg : ∀ n, match match_seq [Lit NL; Plus is_hash; Plus is_ws;
                                         Plus is_dot; Lit NL] s with
                      | Some n => Some n | None => None end = Some n
                      ↔ match_seq [Lit NL; Plus is_hash; Plus is_ws;
                                   Plus is_dot; Lit NL] s = Some n).
  { intros n. by destruct (match_seq _ s). }
  split.
  - intros n Hn. apply Hreg in Hn.
    apply match_lit in Hn as (H0 & n1 & -> & Hn).
    apply (proj1 (match_plus _ _ _)) in Hn as (h & n2 & Hh & -> & Hhash & Hn).
    apply (proj1 (match_plus _ _ _)) in Hn as (w & n3 & Hw & -> & Hws & Hn).
    apply (proj1 (match_plus _ _ _)) in Hn as (d & n4 & Hd & -> & Hdot & Hn).
    apply match_lit in Hn as (Hnl & j & -> & Hj). cbn [match_seq] in Hj.
    injection Hj as <-.
    unfold jsstring in *. rewrite !drop_drop in *.
    rewrite class_between_drop in Hhash.
    rewrite class_between_drop in Hws. rewrite class_between_drop in Hdot.
    rewrite lookup_drop in Hnl.
    exists h, w, d. split_and!; try done; try lia.
    + eapply class_between_eq; [| |exact Hws]; lia.
    + eapply class_between_eq; [| |exact Hdot]; lia.
    + rewrite <- Hnl. f_equal. lia.
  - intros n (h & w & d & Hh & Hw & Hd & -> & H0 & Hhash & Hws & Hdot & Hnl).
    assert (H4 : match_seq [Lit NL] (drop (1 + h + w + d) s) = Some 1%nat).
    { apply match_lit. unfold jsstring in *. rewrite lookup_drop.
      split; [by rewrite Nat.add_0_r|]. by exists 0%nat. }
    assert (H3 : is_Some (match_seq [Plus is_dot; Lit NL] (drop (1 + h + w) s))).
    { apply (proj2 (match_plus _ _ _) d 1%nat Hd).
      - apply class_between_drop. by rewrite Nat.add_0_r.
      - unfold jsstring in *. rewrite drop_drop. done. }
    destruct H3 as [n3 H3].
    assert (H2 : is_Some (match_seq [Plus is_ws; Plus is_dot; Lit NL]
                            (drop (1 + h) s))).
    { apply (proj2 (match_plus _ _ _) w n3 Hw).
      - apply class_between_drop. by rewrite Nat.add_0_r.
      - unfold jsstring in *. rewrite drop_drop. done. }
    destruct H2 as [n2 H2].
    assert (H1 : is_Some (match_seq [Plus is_hash; Plus is_ws; Plus is_dot; Lit NL]
                            (drop 1 s))).
    { apply (proj2 (match_plus _ _ _) h n2 Hh).
      - apply class_between_drop. by rewrite Nat.add_0_r.
      - unfold jsstring in *. rewrite drop_drop. done. }
    destruct H1 as [n1 H1].
    exists (S n1). apply Hreg. apply match_lit. split; [done|]. by exists n1.
Qed.

Lemma section_candidates (text : jsstring) :
  filter (λ b, type b = section) (candidates text)
  = (λ m, {| index := m.1 + m.2; type := section; priority := 90 |})
      <$> exec_all sectionRegex text.
Proof.
  unfold candidates. rewrite !filter_app.
  rewrite (filter_keeps_none _ (_ <$> exec_all paragraphRegex text)).
  2:{ apply Forall_fmap, Forall_forall. by intros. }
  rewrite (filter_keeps_all _ (_ <$> exec_all sectionRegex text)).
  2:{ apply Forall_fmap, Forall_forall. by intros. }
  rewrite (filter_keeps_none _ (_ ≫= _)).
  2:{ apply Forall_forall. intros b Hb.
      apply list_elem_of_bind in Hb as (m & Hb & _).
      repeat (apply elem_of_cons in Hb as [-> | Hb]); try done.
      by apply elem_of_nil in Hb. }
  rewrite (filter_keeps_none _ (_ <$> exec_all sentenceRegex text)).
  2:{ apply Forall_fmap, Forall_forall. by intros. }
  by rewrite !app_nil_r.
Qed.

(** X24. Every boundary of kind section sits just after a header line: a
    newline, one or more [#], whitespace, one or more characters that are
    no line terminators and a newline, the boundary being the offset after
    that last newline; its priority is 90.  A text gets such a boundary
    exactly when a header line of that form starts somewhere in it. *)
Theorem findTextBoundaries_sections (text : jsstring) :
  (∀ b, b ∈ findTextBoundaries text → type b = section →
     priority b = 90
     ∧ ∃ p n, header_at (drop p text) n ∧ index b = (p + n)%nat)
  ∧ ((∃ p n, header_at (drop p text) n)
     ↔ ∃ b, b ∈ findTextBoundaries text ∧ type b = section).
Proof.
  assert (Hperm : findTextBoundaries text ≡ₚ candidates text)
    by (rewrite findTextBoundaries_candidates; apply sort_by_index_perm).
  assert (Hmem : ∀ b, b ∈ findTextBoundaries text ∧ type b = section
                      ↔ ∃ m, m ∈ exec_all sectionRegex text
                             ∧ b = {| index := m.1 + m.2; type := section;
                                      priority := 90 |}).
  { intros b. split.
    - intros [Hin Hty].
      assert (b ∈ filter (λ b, type b = section) (findTextBoundaries text))
        as Hb by (by apply list_elem_of_filter).
      rewrite Hperm, section_candidates in Hb.
      apply list_elem_of_fmap in Hb as (m & -> & Hm). by exists m.
    - intros (m & Hm & ->).
      assert ({| index := m.1 + m.2; type := section; priority := 90 |}
                ∈ filter (λ b, type b = section) (findTextBoundaries text))
        as Hf; [|by apply list_elem_of_filter in Hf as [? ?]].
      rewrite Hperm, section_candidates.
      apply list_elem_of_fmap. by exists m. }
  split.
  - intros b Hb Ht.
    destruct (proj1 (Hmem b) (conj Hb Ht)) as ([p n] & Hm & ->).
    split; [done|]. exists p, n. split; [|done].
    apply exec_all_in in Hm as [_ Hm]. by apply section_match.
  - split.
    + intros (p & n & Hat).
      assert (Hp : (p < length text)%nat).
      { destruct Hat as (h & w & d & _ & _ & _ & _ & H0 & _).
        unfold jsstring in *. rewrite lookup_drop in H0.
        apply lookup_lt_Some in H0. lia. }
      apply section_match in Hat as [n' Hat].
      pose proof (exec_from_found _ _ 0 _ _ Hp Hat) as Hne.
      fold (exec_all sectionRegex text) in Hne.
      destruct (exec_all sectionRegex text) as [|m l] eqn:Hexec; [done|].
      exists {| index := m.1 + m.2; type := section; priority := 90 |}.
      apply Hmem. exists m. split; [apply elem_of_cons; by left | done].
    + intros (b & Hb & Ht).
      destruct (proj1 (Hmem b) (conj Hb Ht)) as ([p n] & Hm & _).
      exists p, n. apply exec_all_in in Hm as [_ Hm]. by apply section_match.
Qed.

(** A header whose title is empty takes the following line with it: the
    whitespace after the [#] runs over the end of the line. *)
Example findTextBoundaries_header :
  (index <$> filter (λ b, type b = section)
     (findTextBoundaries (str "a" ++ [NL] ++ str "# T" ++ [NL] ++ str "body")))
  = [6%nat]
  ∧ (index <$> filter (λ b, type b = section)
       (findTextBoundaries (str "a" ++ [NL] ++ str "# " ++ [NL] ++ str "body" ++ [NL]
                              ++ str "more")))
    = [10%nat].
Proof. vm_compute. done. Qed.
